(** * Open-Overlay: keyframe interpolation, colour math and transform geometry

    A shallow embedding of the numeric core of the overlay designer
    (colour utilities, easing curves, the global keyframe interpolation
    engine, scene snapshotting, keyframe insertion, and the move / resize
    gestures of [TransformBox]), of the colour picker's conversions, of the
    element tree of the Designer with the editing of elements and
    keyframes, and of the playback clock, with the properties stated about
    them.

    Conventions of the embedding.
    - A JavaScript [number] is a real number ([R]); [NaN] only arises from
      [parseInt] and is modelled there by [None].  IEEE rounding is not
      modelled.
    - A JavaScript string is a [string]; its characters are the code units
      below 256.
    - A JavaScript object used as a dictionary is a [gmap]; the order of its
      keys is not modelled.
    - [uuidv4()] is modelled by passing the fresh identifier as an argument. *)

From Stdlib Require Import Reals Lra Lia ZArith String Ascii HexString.
From stdpp Require Import gmap strings list fin_maps sorting.

Open Scope R_scope.

(* ##################################################################### *)
(** * Part I: the embedding *)
(* ##################################################################### *)

(* ===================================================================== *)
(** * The [Math] object and string primitives                              *)
(* ===================================================================== *)

Module Js.

(** [Math.round(x)]: the nearest integer, halves going up. *)
Definition round_Z (x : R) : Z := Zfloor (x + / 2).
Definition Math_round (x : R) : R := IZR (round_Z x).

Definition Math_max (a b : R) : R := if Rle_dec a b then b else a.
Definition Math_abs (a : R) : R := if Rle_dec 0 a then a else - a.
Definition Math_pow (a b : R) : R := Rpower a b.
Definition Math_sin : R -> R := sin.
Definition Math_cos : R -> R := cos.
Definition Math_PI : R := PI.

(** Truthiness of a number and of a string. *)
Definition truthy_num (r : R) : bool := if Req_dec_T r 0 then false else true.
Definition truthy_str (s : string) : bool :=
  match s with EmptyString => false | String _ _ => true end.

(** [s.includes(c)] for a one-character needle. *)
Fixpoint includes (s : string) (c : ascii) : bool :=
  match s with
  | EmptyString => false
  | String d r => if Ascii.eqb d c then true else includes r c
  end.

(** [s.replace(c, '')]: only the first occurrence is removed. *)
Fixpoint replace_first (c : ascii) (s : string) : string :=
  match s with
  | EmptyString => EmptyString
  | String d r => if Ascii.eqb d c then r else String d (replace_first c r)
  end.

(** [s.split('').map(c => c + c).join('')] *)
Fixpoint double_chars (s : string) : string :=
  match s with
  | EmptyString => EmptyString
  | String d r => String d (String d (double_chars r))
  end.

Fixpoint repeat_char (c : ascii) (n : nat) : string :=
  match n with O => EmptyString | S k => String c (repeat_char c k) end.

(** [s.padEnd(n, c)] and [s.padStart(n, c)] for a one-character pad. *)
Definition padEnd (s : string) (n : nat) (c : ascii) : string :=
  String.append s (repeat_char c (n - String.length s)).
Definition padStart (s : string) (n : nat) (c : ascii) : string :=
  String.append (repeat_char c (n - String.length s)) s.

(** [s.slice(i, j)] for [0 <= i <= j]. *)
Definition slice (i j : nat) (s : string) : string := substring i (j - i) s.
(** [s.slice(i)] *)
Definition slice_from (i : nat) (s : string) : string :=
  substring i (String.length s - i) s.

(** White space skipped by [parseInt]: tab, line feed, vertical tab, form
    feed, carriage return, space and no-break space. *)
Definition is_white (c : ascii) : bool :=
  let n := nat_of_ascii c in
  ((9 <=? n) && (n <=? 13) || (n =? 32) || (n =? 160))%nat.

Definition is_hex_digit (c : ascii) : bool :=
  match ascii_to_digit c with Some _ => true | None => false end.

Fixpoint skip_white (s : string) : string :=
  match s with
  | String c r => if is_white c then skip_white r else s
  | EmptyString => s
  end.

(** Value of the longest prefix of hexadecimal digits, most significant
    first; [acc] holds the digits read so far ([None] when there are none
    yet). *)
Fixpoint hex_prefix (s : string) (acc : option Z) : option Z :=
  match s with
  | String c r =>
      match ascii_to_digit c with
      | Some d => hex_prefix r (Some (16 * default 0%Z acc + Z.of_N d)%Z)
      | None => acc
      end
  | EmptyString => acc
  end.

(** An optional leading [0x] or [0X] is dropped. *)
Definition strip_0x (s : string) : string :=
  match s with
  | String c (String d r) =>
      if Ascii.eqb c "0" && (Ascii.eqb d "x" || Ascii.eqb d "X") then r else s
  | _ => s
  end.

(** An optional leading sign. *)
Definition split_sign (s : string) : Z * string :=
  match s with
  | String c r =>
      if Ascii.eqb c "-" then ((-1)%Z, r)
      else if Ascii.eqb c "+" then (1%Z, r)
      else (1%Z, s)
  | EmptyString => (1%Z, s)
  end.

(** [parseInt(s, 16)]: leading white space, an optional sign, an optional
    [0x], then the longest run of hexadecimal digits; [None] is [NaN]. *)
Definition parseInt16 (s : string) : option Z :=
  let '(sign, s2) := split_sign (skip_white s) in
  (fun n => (sign * n)%Z) <$> hex_prefix (strip_0x s2) None.

(** [ToInt32], the conversion applied by [>>] and [&]. *)
Definition toInt32 (n : Z) : Z := ((n + 2 ^ 31) mod 2 ^ 32 - 2 ^ 31)%Z.
Definition shr (n : Z) (k : Z) : Z := Z.shiftr (toInt32 n) k.
Definition band (n m : Z) : Z := Z.land (toInt32 n) (toInt32 m).

(** [n.toString(16)] for an integer [n]. *)
Definition toString16 (n : Z) : string :=
  match n with
  | Z0 => "0"
  | Zpos p => HexString.Raw.of_pos p ""
  | Zneg p => String "-" (HexString.Raw.of_pos p "")
  end.

End Js.
Import Js.

(* ===================================================================== *)
(** * Colour utilities                                                      *)
(* ===================================================================== *)

Record RGB := mkRGB { rgb_r : Z; rgb_g : Z; rgb_b : Z }.

Definition hexToRgb (hex : string) : RGB :=
  let clean := replace_first "#" hex in
  let full :=
    if (String.length clean =? 3)%nat then double_chars clean
    else padEnd clean 6 "0" in
  let n := default 0%Z (parseInt16 (slice 0 6 full)) in
  {| rgb_r := band (shr n 16) 255;
     rgb_g := band (shr n 8) 255;
     rgb_b := band n 255 |}.

(** The value of a hexadecimal digit (0 for any other character). *)
Definition hexval (c : ascii) : Z :=
  match ascii_to_digit c with Some d => Z.of_N d | None => 0%Z end.

Fixpoint all_hex (s : string) : bool :=
  match s with
  | EmptyString => true
  | String c r => is_hex_digit c && all_hex r
  end.

(** A well-formed colour: an optional [#] followed by three or six
    hexadecimal digits. *)
Definition wellFormedHex (s : string) : bool :=
  let digits := match s with String "#" r => r | _ => s end in
  all_hex digits &&
  ((String.length digits =? 3) || (String.length digits =? 6))%nat.

(** ** [lerpColor] *)

Definition is_dec_digit (c : ascii) : bool :=
  let n := nat_of_ascii c in ((48 <=? n) && (n <=? 57))%nat.

Definition dec_digit (c : ascii) : Z := (Z.of_nat (nat_of_ascii c) - 48)%Z.

(** [c.match(/\d+/g)] followed by [Number]: the maximal runs of decimal
    digits, in order; [cur] is the run being read. *)
Fixpoint digit_runs (s : string) (cur : option Z) : list Z :=
  match s with
  | EmptyString => match cur with Some n => [n] | None => [] end
  | String c r =>
      if is_dec_digit c
      then digit_runs r (Some (10 * default 0%Z cur + dec_digit c)%Z)
      else match cur with
           | Some n => n :: digit_runs r None
           | None => digit_runs r None
           end
  end.

(** The inner function [parse] of [lerpColor]: the list of channels, each
    one a number or [NaN] ([None]). *)
Definition lerpColor_parse (c : string) : list (option Z) :=
  match c with
  | String "#" _ =>
      let hex := slice_from 1 c in
      let full := if (String.length hex =? 3)%nat then double_chars hex else hex in
      [parseInt16 (slice 0 2 full); parseInt16 (slice 2 4 full);
       parseInt16 (slice 4 6 full)]
  | _ =>
      match digit_runs c None with
      | [] => [Some 0%Z; Some 0%Z; Some 0%Z]
      | m => Some <$> take 3 m
      end
  end.

(** [Math.round(ca[i] + (cb[i] - ca[i]) * t)]; a missing or [NaN] channel
    makes the result [NaN]. *)
Definition lerpChannel (ca cb : list (option Z)) (i : nat) (t : R) : option Z :=
  match mjoin (ca !! i), mjoin (cb !! i) with
  | Some a, Some b => Some (round_Z (IZR a + (IZR b - IZR a) * t))
  | _, _ => None
  end.

(** [v.toString(16).padStart(2, '0')] *)
Definition hex2 (v : option Z) : string :=
  match v with
  | Some n => padStart (toString16 n) 2 "0"
  | None => "NaN"
  end.

Definition lerpColor (a b : string) (t : R) : string :=
  let ca := lerpColor_parse a in
  let cb := lerpColor_parse b in
  let r := lerpChannel ca cb 0 t in
  let g := lerpChannel ca cb 1 t in
  let bl := lerpChannel ca cb 2 t in
  String "#" (hex2 r ++ hex2 g ++ hex2 bl)%string.

(* ===================================================================== *)
(** * Easing functions                                                     *)
(* ===================================================================== *)

Inductive EasingType :=
| linear | ease_in | ease_out | ease_in_out
| cubic_bezier | step_start | step_end | bounce | elastic.

Definition easingFn (t : R) (type : EasingType) : R :=
  match type with
  | linear => t
  | ease_in => t * t
  | ease_out => t * (2 - t)
  | ease_in_out => if Rlt_dec t 0.5 then 2 * t * t else -1 + (4 - 2 * t) * t
  | bounce =>
      if Rlt_dec t (1 / 2.75) then 7.5625 * t * t
      else if Rlt_dec t (2 / 2.75) then
        let t := t - 1.5 / 2.75 in 7.5625 * t * t + 0.75
      else if Rlt_dec t (2.5 / 2.75) then
        let t := t - 2.25 / 2.75 in 7.5625 * t * t + 0.9375
      else
        let t := t - 2.625 / 2.75 in 7.5625 * t * t + 0.984375
  | elastic =>
      if Req_dec_T t 0 then 0
      else if Req_dec_T t 1 then 1
      else (- Math_pow 2 (10 * (t - 1))) * Math_sin ((t - 1.1) * 5 * Math_PI)
  | cubic_bezier | step_start | step_end => t
  end.

(** The curves of the specification's table, written from its words. *)
Module EasingSpec.

Definition ease_in_out_formula (t : R) : R :=
  if Rlt_dec t (1 / 2) then 2 * t ^ 2 else -1 + (4 - 2 * t) * t.

Definition elastic_formula (t : R) : R :=
  if Req_dec_T t 0 then 0
  else if Req_dec_T t 1 then 1
  else - (Rpower 2 (10 * (t - 1)) * sin ((t - 1.1) * (5 * PI))).

(** [f] is a polynomial of degree two on the points satisfying [P]. *)
Definition quadratic_on (f : R -> R) (P : R -> Prop) : Prop :=
  exists a b c : R, a <> 0 /\ forall t, P t -> f t = a * t ^ 2 + b * t + c.

(** Four quadratic segments over [0,1], split at [b1 < b2 < b3]. *)
Definition four_segment_quadratic (f : R -> R) (b1 b2 b3 : R) : Prop :=
  0 < b1 /\ b1 < b2 /\ b2 < b3 /\ b3 < 1 /\
  quadratic_on f (fun t => 0 <= t < b1) /\
  quadratic_on f (fun t => b1 <= t < b2) /\
  quadratic_on f (fun t => b2 <= t < b3) /\
  quadratic_on f (fun t => b3 <= t <= 1).

(** The kinds the table lists. *)
Definition listed (k : EasingType) : bool :=
  match k with
  | linear | ease_in | ease_out | ease_in_out | bounce | elastic => true
  | cubic_bezier | step_start | step_end => false
  end.

End EasingSpec.

(* ===================================================================== *)
(** * Keyframe data model ([types.ts])                                     *)
(* ===================================================================== *)

(** [KeyframeProperty] is split by the type of the value stored under the
    key: the members of [NUMERIC_KEYFRAME_PROPS] hold numbers, those of
    [COLOR_KEYFRAME_PROPS] hold strings.  Constructors are the property
    names, prefixed with [P_]. *)
Inductive NumericProp :=
| P_x | P_y | P_width | P_height | P_rotation | P_opacity
| P_strokeWidth | P_borderRadius | P_fontSize | P_letterSpacing | P_lineHeight
| P_blur | P_brightness | P_contrast | P_hueRotate | P_saturate
| P_scaleX | P_scaleY.

Inductive ColorProp := P_fill | P_strokeColor | P_color.

Inductive KeyframeProperty :=
| Numeric (p : NumericProp)
| Color (p : ColorProp).

Definition NUMERIC_KEYFRAME_PROPS : list KeyframeProperty :=
  Numeric <$>
  [P_x; P_y; P_width; P_height; P_rotation; P_opacity;
   P_strokeWidth; P_borderRadius; P_fontSize; P_letterSpacing; P_lineHeight;
   P_blur; P_brightness; P_contrast; P_hueRotate; P_saturate; P_scaleX; P_scaleY].

Definition COLOR_KEYFRAME_PROPS : list KeyframeProperty :=
  Color <$> [P_fill; P_strokeColor; P_color].

#[global] Instance NumericProp_eq_dec : EqDecision NumericProp.
Proof. solve_decision. Defined.
#[global] Instance ColorProp_eq_dec : EqDecision ColorProp.
Proof. solve_decision. Defined.
#[global] Instance KeyframeProperty_eq_dec : EqDecision KeyframeProperty.
Proof. solve_decision. Defined.

Definition NumericProp_tag (p : NumericProp) : nat :=
  match p with
  | P_x => 0 | P_y => 1 | P_width => 2 | P_height => 3 | P_rotation => 4
  | P_opacity => 5 | P_strokeWidth => 6 | P_borderRadius => 7
  | P_fontSize => 8 | P_letterSpacing => 9 | P_lineHeight => 10
  | P_blur => 11 | P_brightness => 12 | P_contrast => 13
  | P_hueRotate => 14 | P_saturate => 15 | P_scaleX => 16 | P_scaleY => 17
  end%nat.

Definition NumericProp_of_tag (n : nat) : NumericProp :=
  match n with
  | 0 => P_x | 1 => P_y | 2 => P_width | 3 => P_height | 4 => P_rotation
  | 5 => P_opacity | 6 => P_strokeWidth | 7 => P_borderRadius
  | 8 => P_fontSize | 9 => P_letterSpacing | 10 => P_lineHeight
  | 11 => P_blur | 12 => P_brightness | 13 => P_contrast
  | 14 => P_hueRotate | 15 => P_saturate | 16 => P_scaleX | _ => P_scaleY
  end%nat.

#[global] Instance NumericProp_countable : Countable NumericProp.
Proof.
  apply (inj_countable' NumericProp_tag NumericProp_of_tag).
  intros []; reflexivity.
Defined.

Definition ColorProp_tag (p : ColorProp) : nat :=
  match p with P_fill => 0 | P_strokeColor => 1 | P_color => 2 end%nat.

Definition ColorProp_of_tag (n : nat) : ColorProp :=
  match n with 0 => P_fill | 1 => P_strokeColor | _ => P_color end%nat.

#[global] Instance ColorProp_countable : Countable ColorProp.
Proof.
  apply (inj_countable' ColorProp_tag ColorProp_of_tag).
  intros []; reflexivity.
Defined.

(** [Partial<Record<KeyframeProperty, number|string>>]: the numbers stored
    under numeric keys and the strings stored under colour keys. *)
Record ElementState := mkState {
  nums : gmap NumericProp R;
  cols : gmap ColorProp string;
}.

Definition emptyState : ElementState := {| nums := ∅; cols := ∅ |}.

(** [Object.keys(s).length > 0] *)
Definition hasKeys (s : ElementState) : bool :=
  negb (bool_decide (nums s = ∅) && bool_decide (cols s = ∅)).

Record GlobalKeyframe := mkKeyframe {
  kf_id : string;
  kf_time : R;
  kf_easing : EasingType;
  kf_elementStates : gmap string ElementState;
}.

Record AnimationTimeline := mkTimeline {
  tl_duration : R;
  tl_loop : bool;
  tl_autoplay : bool;
  tl_speed : R;
  tl_keyframes : list GlobalKeyframe;
}.

(** The fields of [OverlayElement] that the engine and the gestures read. *)
Record ElementProps := mkProps {
  el_id : string;
  el_locked : bool;
  el_x : R;
  el_y : R;
  el_width : R;
  el_height : R;
  el_opacity : R;
  el_rotation : R;
  el_fill : option string;
  el_borderRadius : option R;
  el_strokeColor : option string;
  el_strokeWidth : option R;
  el_fontSize : option R;
  el_color : option string;
  el_lineHeight : option R;
  el_letterSpacing : option R;
  el_blur : option R;
  el_brightness : option R;
  el_contrast : option R;
  el_hueRotate : option R;
  el_saturate : option R;
  el_scaleX : option R;
  el_scaleY : option R;
}.

(** An element with its optional [children]. *)
#[warnings="-register-all"] Inductive OverlayElement :=
| Element (props : ElementProps) (children : option (list OverlayElement)).

Definition props_of (e : OverlayElement) : ElementProps :=
  match e with Element p _ => p end.

(** [(el as any)[prop]] *)
Definition el_num (el : ElementProps) (prop : NumericProp) : option R :=
  match prop with
  | P_x => Some (el_x el) | P_y => Some (el_y el)
  | P_width => Some (el_width el) | P_height => Some (el_height el)
  | P_rotation => Some (el_rotation el) | P_opacity => Some (el_opacity el)
  | P_strokeWidth => el_strokeWidth el | P_borderRadius => el_borderRadius el
  | P_fontSize => el_fontSize el | P_letterSpacing => el_letterSpacing el
  | P_lineHeight => el_lineHeight el | P_blur => el_blur el
  | P_brightness => el_brightness el | P_contrast => el_contrast el
  | P_hueRotate => el_hueRotate el | P_saturate => el_saturate el
  | P_scaleX => el_scaleX el | P_scaleY => el_scaleY el
  end.

Definition el_col (el : ElementProps) (prop : ColorProp) : option string :=
  match prop with
  | P_fill => el_fill el
  | P_strokeColor => el_strokeColor el
  | P_color => el_color el
  end.

(** [a ?? b] *)
Definition nullish {A} (a b : option A) : option A :=
  match a with Some _ => a | None => b end.

(* ===================================================================== *)
(** * Keyframe interpolation engine                                        *)
(* ===================================================================== *)

(** [[...keyframes].sort((a,b) => a.time - b.time)]: a stable sort by
    ascending time. *)
Fixpoint insertByTime (k : GlobalKeyframe) (l : list GlobalKeyframe)
  : list GlobalKeyframe :=
  match l with
  | [] => [k]
  | h :: tl =>
      if Rle_dec (kf_time k) (kf_time h) then k :: l
      else h :: insertByTime k tl
  end.

Definition sortByTime (l : list GlobalKeyframe) : list GlobalKeyframe :=
  foldr insertByTime [] l.

(** [kf.elementStates[elId] ?? {}] *)
Definition getState (elId : string) (kf : GlobalKeyframe) : ElementState :=
  default emptyState (kf_elementStates kf !! elId).

(** The scan for the bracketing pair: the first [i] with
    [sorted[i].time <= time <= sorted[i+1].time]. *)
Fixpoint findBracket (time : R) (sorted : list GlobalKeyframe)
  : option (GlobalKeyframe * GlobalKeyframe) :=
  match sorted with
  | a :: ((b :: _) as tl) =>
      if Rge_dec time (kf_time a) then
        if Rle_dec time (kf_time b) then Some (a, b)
        else findBracket time tl
      else findBracket time tl
  | _ => None
  end.

(** One turn of the loop over [allProps], for a numeric key. *)
Definition stepNumeric (el : ElementProps) (prevState nextState : gmap NumericProp R)
    (t : R) (prop : NumericProp) (result : gmap NumericProp R)
  : gmap NumericProp R :=
  let pv := prevState !! prop in
  let nv := nextState !! prop in
  match pv, nv with
  | None, None => result
  | _, _ =>
      let a := default 0 (nullish pv (el_num el prop)) in
      let b := default 0 (nullish nv (el_num el prop)) in
      <[prop := a + (b - a) * t]> result
  end.

(** One turn of the loop over [allProps], for a colour key. *)
Definition stepColor (el : ElementProps) (prevState nextState : gmap ColorProp string)
    (t : R) (prop : ColorProp) (result : gmap ColorProp string)
  : gmap ColorProp string :=
  let pv := prevState !! prop in
  let nv := nextState !! prop in
  match pv, nv with
  | None, None => result
  | _, _ =>
      let a := default "#000000"%string (nullish pv (el_col el prop)) in
      let b := default "#000000"%string (nullish nv (el_col el prop)) in
      <[prop := lerpColor a b t]> result
  end.

Definition interpolateStates (el : ElementProps) (prevState nextState : ElementState)
    (t : R) : ElementState :=
  {| nums := set_fold (stepNumeric el (nums prevState) (nums nextState) t) ∅
               (dom (nums prevState) ∪ dom (nums nextState));
     cols := set_fold (stepColor el (cols prevState) (cols nextState) t) ∅
               (dom (cols prevState) ∪ dom (cols nextState)) |}.

Definition interpolateElementFromGlobal (keyframes : list GlobalKeyframe)
    (elId : string) (el : ElementProps) (time : R) : ElementState :=
  match sortByTime keyframes with
  | [] => emptyState
  | first :: rest =>
      let sorted := first :: rest in
      let lastKf := default first (last sorted) in
      if Rle_dec time (kf_time first) then getState elId first
      else if Rge_dec time (kf_time lastKf) then getState elId lastKf
      else
        let '(prev, next) :=
          default (first, default first (sorted !! 1%nat)) (findBracket time sorted) in
        let prevState := getState elId prev in
        let nextState := getState elId next in
        let span := kf_time next - kf_time prev in
        let rawT :=
          if Rgt_dec span 0 then (time - kf_time prev) / span else 1 in
        let t := easingFn rawT (kf_easing prev) in
        interpolateStates el prevState nextState t
  end.

(** [defaultTimeline()] *)
Definition defaultTimeline : AnimationTimeline :=
  {| tl_duration := 5; tl_loop := false; tl_autoplay := false; tl_speed := 1;
     tl_keyframes := [] |}.

(** Ascending order of time. *)
Definition timeLe (a b : GlobalKeyframe) : Prop := kf_time a <= kf_time b.

(** What the loop over [allProps] leaves under a numeric key. *)
Definition numericEntry (el : ElementProps) (t : R)
    (prevState nextState : gmap NumericProp R)
    (prop : NumericProp) : option R :=
  match prevState !! prop, nextState !! prop with
  | None, None => None
  | pv, nv =>
      let a := default 0 (nullish pv (el_num el prop)) in
      let b := default 0 (nullish nv (el_num el prop)) in
      Some (a + (b - a) * t)
  end.

Definition colorEntry (el : ElementProps) (t : R)
    (prevState nextState : gmap ColorProp string)
    (prop : ColorProp) : option string :=
  match prevState !! prop, nextState !! prop with
  | None, None => None
  | pv, nv =>
      let a := default "#000000"%string (nullish pv (el_col el prop)) in
      let b := default "#000000"%string (nullish nv (el_col el prop)) in
      Some (lerpColor a b t)
  end.

(* ===================================================================== *)
(** * Scene snapshotting and keyframe insertion                            *)
(* ===================================================================== *)

(** [{ ...el, ...overrides }] on the fields that are read afterwards. *)
Definition applyOverrides (el : ElementProps) (ov : ElementState) : ElementProps :=
  let num p d := default d (nums ov !! p) in
  let numo p d := nullish (nums ov !! p) d in
  let colo c d := nullish (cols ov !! c) d in
  {| el_id := el_id el;
     el_locked := el_locked el;
     el_x := num P_x (el_x el);
     el_y := num P_y (el_y el);
     el_width := num P_width (el_width el);
     el_height := num P_height (el_height el);
     el_opacity := num P_opacity (el_opacity el);
     el_rotation := num P_rotation (el_rotation el);
     el_fill := colo P_fill (el_fill el);
     el_borderRadius := numo P_borderRadius (el_borderRadius el);
     el_strokeColor := colo P_strokeColor (el_strokeColor el);
     el_strokeWidth := numo P_strokeWidth (el_strokeWidth el);
     el_fontSize := numo P_fontSize (el_fontSize el);
     el_color := colo P_color (el_color el);
     el_lineHeight := numo P_lineHeight (el_lineHeight el);
     el_letterSpacing := numo P_letterSpacing (el_letterSpacing el);
     el_blur := numo P_blur (el_blur el);
     el_brightness := numo P_brightness (el_brightness el);
     el_contrast := numo P_contrast (el_contrast el);
     el_hueRotate := numo P_hueRotate (el_hueRotate el);
     el_saturate := numo P_saturate (el_saturate el);
     el_scaleX := numo P_scaleX (el_scaleX el);
     el_scaleY := numo P_scaleY (el_scaleY el) |}.

(** [...(v ? { k: v } : {})] for a number and for a string: the value when
    it is truthy. *)
Definition whenTruthyNum (v : option R) : option R :=
  match v with
  | Some r => if truthy_num r then Some r else None
  | None => None
  end.

Definition whenTruthyStr (v : option string) : option string :=
  match v with
  | Some s => if truthy_str s then Some s else None
  | None => None
  end.

(** Spreading an object that holds [k] when [v] is there and nothing
    otherwise. *)
Definition spreadOpt `{Countable K} {V} (k : K) (v : option V) (m : gmap K V)
  : gmap K V :=
  match v with Some x => <[k := x]> m | None => m end.

(** The object literal assigned to [states[el.id]]. *)
Definition snapshotState (stateEl : ElementProps) : ElementState :=
  {| nums :=
       spreadOpt P_fontSize (whenTruthyNum (el_fontSize stateEl)) $
       spreadOpt P_brightness (whenTruthyNum (el_brightness stateEl)) $
       spreadOpt P_blur (whenTruthyNum (el_blur stateEl)) $
       spreadOpt P_borderRadius (el_borderRadius stateEl) $
       <[P_scaleY := default 1 (el_scaleY stateEl)]> $
       <[P_scaleX := default 1 (el_scaleX stateEl)]> $
       <[P_opacity := el_opacity stateEl]> $
       <[P_rotation := el_rotation stateEl]> $
       <[P_height := el_height stateEl]> $
       <[P_width := el_width stateEl]> $
       <[P_y := el_y stateEl]> $
       <[P_x := el_x stateEl]> ∅;
     cols :=
       spreadOpt P_color (whenTruthyStr (el_color stateEl)) $
       spreadOpt P_strokeColor (whenTruthyStr (el_strokeColor stateEl)) $
       spreadOpt P_fill (whenTruthyStr (el_fill stateEl)) ∅ |}.

Section Snapshot.

(** The optional arguments [time?] and [keyframes?]. *)
Context (time : option R) (keyframes : option (list GlobalKeyframe)).

(** [stateEl]: the element with its interpolated overrides, if any. *)
Definition effectiveState (el : ElementProps) : ElementProps :=
  match time, keyframes with
  | Some time, Some ((_ :: _) as kfs) =>
      let overrides := interpolateElementFromGlobal kfs (el_id el) el time in
      if hasKeys overrides then applyOverrides el overrides else el
  | _, _ => el
  end.

(** The body of the loop of [flatten] for one element, children included. *)
Fixpoint flattenElement (e : OverlayElement) (states : gmap string ElementState)
  : gmap string ElementState :=
  match e with
  | Element el children =>
      let states := <[el_id el := snapshotState (effectiveState el)]> states in
      match children with
      | Some cs => foldl (fun st c => flattenElement c st) states cs
      | None => states
      end
  end.

Definition flatten (els : list OverlayElement) (states : gmap string ElementState)
  : gmap string ElementState :=
  foldl (fun st e => flattenElement e st) states els.

Definition snapshotAllElements (elements : list OverlayElement)
  : gmap string ElementState :=
  flatten elements ∅.

End Snapshot.

#[global] Instance Rgt_decision (a b : R) : Decision (a > b) := Rgt_dec a b.
#[global] Instance Rle_decision (a b : R) : Decision (a <= b) := Rle_dec a b.

(** The state [addGlobalKeyframe] reads and writes: the elements of the
    active widget, its timeline and the selected keyframe. *)
Record Designer := mkDesigner {
  activeElements : list OverlayElement;
  timeline : AnimationTimeline;
  selectedKeyframeId : option string;
}.

(** [setTimelineProp({ keyframes })] *)
Definition setKeyframes (tl : AnimationTimeline) (kfs : list GlobalKeyframe)
  : AnimationTimeline :=
  {| tl_duration := tl_duration tl; tl_loop := tl_loop tl;
     tl_autoplay := tl_autoplay tl; tl_speed := tl_speed tl;
     tl_keyframes := kfs |}.

(** The keyframe built by [addGlobalKeyframe]; [uuid] is the value of
    [uuidv4()]. *)
Definition newKeyframe (uuid : string) (time : R) (st : Designer) : GlobalKeyframe :=
  {| kf_id := uuid;
     kf_time := Math_round (time * 100) / 100;
     kf_easing := linear;
     kf_elementStates :=
       snapshotAllElements (Some time) (Some (tl_keyframes (timeline st)))
         (activeElements st) |}.

Definition addGlobalKeyframe (uuid : string) (time : R) (st : Designer) : Designer :=
  let kf := newKeyframe uuid time st in
  let existing := tl_keyframes (timeline st) in
  let filtered := filter (fun k => Math_abs (kf_time k - time) > 0.01) existing in
  {| activeElements := activeElements st;
     timeline := setKeyframes (timeline st) (filtered ++ [kf]);
     selectedKeyframeId := Some (kf_id kf) |}.

(** The comparison of the filter of [addGlobalKeyframe], and its negation. *)
Definition far (time : R) (k : GlobalKeyframe) : Prop :=
  Math_abs (kf_time k - time) > 0.01.
Definition near (time : R) (k : GlobalKeyframe) : Prop :=
  Math_abs (kf_time k - time) <= 0.01.

#[global] Instance far_decision time k : Decision (far time k) := Rgt_dec _ _.
#[global] Instance near_decision time k : Decision (near time k) := Rle_dec _ _.

(** The elements of a subtree, parent first, in the order [flatten] visits
    them. *)
Fixpoint subelements (e : OverlayElement) : list ElementProps :=
  match e with
  | Element el children =>
      el :: match children with
            | Some cs => flat_map subelements cs
            | None => []
            end
  end.

Definition allElements (els : list OverlayElement) : list ElementProps :=
  flat_map subelements els.

(** [states[el.id] = { ... }] *)
Definition record (time : option R) (keyframes : option (list GlobalKeyframe))
    (st : gmap string ElementState) (el : ElementProps)
  : gmap string ElementState :=
  <[el_id el := snapshotState (effectiveState time keyframes el)]> st.

(** What [snapshotAllElements] writes for an element whose effective state
    is [stateEl]. *)
Definition snapshotMatches (s : ElementState) (stateEl : ElementProps) : Prop :=
  (* always recorded *)
  nums s !! P_x = Some (el_x stateEl) /\
  nums s !! P_y = Some (el_y stateEl) /\
  nums s !! P_width = Some (el_width stateEl) /\
  nums s !! P_height = Some (el_height stateEl) /\
  nums s !! P_rotation = Some (el_rotation stateEl) /\
  nums s !! P_opacity = Some (el_opacity stateEl) /\
  nums s !! P_scaleX = Some (default 1 (el_scaleX stateEl)) /\
  nums s !! P_scaleY = Some (default 1 (el_scaleY stateEl)) /\
  (* recorded exactly when truthy *)
  (forall v, cols s !! P_fill = Some v <->
             el_fill stateEl = Some v /\ v <> ""%string) /\
  (forall v, cols s !! P_strokeColor = Some v <->
             el_strokeColor stateEl = Some v /\ v <> ""%string) /\
  (forall v, cols s !! P_color = Some v <->
             el_color stateEl = Some v /\ v <> ""%string) /\
  (forall v, nums s !! P_blur = Some v <-> el_blur stateEl = Some v /\ v <> 0) /\
  (forall v, nums s !! P_brightness = Some v <->
             el_brightness stateEl = Some v /\ v <> 0) /\
  (forall v, nums s !! P_fontSize = Some v <->
             el_fontSize stateEl = Some v /\ v <> 0) /\
  (* hence left out at zero and at the empty string *)
  (el_blur stateEl = Some 0 -> nums s !! P_blur = None) /\
  (el_brightness stateEl = Some 0 -> nums s !! P_brightness = None) /\
  (el_fontSize stateEl = Some 0 -> nums s !! P_fontSize = None) /\
  (el_color stateEl = Some ""%string -> cols s !! P_color = None).

(* ===================================================================== *)
(** * TransformBox: move and resize gestures                               *)
(* ===================================================================== *)

Record PointerEvent := mkPointer { clientX : R; clientY : R }.

(** The argument of [onUpdate] in the move gesture, [{ x, y }]. *)
Record MoveUpdate := mkMove { move_x : R; move_y : R }.

(** The argument of [onUpdate] in the resize gesture,
    [{ width, height, x, y }]. *)
Record ResizeUpdate := mkResize {
  resize_width : R; resize_height : R; resize_x : R; resize_y : R }.

Section TransformBox.

(** The props of the component. *)
Context (el : ElementProps) (isDrawing : bool)
        (scale containerW containerH : R).

(** [onMove] of [handleDragDown]. *)
Definition dragOnMove (startX startY startElX startElY : R)
    (ev : PointerEvent) : MoveUpdate :=
  let dx := (clientX ev - startX) / scale in
  let dy := (clientY ev - startY) / scale in
  let nx := startElX + dx in
  let ny := startElY + dy in
  let cx := nx + el_width el / 2 in
  let cy := ny + el_height el / 2 in
  let nx := if Rlt_dec cx 0 then - el_width el / 2 else nx in
  let nx := if Rgt_dec cx containerW then containerW - el_width el / 2 else nx in
  let ny := if Rlt_dec cy 0 then - el_height el / 2 else ny in
  let ny := if Rgt_dec cy containerH then containerH - el_height el / 2 else ny in
  {| move_x := nx; move_y := ny |}.

(** [handleDragDown]: nothing is registered for a locked element or while
    drawing; otherwise the listener [onMove] is. *)
Definition handleDragDown (e : PointerEvent)
  : option (PointerEvent -> MoveUpdate) :=
  if el_locked el || isDrawing then None
  else Some (dragOnMove (clientX e) (clientY e) (el_x el) (el_y el)).

(** The geometry [onMove] of [handleResizeDown] computes before rounding:
    [(newW, newH, nx, ny)]. *)
Definition resizeGeometry (dir : string)
    (startX startY startW startH rad initialCx initialCy : R)
    (ev : PointerEvent) : R * R * R * R :=
  let dx := (clientX ev - startX) / scale in
  let dy := (clientY ev - startY) / scale in
  let dx_local := dx * Math_cos (- rad) - dy * Math_sin (- rad) in
  let dy_local := dx * Math_sin (- rad) + dy * Math_cos (- rad) in
  let dw := 0 in
  let dh := 0 in
  let dw := if includes dir "e" then dx_local else dw in
  let dw := if includes dir "w" then - dx_local else dw in
  let dh := if includes dir "s" then dy_local else dh in
  let dh := if includes dir "n" then - dy_local else dh in
  let newW := Math_max 4 (startW + dw) in
  let newH := Math_max 4 (startH + dh) in
  let actual_dw := newW - startW in
  let actual_dh := newH - startH in
  let dcx_local := 0 in
  let dcy_local := 0 in
  let dcx_local := if includes dir "e" then actual_dw / 2 else dcx_local in
  let dcx_local := if includes dir "w" then - actual_dw / 2 else dcx_local in
  let dcy_local := if includes dir "s" then actual_dh / 2 else dcy_local in
  let dcy_local := if includes dir "n" then - actual_dh / 2 else dcy_local in
  let dcx := dcx_local * Math_cos rad - dcy_local * Math_sin rad in
  let dcy := dcx_local * Math_sin rad + dcy_local * Math_cos rad in
  let nx := initialCx + dcx - newW / 2 in
  let ny := initialCy + dcy - newH / 2 in
  let cx := nx + newW / 2 in
  let cy := ny + newH / 2 in
  let nx := if Rlt_dec cx 0 then - newW / 2 else nx in
  let nx := if Rgt_dec cx containerW then containerW - newW / 2 else nx in
  let ny := if Rlt_dec cy 0 then - newH / 2 else ny in
  let ny := if Rgt_dec cy containerH then containerH - newH / 2 else ny in
  (newW, newH, nx, ny).

(** [onMove] of [handleResizeDown]: the geometry, rounded. *)
Definition resizeOnMove (dir : string)
    (startX startY startW startH rad initialCx initialCy : R)
    (ev : PointerEvent) : ResizeUpdate :=
  let '(newW, newH, nx, ny) :=
    resizeGeometry dir startX startY startW startH rad initialCx initialCy ev in
  {| resize_width := Math_round newW; resize_height := Math_round newH;
     resize_x := Math_round nx; resize_y := Math_round ny |}.

(** The values [handleResizeDown] captures at pointer-down. *)
Definition startW : R := Math_max 0 (el_width el).
Definition startH : R := Math_max 0 (el_height el).
Definition rad : R := el_rotation el * Math_PI / 180.
Definition initialCx : R := el_x el + startW / 2.
Definition initialCy : R := el_y el + startH / 2.

Definition handleResizeDown (e : PointerEvent) (dir : string)
  : option (PointerEvent -> ResizeUpdate) :=
  if el_locked el || isDrawing then None
  else Some (resizeOnMove dir (clientX e) (clientY e) startW startH rad
               initialCx initialCy).

(** The unrounded geometry of the same gesture. *)
Definition resizeUnrounded (e : PointerEvent) (dir : string)
    (ev : PointerEvent) : R * R * R * R :=
  resizeGeometry dir (clientX e) (clientY e) startW startH rad
    initialCx initialCy ev.

End TransformBox.

(* ===================================================================== *)
(** * Inputs of the scenarios *)
(* ===================================================================== *)

Definition opacityHalf : ElementState :=
  {| nums := {[ P_opacity := 0.5 ]}; cols := ∅ |}.

Definition scenarioC (elId : string) : list GlobalKeyframe :=
  [ mkKeyframe "k3" 3 linear {[ elId := opacityHalf ]} ].

(** Two keyframes that share one time and hold different snapshots. *)
Definition tiedKeyframes : list GlobalKeyframe :=
  [ mkKeyframe "a" 1 linear {[ "el"%string := mkState {[ P_x := 0 ]} ∅ ]};
    mkKeyframe "b" 1 linear {[ "el"%string := mkState {[ P_x := 100 ]} ∅ ]} ].

Definition plainElement : ElementProps :=
  {| el_id := "el"; el_locked := false;
     el_x := 0; el_y := 0; el_width := 100; el_height := 100;
     el_opacity := 1; el_rotation := 0;
     el_fill := None; el_borderRadius := None; el_strokeColor := None;
     el_strokeWidth := None; el_fontSize := None; el_color := None;
     el_lineHeight := None; el_letterSpacing := None; el_blur := None;
     el_brightness := None; el_contrast := None; el_hueRotate := None;
     el_saturate := None; el_scaleX := None; el_scaleY := None |}.

Definition xOnly (v : R) : ElementState := {| nums := {[ P_x := v ]}; cols := ∅ |}.

(** A keyframe at [t = 0] with [{x: 0}] and easing [e0], and a keyframe at
    [t = 2] with [{x: 100}] and easing [e2]. *)
Definition scenarioAB (elId : string) (e0 e2 : EasingType) : list GlobalKeyframe :=
  [ mkKeyframe "k0" 0 e0 {[ elId := xOnly 0 ]};
    mkKeyframe "k2" 2 e2 {[ elId := xOnly 100 ]} ].

(** An element without blur, a keyframe at [t = 0] holding [{blur: 10}] and
    a keyframe at [t = 2] holding nothing for the element. *)
Definition blurOnly : ElementState := {| nums := {[ P_blur := 10 ]}; cols := ∅ |}.

Definition blurKeyframes : list GlobalKeyframe :=
  [ mkKeyframe "k0" 0 linear {[ "el"%string := blurOnly ]};
    mkKeyframe "k2" 2 linear {[ "el"%string := emptyState ]} ].

(** A small tree: a group with one child whose blur is 0. *)
Definition childElement : ElementProps :=
  {| el_id := "child"; el_locked := false;
     el_x := 5; el_y := 6; el_width := 10; el_height := 20;
     el_opacity := 1; el_rotation := 0;
     el_fill := Some "#ff0000"%string; el_borderRadius := None;
     el_strokeColor := None; el_strokeWidth := None; el_fontSize := None;
     el_color := Some ""%string; el_lineHeight := None; el_letterSpacing := None;
     el_blur := Some 0; el_brightness := None; el_contrast := None;
     el_hueRotate := None; el_saturate := None; el_scaleX := None;
     el_scaleY := None |}.

Definition smallTree : list OverlayElement :=
  [ Element plainElement (Some [ Element childElement None ]) ].

(** A 4 by 4 element whose centre sits on the right edge of a 100 by 100
    container. *)
Definition edgeElement : ElementProps :=
  {| el_id := "edge"; el_locked := false;
     el_x := 98; el_y := 48; el_width := 4; el_height := 4;
     el_opacity := 1; el_rotation := 0;
     el_fill := None; el_borderRadius := None; el_strokeColor := None;
     el_strokeWidth := None; el_fontSize := None; el_color := None;
     el_lineHeight := None; el_letterSpacing := None; el_blur := None;
     el_brightness := None; el_contrast := None; el_hueRotate := None;
     el_saturate := None; el_scaleX := None; el_scaleY := None |}.

Definition rotatedElement : ElementProps :=
  {| el_id := "rot"; el_locked := false;
     el_x := 100; el_y := 100; el_width := 50; el_height := 50;
     el_opacity := 1; el_rotation := 90;
     el_fill := None; el_borderRadius := None; el_strokeColor := None;
     el_strokeWidth := None; el_fontSize := None; el_color := None;
     el_lineHeight := None; el_letterSpacing := None; el_blur := None;
     el_brightness := None; el_contrast := None; el_hueRotate := None;
     el_saturate := None; el_scaleX := None; el_scaleY := None |}.

(* ===================================================================== *)
(** * Colour picker: HSV conversion and [rgbToHex]                         *)
(* ===================================================================== *)

Definition Math_min (a b : R) : R := if Rle_dec a b then a else b.

(** Rounding towards zero, and [a % b] on numbers: the remainder takes the
    sign of the dividend. *)
Definition trunc_Z (x : R) : Z := if Rle_dec 0 x then Zfloor x else Zceil x.
Definition js_rem (a b : R) : R := a - b * IZR (trunc_Z (a / b)).

Record HSV := mkHSV { hsv_h : R; hsv_s : R; hsv_v : R }.

(** The inner function [f] of [hsvToRgb], with its default argument
    [k = (n + h / 60) % 6]. *)
Definition hsvToRgb_f (c : HSV) (n : R) : R :=
  let k := js_rem (n + hsv_h c / 60) 6 in
  hsv_v c - hsv_v c * hsv_s c * Math_max 0 (Math_min (Math_min k (4 - k)) 1).

Definition hsvToRgb (c : HSV) : RGB :=
  {| rgb_r := round_Z (hsvToRgb_f c 5 * 255);
     rgb_g := round_Z (hsvToRgb_f c 3 * 255);
     rgb_b := round_Z (hsvToRgb_f c 1 * 255) |}.

Definition rgbToHsv (c : RGB) : HSV :=
  let r := IZR (rgb_r c) / 255 in
  let g := IZR (rgb_g c) / 255 in
  let b := IZR (rgb_b c) / 255 in
  let max := Math_max (Math_max r g) b in
  let min := Math_min (Math_min r g) b in
  let d := max - min in
  let h :=
    if Req_dec_T d 0 then 0
    else
      let h :=
        if Req_dec_T max r then js_rem ((g - b) / d) 6
        else if Req_dec_T max g then (b - r) / d + 2
        else (r - g) / d + 4 in
      let h := Math_round (h * 60) in
      if Rlt_dec h 0 then h + 360 else h in
  let s := if Req_dec_T max 0 then 0 else d / max in
  {| hsv_h := h; hsv_s := s; hsv_v := max |}.

(** [v.toString(16).padStart(2, '0')] for one channel. *)
Definition channelHex (v : Z) : string := padStart (toString16 v) 2 "0".

Definition rgbToHex (c : RGB) : string :=
  String "#" (channelHex (rgb_r c) ++ channelHex (rgb_g c)
              ++ channelHex (rgb_b c))%string.

(** Lower-case hexadecimal digits, the ones [toString(16)] writes. *)
Definition is_lower_hex (c : ascii) : bool :=
  let n := nat_of_ascii c in
  ((48 <=? n) && (n <=? 57) || (97 <=? n) && (n <=? 102))%nat.

(** The sixteen digits written by [toString(16)]. *)
Definition lowerHexDigits : list ascii :=
  ["0"; "1"; "2"; "3"; "4"; "5"; "6"; "7"; "8"; "9";
   "a"; "b"; "c"; "d"; "e"; "f"]%char.

(** One channel from 0 to 255 is written as two lower-case digits that
    spell it. *)
Definition channelSpelled (n : nat) : bool :=
  match channelHex (Z.of_nat n) with
  | String c1 (String c2 EmptyString) =>
      is_lower_hex c1 && is_lower_hex c2
      && (16 * hexval c1 + hexval c2 =? Z.of_nat n)%Z
  | _ => false
  end.

(** A colour with its three channels between 0 and 255. *)
Definition validRGB (c : RGB) : Prop :=
  (0 <= rgb_r c <= 255)%Z /\ (0 <= rgb_g c <= 255)%Z /\ (0 <= rgb_b c <= 255)%Z.

(** [#] followed by six lower-case hexadecimal digits. *)
Definition canonicalHex (s : string) : Prop :=
  exists c1 c2 c3 c4 c5 c6,
    s = String "#" (String c1 (String c2 (String c3 (String c4
          (String c5 (String c6 "")))))) /\
    is_lower_hex c1 = true /\ is_lower_hex c2 = true /\
    is_lower_hex c3 = true /\ is_lower_hex c4 = true /\
    is_lower_hex c5 = true /\ is_lower_hex c6 = true.

(** [#] followed by six hexadecimal digits of either case. *)
Definition hexColour (s : string) : Prop :=
  exists c1 c2 c3 c4 c5 c6,
    s = String "#" (String c1 (String c2 (String c3 (String c4
          (String c5 (String c6 "")))))) /\
    is_hex_digit c1 = true /\ is_hex_digit c2 = true /\
    is_hex_digit c3 = true /\ is_hex_digit c4 = true /\
    is_hex_digit c5 = true /\ is_hex_digit c6 = true.

(** [Math.round(a + (b - a) * t)], the blend of one channel in [lerpColor],
    and the three channels together. *)
Definition blendChannel (a b : Z) (t : R) : Z :=
  round_Z (IZR a + (IZR b - IZR a) * t).

Definition blendRGB (ca cb : RGB) (t : R) : RGB :=
  {| rgb_r := blendChannel (rgb_r ca) (rgb_r cb) t;
     rgb_g := blendChannel (rgb_g ca) (rgb_g cb) t;
     rgb_b := blendChannel (rgb_b ca) (rgb_b cb) t |}.

(** A string without any decimal digit, on which [/\d+/g] finds nothing. *)
Fixpoint no_dec_digit (s : string) : bool :=
  match s with
  | EmptyString => true
  | String c r => negb (is_dec_digit c) && no_dec_digit r
  end.

(** [c.startsWith('#')] *)
Definition startsWithHash (s : string) : bool :=
  match s with String c _ => Ascii.eqb c "#" | EmptyString => false end.




(** Saturation and value in the unit interval. *)
Definition validSV (c : HSV) : Prop :=
  0 <= hsv_s c <= 1 /\ 0 <= hsv_v c <= 1.

(* ===================================================================== *)
(** * Designer: the element tree                                           *)
(* ===================================================================== *)

(** The argument [up] of [patchElements]: new values for animatable
    properties and, possibly, a new list of children. *)
Record Patch := mkPatch {
  patch_state : ElementState;
  patch_children : option (list OverlayElement);
}.

(** [{ ...el, ...up }] *)
Definition spreadPatch (e : OverlayElement) (up : Patch) : OverlayElement :=
  match e with
  | Element el children =>
      Element (applyOverrides el (patch_state up))
        (match patch_children up with Some cs => Some cs | None => children end)
  end.

(** The function mapped by [patchElements]. *)
Fixpoint patchElement (id : string) (up : Patch) (e : OverlayElement)
  : OverlayElement :=
  match e with
  | Element el children =>
      if decide (el_id el = id) then spreadPatch e up
      else match children with
           | Some cs => Element el (Some (map (patchElement id up) cs))
           | None => e
           end
  end.

Definition patchElements (elements : list OverlayElement) (id : string)
    (up : Patch) : list OverlayElement :=
  map (patchElement id up) elements.

(** [removeFromElements]: the elements named [id] are filtered out, then the
    children of those that stay are treated in the same way. *)
Fixpoint removeFromElement (id : string) (e : OverlayElement) : OverlayElement :=
  match e with
  | Element el children =>
      Element el
        (match children with
         | Some cs =>
             Some ((fix go (cs : list OverlayElement) : list OverlayElement :=
                      match cs with
                      | [] => []
                      | c :: cs' =>
                          if decide (el_id (props_of c) <> id)
                          then removeFromElement id c :: go cs'
                          else go cs'
                      end) cs)
         | None => None
         end)
  end.

Definition removeFromElements (elements : list OverlayElement) (id : string)
  : list OverlayElement :=
  map (removeFromElement id)
    (filter (fun e => el_id (props_of e) <> id) elements).

(** [findElement], for one element of the loop and for the list. *)
Fixpoint findElementIn (id : string) (e : OverlayElement) : option OverlayElement :=
  match e with
  | Element el children =>
      if decide (el_id el = id) then Some e
      else match children with
           | Some cs =>
               (fix go (cs : list OverlayElement) : option OverlayElement :=
                  match cs with
                  | [] => None
                  | c :: cs' =>
                      match findElementIn id c with
                      | Some f => Some f
                      | None => go cs'
                      end
                  end) cs
           | None => None
           end
  end.

Fixpoint findElement (elements : list OverlayElement) (id : string)
  : option OverlayElement :=
  match elements with
  | [] => None
  | e :: rest =>
      match findElementIn id e with
      | Some f => Some f
      | None => findElement rest id
      end
  end.

(** [el.id === id] *)
Definition hasId (id : string) (e : OverlayElement) : bool :=
  bool_decide (el_id (props_of e) = id).

Definition childrenOf (e : OverlayElement) : option (list OverlayElement) :=
  match e with Element _ children => children end.

(** [addEl] on the elements of the active widget; [groupId] is optional and
    tested by [if (groupId)].  The patch is
    [{ children: [...(findElement(...)?.children ?? []), el] }].  The
    stacking index written into [el] and the selection of the new element
    concern fields that are not part of [ElementProps]. *)
Definition addEl (el : OverlayElement) (groupId : option string)
    (elements : list OverlayElement) : list OverlayElement :=
  match groupId with
  | Some (String _ _ as g) =>
      patchElements elements g
        (mkPatch emptyState
           (Some (default [] (findElement elements g ≫= childrenOf) ++ [el])))
  | _ => elements ++ [el]
  end.

(** [flattenElements]: [els.flatMap(e => e.children ? [e, ...] : [e])]. *)
Fixpoint flattenElement1 (e : OverlayElement) : list OverlayElement :=
  match e with
  | Element _ children =>
      e :: match children with
           | Some cs => flat_map flattenElement1 cs
           | None => []
           end
  end.

Definition flattenElements (els : list OverlayElement) : list OverlayElement :=
  flat_map flattenElement1 els.

(** The identifiers of a tree, parent first. *)
Definition elementIds (els : list OverlayElement) : list string :=
  (fun e => el_id (props_of e)) <$> flattenElements els.

(* ===================================================================== *)
(** * Designer: editing elements and keyframes                             *)
(* ===================================================================== *)

(** [{ ...old, ...up }] on snapshots. *)
Definition mergeState (old up : ElementState) : ElementState :=
  {| nums := nums up ∪ nums old; cols := cols up ∪ cols old |}.

(** The function mapped over the keyframes by [updateEl]: in the keyframe
    named [sel],
    [elementStates: { ...kf.elementStates,
                      [id]: { ...(kf.elementStates[id] || {}), ...up } }]. *)
Definition patchKeyframe (sel id : string) (up : ElementState)
    (kf : GlobalKeyframe) : GlobalKeyframe :=
  if decide (kf_id kf = sel) then
    {| kf_id := kf_id kf; kf_time := kf_time kf; kf_easing := kf_easing kf;
       kf_elementStates :=
         <[id := mergeState (getState id kf) up]>
           (kf_elementStates kf) |}
  else kf.

(** [updateEl(id, up)] on the active widget, for a patch [up] of animatable
    properties: with a keyframe selected ([if (selectedKeyframeId)], a
    string that is neither [null] nor empty) the patch goes to the snapshot
    of that keyframe, otherwise to the element. *)
Definition updateEl (id : string) (up : ElementState) (st : Designer) : Designer :=
  match selectedKeyframeId st with
  | Some (String _ _ as sel) =>
      {| activeElements := activeElements st;
         timeline := setKeyframes (timeline st)
                       (map (patchKeyframe sel id up) (tl_keyframes (timeline st)));
         selectedKeyframeId := selectedKeyframeId st |}
  | _ =>
      {| activeElements := patchElements (activeElements st) id (mkPatch up None);
         timeline := timeline st;
         selectedKeyframeId := selectedKeyframeId st |}
  end.

(** [deleteGlobalKeyframe]: the keyframes named [kfId] are filtered out,
    and the selection is cleared when it is [kfId]. *)
Definition deleteGlobalKeyframe (kfId : string) (st : Designer) : Designer :=
  {| activeElements := activeElements st;
     timeline := setKeyframes (timeline st)
                   (filter (fun k => kf_id k <> kfId) (tl_keyframes (timeline st)));
     selectedKeyframeId :=
       if decide (selectedKeyframeId st = Some kfId) then None
       else selectedKeyframeId st |}.

Definition updateGlobalKeyframeEasing (kfId : string) (easing : EasingType)
    (st : Designer) : Designer :=
  {| activeElements := activeElements st;
     timeline := setKeyframes (timeline st)
       (map (fun k => if decide (kf_id k = kfId)
                      then mkKeyframe (kf_id k) (kf_time k) easing (kf_elementStates k)
                      else k)
            (tl_keyframes (timeline st)));
     selectedKeyframeId := selectedKeyframeId st |}.

Definition updateGlobalKeyframeTime (kfId : string) (newTime : R)
    (st : Designer) : Designer :=
  {| activeElements := activeElements st;
     timeline := setKeyframes (timeline st)
       (map (fun k => if decide (kf_id k = kfId)
                      then mkKeyframe (kf_id k)
                             (Math_max 0 (Math_min (tl_duration (timeline st)) newTime))
                             (kf_easing k) (kf_elementStates k)
                      else k)
            (tl_keyframes (timeline st)));
     selectedKeyframeId := selectedKeyframeId st |}.

(** [sorted.findIndex(k => k.id === id)] together with the element before
    the one found: [None] when nothing is found, [Some None] when the first
    element is. *)
Fixpoint findWithPrevious (id : string) (before : option GlobalKeyframe)
    (sorted : list GlobalKeyframe) : option (option GlobalKeyframe) :=
  match sorted with
  | [] => None
  | k :: rest =>
      if decide (kf_id k = id) then Some before
      else findWithPrevious id (Some k) rest
  end.

Definition getPreviousKeyframeTime (st : Designer) : option R :=
  match selectedKeyframeId st with
  | Some (String _ _ as sel) =>
      match findWithPrevious sel None (sortByTime (tl_keyframes (timeline st))) with
      | Some (Some k) => Some (kf_time k)
      | _ => None
      end
  | _ => None
  end.

#[global] Instance EasingType_eq_dec : EqDecision EasingType.
Proof. solve_decision. Defined.

(** The selection, when there is one, names a keyframe of the timeline. *)
Definition selectionValid (st : Designer) : Prop :=
  forall sel, selectedKeyframeId st = Some sel ->
              sel ∈ kf_id <$> tl_keyframes (timeline st).

(** What [updateEl] leaves of a keyframe [k] in [k'] when the keyframe
    named [sel] is selected: identifier, time and easing are kept, and so
    are the snapshots of the other elements; a keyframe with another
    identifier is untouched; in the selected one, each key of the patch
    replaces the key of the snapshot of [id] and the other keys stay. *)
Definition editedKeyframe (sel id : string) (up : ElementState)
    (k k' : GlobalKeyframe) : Prop :=
  kf_id k' = kf_id k /\ kf_time k' = kf_time k /\ kf_easing k' = kf_easing k /\
  (forall other, other <> id ->
     kf_elementStates k' !! other = kf_elementStates k !! other) /\
  (kf_id k <> sel -> k' = k) /\
  (kf_id k = sel ->
     (forall p, nums (getState id k') !! p
                = nullish (nums up !! p) (nums (getState id k) !! p)) /\
     (forall c, cols (getState id k') !! c
                = nullish (cols up !! c) (cols (getState id k) !! c))).

(** What [updateGlobalKeyframeTime] leaves of a keyframe [k] in [k']:
    identifier, easing and snapshots are kept; a keyframe with another
    identifier is untouched; the one named [kfId] gets the new time, brought
    back into [[0, duration]]. *)
Definition movedKeyframe (kfId : string) (duration newTime : R)
    (k k' : GlobalKeyframe) : Prop :=
  kf_id k' = kf_id k /\ kf_easing k' = kf_easing k /\
  kf_elementStates k' = kf_elementStates k /\
  (kf_id k <> kfId -> k' = k) /\
  (kf_id k = kfId ->
     0 <= kf_time k' <= duration /\
     (0 <= newTime <= duration -> kf_time k' = newTime) /\
     (newTime < 0 -> kf_time k' = 0) /\
     (duration < newTime -> kf_time k' = duration)).

(* ===================================================================== *)
(** * Designer: the playback clock                                         *)
(* ===================================================================== *)

(** What one call of [tick] does: the time it sets, whether it stops the
    playback, and whether it asks for another frame. *)
Record Tick := mkTick {
  tick_time : R;
  tick_stops : bool;
  tick_again : bool;
}.

(** [tick], at the instant [now] (milliseconds), for a playback started at
    the instant [playStart] from the time [playTimeOffset]. *)
Definition tick (tl : AnimationTimeline) (playStart playTimeOffset now : R) : Tick :=
  let elapsed := (now - playStart) / 1000 * tl_speed tl in
  let t := playTimeOffset + elapsed in
  let '(t, stops) :=
    if Rge_dec t (tl_duration tl) then
      if tl_loop tl then (js_rem t (tl_duration tl), false)
      else (tl_duration tl, true)
    else (t, false) in
  {| tick_time := t; tick_stops := stops;
     tick_again := if Rlt_dec t (tl_duration tl) then true else tl_loop tl |}.

(* ===================================================================== *)
(** * TransformBox: the anchor of a resize                                 *)
(* ===================================================================== *)

(** The side of the box that a resize leaves in place, as a sign along one
    local axis: [1] when the handle name holds [plus], [-1] when it holds
    [minus], [0] for the middle.  The tests on the handle name are made in
    the order of the code, the later one winning. *)
Definition anchorSign (dir : string) (plus minus : ascii) : R :=
  if includes dir plus then 1 else if includes dir minus then -1 else 0.

(** The point of a box [(width, height, x, y)] rotated by [rad] about its
    centre that lies opposite the handle [dir], in the coordinates of the
    container: the east side for a handle on the west, the south side for a
    handle on the north, and so on. *)
Definition anchor (dir : string) (rad : R) (g : R * R * R * R) : R * R :=
  let '(w, h, x, y) := g in
  let ax := anchorSign dir "w" "e" * w / 2 in
  let ay := anchorSign dir "n" "s" * h / 2 in
  (x + w / 2 + (ax * Math_cos rad - ay * Math_sin rad),
   y + h / 2 + (ax * Math_sin rad + ay * Math_cos rad)).

(** The centre of the box lies strictly inside the container. *)
Definition centreInside (containerW containerH : R) (g : R * R * R * R) : Prop :=
  let '(w, h, x, y) := g in
  0 < x + w / 2 < containerW /\ 0 < y + h / 2 < containerH.

(* ##################################################################### *)
(** * Part II: properties *)
(* ##################################################################### *)

(** Case analysis on the comparisons of reals appearing in the goal. *)
Ltac rcases :=
  repeat match goal with
    | |- context [Rle_dec ?a ?b] => destruct (Rle_dec a b); try lra
    | |- context [Rlt_dec ?a ?b] => destruct (Rlt_dec a b); try lra
    | |- context [Rge_dec ?a ?b] => destruct (Rge_dec a b); try lra
    | |- context [Rgt_dec ?a ?b] => destruct (Rgt_dec a b); try lra
    | |- context [Req_dec_T ?a ?b] => destruct (Req_dec_T a b); try lra
    end.

(** Rewriting the sines and cosines of the gesture at rotation 0. *)
Ltac trig_at_0 :=
  unfold rad; simpl el_rotation;
  replace (0 * Math_PI / 180) with 0 by lra;
  unfold Math_cos, Math_sin; rewrite ?Ropp_0, ?cos_0, ?sin_0.

(** Rewriting them at rotation 90. *)
Ltac trig_at_90 :=
  unfold rad; simpl el_rotation;
  replace (90 * Math_PI / 180) with (PI / 2) by (unfold Math_PI; lra);
  unfold Math_cos, Math_sin;
  rewrite ?cos_neg, ?sin_neg, ?cos_PI2, ?sin_PI2.

(* ===================================================================== *)
(** * Colour utilities: [hexToRgb] *)
(* ===================================================================== *)

Example hexToRgb_six : hexToRgb "#1a2b3c" = mkRGB 26 43 60.
Proof. vm_compute. reflexivity. Qed.
Example hexToRgb_three : hexToRgb "#abc" = mkRGB 170 187 204.
Proof. vm_compute. reflexivity. Qed.
Example hexToRgb_bad : hexToRgb "12zz" = mkRGB 0 0 18.
Proof. vm_compute. reflexivity. Qed.
Example hexToRgb_neg : hexToRgb "-1" = mkRGB 255 0 0.
Proof. vm_compute. reflexivity. Qed.

Lemma hex_digit_facts c :
  is_hex_digit c = true ->
  is_white c = false /\ Ascii.eqb c "#" = false /\
  Ascii.eqb c "-" = false /\ Ascii.eqb c "+" = false /\
  Ascii.eqb c "x" = false /\ Ascii.eqb c "X" = false /\
  ascii_to_digit c = Some (Z.to_N (hexval c)) /\ (0 <= hexval c < 16)%Z.
Proof.
  destruct c as [[] [] [] [] [] [] [] []]; vm_compute; intros H;
    try discriminate H; repeat split; try discriminate; reflexivity.
Qed.

Lemma non_digit_parse c r :
  is_hex_digit c = false -> is_white c = false ->
  c <> "-"%char -> c <> "+"%char ->
  parseInt16 (String c r) = None.
Proof.
  intros Hh Hw Hm Hp. apply Ascii.eqb_neq in Hm, Hp.
  unfold parseInt16. cbn [skip_white]. rewrite Hw.
  unfold split_sign. rewrite Hm, Hp.
  assert (Hz : Ascii.eqb c "0" = false).
  { apply Ascii.eqb_neq. intros ->. discriminate Hh. }
  assert (Hs : strip_0x (String c r) = String c r).
  { unfold strip_0x. destruct r; [reflexivity|]. by rewrite Hz. }
  rewrite Hs. cbn [hex_prefix]. unfold is_hex_digit in Hh.
  by destruct (ascii_to_digit c).
Qed.

(** Unpacking the three channels of [0xRRGGBB]. *)
Lemma channels_of_packed (r g b : Z) :
  (0 <= r < 256)%Z -> (0 <= g < 256)%Z -> (0 <= b < 256)%Z ->
  let n := (r * 65536 + g * 256 + b)%Z in
  band (shr n 16) 255 = r /\ band (shr n 8) 255 = g /\ band n 255 = b.
Proof.
  intros Hr Hg Hb n.
  assert (Hsmall : forall m, (0 <= m < 2 ^ 31)%Z -> toInt32 m = m).
  { intros m Hm. unfold toInt32. rewrite Z.mod_small; lia. }
  assert (Hland : forall m, (0 <= m)%Z -> Z.land m 255 = (m mod 256)%Z).
  { intros m Hm. change 255%Z with (Z.ones 8). by rewrite Z.land_ones. }
  assert (Hn : (0 <= n < 2 ^ 24)%Z) by (unfold n; lia).
  assert (H16 : (n / 2 ^ 16 = r)%Z).
  { symmetry. apply (Z.div_unique n (2 ^ 16) r (g * 256 + b)); unfold n; lia. }
  assert (H8 : (n / 2 ^ 8 = r * 256 + g)%Z).
  { symmetry. apply (Z.div_unique n (2 ^ 8) (r * 256 + g) b); unfold n; lia. }
  unfold band, shr.
  rewrite (Hsmall n), (Hsmall 255%Z), !Z.shiftr_div_pow2, H16, H8 by lia.
  rewrite !Hsmall, !Hland by lia.
  split; [apply Z.mod_small; lia|]. split.
  - symmetry. apply (Z.mod_unique _ _ r); lia.
  - symmetry. apply (Z.mod_unique _ _ (r * 256 + g)); unfold n; lia.
Qed.

(** Six hexadecimal digits parse to their value. *)
Lemma parseInt16_six c1 c2 c3 c4 c5 c6 :
  is_hex_digit c1 = true -> is_hex_digit c2 = true -> is_hex_digit c3 = true ->
  is_hex_digit c4 = true -> is_hex_digit c5 = true -> is_hex_digit c6 = true ->
  parseInt16 (String c1 (String c2 (String c3 (String c4 (String c5 (String c6 ""))))))
  = Some ((16 * hexval c1 + hexval c2) * 65536
          + (16 * hexval c3 + hexval c4) * 256
          + (16 * hexval c5 + hexval c6))%Z.
Proof.
  intros H1 H2 H3 H4 H5 H6.
  destruct (hex_digit_facts c1 H1) as (Hw & _ & Hm & Hp & _ & _ & D1 & B1).
  destruct (hex_digit_facts c2 H2) as (_ & _ & _ & _ & Hx & HX & D2 & B2).
  destruct (hex_digit_facts c3 H3) as (_ & _ & _ & _ & _ & _ & D3 & B3).
  destruct (hex_digit_facts c4 H4) as (_ & _ & _ & _ & _ & _ & D4 & B4).
  destruct (hex_digit_facts c5 H5) as (_ & _ & _ & _ & _ & _ & D5 & B5).
  destruct (hex_digit_facts c6 H6) as (_ & _ & _ & _ & _ & _ & D6 & B6).
  unfold parseInt16. cbn [skip_white]. rewrite Hw.
  unfold split_sign. rewrite Hm, Hp.
  unfold strip_0x. rewrite Hx, HX, andb_false_r.
  cbn [hex_prefix]. rewrite D1, D2, D3, D4, D5, D6.
  cbn [default fmap option_fmap option_map]. f_equal.
  rewrite !Z2N.id by lia. unfold Datatypes.id. lia.
Qed.

Lemma append_empty_r s : String.append s "" = s.
Proof.
  induction s as [|c s IH]; [reflexivity|].
  change (String c (String.append s "") = String c s). by rewrite IH.
Qed.

Lemma length_append s1 s2 :
  String.length (String.append s1 s2) = (String.length s1 + String.length s2)%nat.
Proof.
  induction s1 as [|c s1 IH]; [reflexivity|].
  change (S (String.length (String.append s1 s2))
          = S (String.length s1 + String.length s2)). by rewrite IH.
Qed.

Lemma length_repeat_char c n : String.length (repeat_char c n) = n.
Proof. induction n as [|n IH]; [reflexivity|]. simpl. by rewrite IH. Qed.

Lemma replace_first_all_hex s : all_hex s = true -> replace_first "#" s = s.
Proof.
  induction s as [|c s IH]; [reflexivity|]. simpl.
  intros [Hc Hs]%andb_true_iff.
  destruct (hex_digit_facts c Hc) as (_ & -> & _). by rewrite IH.
Qed.

Lemma all_hex_append s1 s2 :
  all_hex s1 = true -> all_hex s2 = true -> all_hex (String.append s1 s2) = true.
Proof.
  induction s1 as [|c s1 IH]; [done|].
  change (all_hex (String c s1) = true -> all_hex s2 = true ->
          is_hex_digit c && all_hex (String.append s1 s2) = true).
  simpl. intros [Hc Hs]%andb_true_iff H2. rewrite Hc. by apply IH.
Qed.

Lemma all_hex_zeros n : all_hex (repeat_char "0" n) = true.
Proof. induction n as [|n IH]; [reflexivity|]. simpl. exact IH. Qed.

(** Inputs of hexadecimal digits other than three are padded with zeros on
    the right up to six digits. *)
Lemma hexToRgb_padded s :
  all_hex s = true -> (String.length s <= 6)%nat -> String.length s <> 3%nat ->
  hexToRgb s = hexToRgb (padEnd s 6 "0").
Proof.
  intros Hs Hlen H3.
  assert (Hp : all_hex (padEnd s 6 "0") = true).
  { apply all_hex_append; [exact Hs|apply all_hex_zeros]. }
  assert (Hl : String.length (padEnd s 6 "0") = 6%nat).
  { unfold padEnd. rewrite length_append, length_repeat_char. lia. }
  unfold hexToRgb. rewrite (replace_first_all_hex _ Hs), (replace_first_all_hex _ Hp).
  rewrite Hl. simpl (6 =? 3)%nat.
  apply Nat.eqb_neq in H3. rewrite H3.
  assert (Hpp : padEnd (padEnd s 6 "0") 6 "0" = padEnd s 6 "0").
  { unfold padEnd at 1. rewrite Hl. simpl. apply append_empty_r. }
  by rewrite Hpp.
Qed.

(** C9, as stated, fails: ["12zz"] is not a hexadecimal colour, and
    [hexToRgb] returns [RGB(0,0,18)] for it, the value of its leading
    digits [12]. *)
Lemma hexToRgb_malformed_counterexample :
  wellFormedHex "12zz" = false /\
  hexToRgb "12zz" = mkRGB 0 0 18 /\
  hexToRgb "12zz" <> mkRGB 0 0 0.
Proof.
  split; [reflexivity|]. split; [vm_compute; reflexivity|].
  vm_compute. discriminate.
Qed.

(** C9 (amended). [hexToRgb] is total.  Six hexadecimal digits, with or
    without a leading [#], give the three channels they spell; three
    digits give each digit doubled; any other input of at most six
    hexadecimal digits is padded with zeros on the right.  A malformed input
    yields [RGB(0,0,0)] when, after the first [#] is removed, it is empty or
    starts with a character that is neither a hexadecimal digit, nor white
    space, nor a sign; otherwise its leading hexadecimal digits are what is
    parsed, as in ["12zz"], which gives [RGB(0,0,18)]. *)
Theorem hexToRgb_parses :
  (forall c1 c2 c3 c4 c5 c6,
     is_hex_digit c1 = true -> is_hex_digit c2 = true ->
     is_hex_digit c3 = true -> is_hex_digit c4 = true ->
     is_hex_digit c5 = true -> is_hex_digit c6 = true ->
     let s := String c1 (String c2 (String c3 (String c4 (String c5 (String c6 ""))))) in
     let rgb := mkRGB (16 * hexval c1 + hexval c2) (16 * hexval c3 + hexval c4)
                  (16 * hexval c5 + hexval c6) in
     hexToRgb s = rgb /\ hexToRgb (String "#" s) = rgb) /\
  (forall c1 c2 c3,
     is_hex_digit c1 = true -> is_hex_digit c2 = true ->
     is_hex_digit c3 = true ->
     let s := String c1 (String c2 (String c3 "")) in
     let rgb := mkRGB (17 * hexval c1) (17 * hexval c2) (17 * hexval c3) in
     hexToRgb s = rgb /\ hexToRgb (String "#" s) = rgb) /\
  (forall s,
     all_hex s = true -> (String.length s <= 6)%nat -> String.length s <> 3%nat ->
     hexToRgb s = hexToRgb (padEnd s 6 "0")) /\
  (forall hex c r,
     replace_first "#" hex = String c r ->
     is_hex_digit c = false -> is_white c = false ->
     c <> "-"%char -> c <> "+"%char ->
     hexToRgb hex = mkRGB 0 0 0) /\
  hexToRgb "" = mkRGB 0 0 0 /\
  hexToRgb "#" = mkRGB 0 0 0 /\
  hexToRgb "12zz" = mkRGB 0 0 18.
Proof.
  assert (Hsix : forall c1 c2 c3 c4 c5 c6,
     is_hex_digit c1 = true -> is_hex_digit c2 = true ->
     is_hex_digit c3 = true -> is_hex_digit c4 = true ->
     is_hex_digit c5 = true -> is_hex_digit c6 = true ->
     let s := String c1 (String c2 (String c3 (String c4 (String c5 (String c6 ""))))) in
     let n := default 0%Z (parseInt16 (slice 0 6 s)) in
     mkRGB (band (shr n 16) 255) (band (shr n 8) 255) (band n 255)
     = mkRGB (16 * hexval c1 + hexval c2) (16 * hexval c3 + hexval c4)
         (16 * hexval c5 + hexval c6)).
  { intros c1 c2 c3 c4 c5 c6 H1 H2 H3 H4 H5 H6 s n. subst n s.
    change (slice 0 6 ?x) with x.
    rewrite parseInt16_six by assumption. cbn [default from_option].
    unfold Datatypes.id.
    destruct (hex_digit_facts c1 H1) as (_ & _ & _ & _ & _ & _ & _ & B1).
    destruct (hex_digit_facts c2 H2) as (_ & _ & _ & _ & _ & _ & _ & B2).
    destruct (hex_digit_facts c3 H3) as (_ & _ & _ & _ & _ & _ & _ & B3).
    destruct (hex_digit_facts c4 H4) as (_ & _ & _ & _ & _ & _ & _ & B4).
    destruct (hex_digit_facts c5 H5) as (_ & _ & _ & _ & _ & _ & _ & B5).
    destruct (hex_digit_facts c6 H6) as (_ & _ & _ & _ & _ & _ & _ & B6).
    destruct (channels_of_packed (16 * hexval c1 + hexval c2)
                (16 * hexval c3 + hexval c4) (16 * hexval c5 + hexval c6))
      as (-> & -> & ->); [lia..|reflexivity]. }
  split; [|split; [|split; [|split; [|split; [|split]]]]].
  - intros c1 c2 c3 c4 c5 c6 H1 H2 H3 H4 H5 H6 s rgb.
    assert (Hs : all_hex s = true).
    { subst s. simpl. by rewrite H1, H2, H3, H4, H5, H6. }
    assert (Hplain : hexToRgb s = rgb).
    { unfold hexToRgb. rewrite (replace_first_all_hex _ Hs).
      change (String.length s =? 3)%nat with false. cbv iota.
      change (padEnd s 6 "0") with s. by apply Hsix. }
    split; [exact Hplain|]. unfold hexToRgb.
    change (replace_first "#" (String "#" s)) with s.
    change (String.length s =? 3)%nat with false. cbv iota.
    change (padEnd s 6 "0") with s. by apply Hsix.
  - intros c1 c2 c3 H1 H2 H3 s rgb.
    assert (Hs : all_hex s = true).
    { subst s. simpl. by rewrite H1, H2, H3. }
    assert (Hplain : hexToRgb s = rgb).
    { unfold hexToRgb. rewrite (replace_first_all_hex _ Hs).
      change (String.length s =? 3)%nat with true. cbv iota.
      change (double_chars s)
        with (String c1 (String c1 (String c2 (String c2 (String c3 (String c3 "")))))).
      rewrite Hsix by assumption. subst rgb. f_equal; lia. }
    split; [exact Hplain|]. unfold hexToRgb.
    change (replace_first "#" (String "#" s)) with s.
    change (String.length s =? 3)%nat with true. cbv iota.
    change (double_chars s)
      with (String c1 (String c1 (String c2 (String c2 (String c3 (String c3 "")))))).
    rewrite Hsix by assumption. subst rgb. f_equal; lia.
  - apply hexToRgb_padded.
  - intros hex c r Hclean Hh Hw Hm Hp. unfold hexToRgb. rewrite Hclean.
    assert (Hparse : forall x, parseInt16 (slice 0 6 (String c x)) = None).
    { intros x. change (slice 0 6 (String c x)) with (String c (substring 0 5 x)).
      by apply non_digit_parse. }
    destruct (String.length (String c r) =? 3)%nat.
    + cbn [double_chars]. by rewrite Hparse.
    + change (padEnd (String c r) 6 "0")
        with (String c (String.append r
                (repeat_char "0" (6 - String.length (String c r))))).
      by rewrite Hparse.
  - vm_compute. reflexivity.
  - vm_compute. reflexivity.
  - vm_compute. reflexivity.
Qed.

Lemma hexToRgb_parses_witness :
  replace_first "#" "#zz" = "zz"%string /\
  is_hex_digit "z" = false /\ is_white "z" = false /\
  hexToRgb "#zz" = mkRGB 0 0 0.
Proof.
  split; [reflexivity|]. split; [reflexivity|]. split; [reflexivity|].
  refine (proj1 (proj2 (proj2 (proj2 hexToRgb_parses))) "#zz"%string "z"%char
            "z"%string _ _ _ _ _); try reflexivity; discriminate.
Defined.


(* ===================================================================== *)
(** * Easing functions *)
(* ===================================================================== *)

Lemma easingFn_bounce_segments :
  EasingSpec.four_segment_quadratic (fun t => easingFn t bounce)
    (1 / 2.75) (2 / 2.75) (2.5 / 2.75).
Proof.
  unfold EasingSpec.four_segment_quadratic, EasingSpec.quadratic_on.
  repeat split; try lra.
  - exists 7.5625, 0, 0. split; [lra|]. intros t Ht. simpl.
    destruct (Rlt_dec t (1 / 2.75)); lra.
  - exists 7.5625, (- (2 * 7.5625 * (1.5 / 2.75))),
      (7.5625 * (1.5 / 2.75) ^ 2 + 0.75).
    split; [lra|]. intros t Ht. simpl.
    destruct (Rlt_dec t (1 / 2.75)); [lra|].
    destruct (Rlt_dec t (2 / 2.75)); lra.
  - exists 7.5625, (- (2 * 7.5625 * (2.25 / 2.75))),
      (7.5625 * (2.25 / 2.75) ^ 2 + 0.9375).
    split; [lra|]. intros t Ht. simpl.
    destruct (Rlt_dec t (1 / 2.75)); [lra|].
    destruct (Rlt_dec t (2 / 2.75)); [lra|].
    destruct (Rlt_dec t (2.5 / 2.75)); lra.
  - exists 7.5625, (- (2 * 7.5625 * (2.625 / 2.75))),
      (7.5625 * (2.625 / 2.75) ^ 2 + 0.984375).
    split; [lra|]. intros t Ht. simpl.
    destruct (Rlt_dec t (1 / 2.75)); [lra|].
    destruct (Rlt_dec t (2 / 2.75)); [lra|].
    destruct (Rlt_dec t (2.5 / 2.75)); lra.
Qed.

(** C5. For every [t] in [0,1] the easing function returns the formula of
    the specification's table for each listed kind: [t] for linear, [t^2]
    for ease-in, [t*(2-t)] for ease-out, the two-piece formula for
    ease-in-out, [0], [1] or [-2^(10(t-1)) * sin((t-1.1)*5*pi)] for elastic;
    bounce is made of four quadratic segments split at [1/2.75], [2/2.75]
    and [2.5/2.75]; and every kind outside the table, among them
    cubic-bezier, step-start and step-end, returns [t]. *)
Theorem easingFn_follows_table (t : R) :
  0 <= t <= 1 ->
  easingFn t linear = t /\
  easingFn t ease_in = t ^ 2 /\
  easingFn t ease_out = t * (2 - t) /\
  easingFn t ease_in_out = EasingSpec.ease_in_out_formula t /\
  EasingSpec.four_segment_quadratic (fun u => easingFn u bounce)
    (1 / 2.75) (2 / 2.75) (2.5 / 2.75) /\
  easingFn t elastic = EasingSpec.elastic_formula t /\
  (forall k, EasingSpec.listed k = false -> easingFn t k = t) /\
  easingFn t cubic_bezier = t /\ easingFn t step_start = t /\
  easingFn t step_end = t.
Proof.
  intros _. repeat split; try reflexivity; try (simpl; lra).
  - unfold easingFn, EasingSpec.ease_in_out_formula.
    destruct (Rlt_dec t 0.5), (Rlt_dec t (1 / 2)); lra.
  - apply easingFn_bounce_segments.
  - apply easingFn_bounce_segments.
  - apply easingFn_bounce_segments.
  - apply easingFn_bounce_segments.
  - unfold easingFn, EasingSpec.elastic_formula, Math_pow, Math_sin, Math_PI.
    destruct (Req_dec_T t 0); [reflexivity|].
    destruct (Req_dec_T t 1); [reflexivity|].
    replace ((t - 1.1) * 5 * PI) with ((t - 1.1) * (5 * PI)) by ring.
    ring.
  - intros k Hk. destruct k; simpl in Hk; try discriminate; reflexivity.
Qed.

Lemma easingFn_follows_table_witness :
  0 <= 1 / 4 <= 1 /\ easingFn (1 / 4) ease_in = (1 / 4) ^ 2.
Proof.
  assert (H : 0 <= 1 / 4 <= 1) by lra.
  split; [exact H|].
  exact (proj1 (proj2 (easingFn_follows_table (1 / 4) H))).
Defined.

(* ===================================================================== *)
(** * Properties of the interpolation engine                               *)
(* ===================================================================== *)

Section Sorting.

Lemma insertByTime_Permutation k l : insertByTime k l ≡ₚ k :: l.
Proof.
  induction l as [|h tl IH]; simpl; [reflexivity|].
  destruct (Rle_dec _ _); [reflexivity|].
  rewrite IH. apply Permutation_swap.
Qed.

Lemma sortByTime_Permutation l : sortByTime l ≡ₚ l.
Proof.
  induction l as [|k l IH]; simpl; [reflexivity|].
  rewrite insertByTime_Permutation. by rewrite IH.
Qed.

Lemma insertByTime_sorted k l :
  StronglySorted timeLe l -> StronglySorted timeLe (insertByTime k l).
Proof.
  induction l as [|h tl IH]; intros Hs; simpl.
  - repeat constructor.
  - inversion Hs as [|? ? Htl Hall]; subst.
    destruct (Rle_dec (kf_time k) (kf_time h)) as [Hle|Hgt].
    + constructor; [assumption|].
      constructor; [exact Hle|].
      eapply Forall_impl; [exact Hall|].
      intros x Hx. unfold timeLe in *. lra.
    + constructor; [by apply IH|].
      rewrite insertByTime_Permutation. constructor; [|assumption].
      unfold timeLe. lra.
Qed.

Lemma sortByTime_sorted l : StronglySorted timeLe (sortByTime l).
Proof.
  induction l as [|k l IH]; simpl; [constructor|].
  by apply insertByTime_sorted.
Qed.

(** A list already in ascending order is left as it is. *)
Lemma sortByTime_id l : StronglySorted timeLe l -> sortByTime l = l.
Proof.
  induction 1 as [|k l Hs IH Hall]; simpl; [reflexivity|].
  rewrite IH. destruct l as [|h tl]; simpl; [reflexivity|].
  inversion Hall; subst. unfold timeLe in *. rcases. reflexivity.
Qed.

Lemma sorted_head_le first rest k :
  StronglySorted timeLe (first :: rest) -> k ∈ first :: rest ->
  kf_time first <= kf_time k.
Proof.
  intros Hs Hin. inversion Hs as [|? ? _ Hall]; subst.
  apply elem_of_cons in Hin as [->|Hin]; [lra|].
  rewrite Forall_forall in Hall. by apply Hall.
Qed.

Lemma sorted_le_last l d k :
  StronglySorted timeLe l -> k ∈ l ->
  kf_time k <= kf_time (default d (last l)).
Proof.
  intros Hs. revert k.
  induction Hs as [|h tl Hs IH Hall]; intros k Hin.
  - by apply elem_of_nil in Hin.
  - destruct tl as [|h' tl'].
    + apply list_elem_of_singleton in Hin as ->. simpl. lra.
    + rewrite last_cons_cons.
      apply elem_of_cons in Hin as [->|Hin]; [|by apply IH].
      apply Rle_trans with (kf_time h'); [|apply IH; left].
      inversion Hall; subst. assumption.
Qed.

End Sorting.

Section Bracket.

(** Between the first and the last time the scan finds a pair, and the
    pair it finds encloses the query time. *)
Lemma findBracket_some time l first :
  kf_time (default first (head l)) <= time ->
  time < kf_time (default first (last l)) ->
  l <> [] ->
  exists prev next, findBracket time l = Some (prev, next).
Proof.
  induction l as [|a tl IH]; intros Hlo Hhi Hne; [done|].
  destruct tl as [|b tl'].
  - simpl in *. lra.
  - simpl in Hlo. rewrite last_cons_cons in Hhi.
    cbn [findBracket].
    destruct (Rge_dec time (kf_time a)); [|lra].
    destruct (Rle_dec time (kf_time b)); [by eauto|].
    apply IH; [simpl; lra|assumption|done].
Qed.

Lemma findBracket_encloses time l prev next :
  findBracket time l = Some (prev, next) ->
  kf_time prev <= time <= kf_time next.
Proof.
  induction l as [|a tl IH]; [done|].
  destruct tl as [|b tl']; [done|].
  cbn [findBracket].
  destruct (Rge_dec time (kf_time a)); [|exact IH].
  destruct (Rle_dec time (kf_time b)); [|exact IH].
  intros [= <- <-]. lra.
Qed.

(** A pair of neighbours strictly enclosing the query time in a sorted
    list is the pair the scan stops at. *)
Lemma findBracket_neighbours time l1 prev next l2 :
  StronglySorted timeLe (l1 ++ prev :: next :: l2) ->
  kf_time prev < time < kf_time next ->
  findBracket time (l1 ++ prev :: next :: l2) = Some (prev, next).
Proof.
  intros Hs Ht. induction l1 as [|a l1 IH].
  - simpl. rcases. reflexivity.
  - assert (Hb : kf_time (default a (head (l1 ++ prev :: next :: l2))) < time).
    { inversion Hs as [|? ? _ Hall]; subst.
      rewrite Forall_forall in Hall.
      destruct l1 as [|b l1']; simpl; [lra|].
      assert (timeLe b prev); [|unfold timeLe in *; lra].
      inversion Hs as [|? ? Hs' _]; subst.
      eapply (sorted_head_le b); [exact Hs'|].
      change (prev ∈ (b :: l1') ++ prev :: next :: l2).
      apply elem_of_app. right. left. }
    inversion Hs as [|? ? Hs' _]; subst. specialize (IH Hs').
    destruct (l1 ++ prev :: next :: l2) as [|b tl] eqn:E.
    { by destruct l1. }
    simpl in Hb. change ((a :: l1) ++ prev :: next :: l2)
      with (a :: (l1 ++ prev :: next :: l2)).
    rewrite E. cbn [findBracket].
    destruct (Rge_dec time (kf_time a)); [|exact IH].
    destruct (Rle_dec time (kf_time b)); [lra|exact IH].
Qed.

End Bracket.

Section Lookup.

Context (el : ElementProps) (t : R).

Lemma foldr_stepNumeric ps ns (l : list NumericProp) p :
  foldr (stepNumeric el ps ns t) ∅ l !! p =
  if decide (p ∈ l) then numericEntry el t ps ns p else None.
Proof.
  induction l as [|q l IH]; simpl.
  - apply lookup_empty.
  - unfold stepNumeric at 1.
    destruct (decide (p = q)) as [->|Hne].
    + rewrite decide_True by set_solver. unfold numericEntry.
      destruct (ps !! q) eqn:E1, (ns !! q) eqn:E2;
        rewrite ?lookup_insert_eq; try reflexivity.
      rewrite IH. unfold numericEntry. rewrite E1, E2. by case_decide.
    + assert (Hl : foldr (stepNumeric el ps ns t) ∅ l !! p =
                   if decide (p ∈ q :: l) then numericEntry el t ps ns p else None).
      { rewrite IH.
        destruct (decide (p ∈ l)) as [Hp|Hp], (decide (p ∈ q :: l)) as [Hq|Hq];
          try reflexivity; exfalso.
        - apply Hq. by right.
        - apply elem_of_cons in Hq as [?|?]; done. }
      destruct (ps !! q), (ns !! q); rewrite ?lookup_insert_ne by done;
        exact Hl.
Qed.

Lemma foldr_stepColor ps ns (l : list ColorProp) p :
  foldr (stepColor el ps ns t) ∅ l !! p =
  if decide (p ∈ l) then colorEntry el t ps ns p else None.
Proof.
  induction l as [|q l IH]; simpl.
  - apply lookup_empty.
  - unfold stepColor at 1.
    destruct (decide (p = q)) as [->|Hne].
    + rewrite decide_True by set_solver. unfold colorEntry.
      destruct (ps !! q) eqn:E1, (ns !! q) eqn:E2;
        rewrite ?lookup_insert_eq; try reflexivity.
      rewrite IH. unfold colorEntry. rewrite E1, E2. by case_decide.
    + assert (Hl : foldr (stepColor el ps ns t) ∅ l !! p =
                   if decide (p ∈ q :: l) then colorEntry el t ps ns p else None).
      { rewrite IH.
        destruct (decide (p ∈ l)) as [Hp|Hp], (decide (p ∈ q :: l)) as [Hq|Hq];
          try reflexivity; exfalso.
        - apply Hq. by right.
        - apply elem_of_cons in Hq as [?|?]; done. }
      destruct (ps !! q), (ns !! q); rewrite ?lookup_insert_ne by done;
        exact Hl.
Qed.

Lemma nums_interpolateStates prevState nextState p :
  nums (interpolateStates el prevState nextState t) !! p =
  numericEntry el t (nums prevState) (nums nextState) p.
Proof.
  unfold interpolateStates, set_fold; simpl. rewrite foldr_stepNumeric.
  case_decide as Hin; [reflexivity|].
  rewrite elem_of_elements, elem_of_union, !elem_of_dom in Hin.
  unfold numericEntry.
  destruct (nums prevState !! p) eqn:E1; [exfalso; apply Hin; eauto|].
  destruct (nums nextState !! p) eqn:E2; [exfalso; apply Hin; eauto|].
  reflexivity.
Qed.

Lemma cols_interpolateStates prevState nextState p :
  cols (interpolateStates el prevState nextState t) !! p =
  colorEntry el t (cols prevState) (cols nextState) p.
Proof.
  unfold interpolateStates, set_fold; simpl. rewrite foldr_stepColor.
  case_decide as Hin; [reflexivity|].
  rewrite elem_of_elements, elem_of_union, !elem_of_dom in Hin.
  unfold colorEntry.
  destruct (cols prevState !! p) eqn:E1; [exfalso; apply Hin; eauto|].
  destruct (cols nextState !! p) eqn:E2; [exfalso; apply Hin; eauto|].
  reflexivity.
Qed.

End Lookup.

Lemma state_eq (s1 s2 : ElementState) :
  (forall p, nums s1 !! p = nums s2 !! p) ->
  (forall c, cols s1 !! c = cols s2 !! c) ->
  s1 = s2.
Proof.
  destruct s1 as [n1 c1], s2 as [n2 c2]; simpl. intros Hn Hc.
  f_equal; apply map_eq; assumption.
Qed.

Section Engine.

Context (elId : string) (el : ElementProps).

Lemma interpolate_at_or_before_first kfs time first rest :
  sortByTime kfs = first :: rest ->
  time <= kf_time first ->
  interpolateElementFromGlobal kfs elId el time = getState elId first.
Proof.
  intros Hs Ht. unfold interpolateElementFromGlobal. rewrite Hs.
  destruct (Rle_dec time (kf_time first)); [reflexivity|lra].
Qed.

Lemma interpolate_at_or_after_last kfs time first rest :
  sortByTime kfs = first :: rest ->
  kf_time first < time ->
  kf_time (default first (last (first :: rest))) <= time ->
  interpolateElementFromGlobal kfs elId el time =
  getState elId (default first (last (first :: rest))).
Proof.
  intros Hs Hlo Hhi. unfold interpolateElementFromGlobal. rewrite Hs.
  destruct (Rle_dec time (kf_time first)); [lra|].
  destruct (Rge_dec time _); [reflexivity|lra].
Qed.

(** Strictly inside a pair of neighbours the result is the blend of their
    two snapshots at the eased progress. *)
Lemma interpolate_between kfs time l1 prev next l2 :
  sortByTime kfs = l1 ++ prev :: next :: l2 ->
  kf_time prev < time < kf_time next ->
  interpolateElementFromGlobal kfs elId el time =
  interpolateStates el (getState elId prev) (getState elId next)
    (easingFn ((time - kf_time prev) / (kf_time next - kf_time prev))
       (kf_easing prev)).
Proof.
  intros Hs Ht.
  pose proof (sortByTime_sorted kfs) as Hsorted.
  assert (Hbr : findBracket time (sortByTime kfs) = Some (prev, next)).
  { rewrite Hs. apply findBracket_neighbours; [by rewrite <- Hs|exact Ht]. }
  unfold interpolateElementFromGlobal.
  destruct (sortByTime kfs) as [|first rest] eqn:E.
  { by destruct l1. }
  assert (Hp : prev ∈ first :: rest).
  { rewrite Hs. apply elem_of_app. right. left. }
  assert (Hn : next ∈ first :: rest).
  { rewrite Hs. apply elem_of_app. right. right. left. }
  pose proof (sorted_head_le first rest prev Hsorted Hp).
  pose proof (sorted_le_last (first :: rest) first next Hsorted Hn).
  destruct (Rle_dec time (kf_time first)); [lra|].
  destruct (Rge_dec time _); [lra|].
  rewrite Hbr. simpl.
  destruct (Rgt_dec (kf_time next - kf_time prev) 0); [reflexivity|lra].
Qed.

(** Strictly between the first and the last time the scan always finds a
    pair, so the initial values of [prev] and [next] are never used; the
    pair encloses the query time and the result is the blend of its two
    snapshots. *)
Lemma interpolate_inside kfs time first rest :
  sortByTime kfs = first :: rest ->
  kf_time first < time ->
  time < kf_time (default first (last (first :: rest))) ->
  exists prev next,
    findBracket time (first :: rest) = Some (prev, next) /\
    kf_time prev <= time <= kf_time next /\
    interpolateElementFromGlobal kfs elId el time =
    interpolateStates el (getState elId prev) (getState elId next)
      (easingFn
         (if Rgt_dec (kf_time next - kf_time prev) 0
          then (time - kf_time prev) / (kf_time next - kf_time prev) else 1)
         (kf_easing prev)).
Proof.
  intros Hs Hlo Hhi.
  destruct (findBracket_some time (first :: rest) first) as (prev & next & Hbr);
    [simpl; lra|exact Hhi|done|].
  exists prev, next. split; [exact Hbr|].
  split; [by eapply findBracket_encloses|].
  unfold interpolateElementFromGlobal. rewrite Hs.
  destruct (Rle_dec time (kf_time first)); [lra|].
  destruct (Rge_dec time _); [lra|].
  by rewrite Hbr.
Qed.

End Engine.

(** ** Clamping at the ends of the timeline *)

(** C1, as stated, fails when all keyframes share the query time: with two
    keyframes at [t = 1], the list is in ascending order, the query time 1 is
    at or after the time of the last keyframe, and yet the snapshot returned
    is the one of the first keyframe ([x = 0]), not of the last
    ([x = 100]). *)
Lemma clamp_to_last_counterexample :
  StronglySorted timeLe tiedKeyframes /\
  (exists kLast, last tiedKeyframes = Some kLast /\
     1 >= kf_time kLast /\
     getState "el" kLast = mkState {[ P_x := 100 ]} ∅ /\
     interpolateElementFromGlobal tiedKeyframes "el" plainElement 1
       <> getState "el" kLast) /\
  interpolateElementFromGlobal tiedKeyframes "el" plainElement 1
    = mkState {[ P_x := 0 ]} ∅.
Proof.
  assert (Hsorted : StronglySorted timeLe tiedKeyframes).
  { unfold tiedKeyframes, timeLe. repeat constructor; simpl; lra. }
  assert (Hres : interpolateElementFromGlobal tiedKeyframes "el" plainElement 1
                 = mkState {[ P_x := 0 ]} ∅).
  { erewrite interpolate_at_or_before_first;
      [|apply sortByTime_id; exact Hsorted|simpl; lra].
    unfold getState. simpl. by rewrite lookup_singleton_eq. }
  split; [exact Hsorted|]. split; [|exact Hres].
  eexists. split; [reflexivity|]. simpl. split; [lra|].
  unfold getState; simpl. rewrite lookup_singleton_eq. simpl.
  split; [reflexivity|].
  rewrite Hres. intros H.
  apply (f_equal (fun s => nums s !! P_x)) in H. simpl in H.
  rewrite !lookup_singleton_eq in H. injection H as H. lra.
Qed.

(** C1 (amended). For every non-empty keyframe list, taken in ascending
    order of time (the order the engine sorts it into, which is the order of
    the list itself when it is already ascending), the engine returns the
    first keyframe's snapshot for the element verbatim when the query time
    is at or before the first keyframe's time, and the last keyframe's
    snapshot verbatim when the query time is after the first keyframe's time
    and at or after the last keyframe's time.  In particular a single
    keyframe at [t = 3] holding [{opacity: 0.5}] yields [{opacity: 0.5}] at
    [t = 0] and at [t = 10]. *)
Theorem interpolate_clamps_at_ends (elId : string) (el : ElementProps) :
  (forall (kfs : list GlobalKeyframe) (time : R),
     kfs <> [] ->
     exists first rest,
       sortByTime kfs = first :: rest /\
       (StronglySorted timeLe kfs -> kfs = first :: rest) /\
       let lastKf := default first (last (first :: rest)) in
       (forall k, k ∈ kfs -> kf_time first <= kf_time k <= kf_time lastKf) /\
       (time <= kf_time first ->
        interpolateElementFromGlobal kfs elId el time = getState elId first) /\
       (kf_time first < time -> time >= kf_time lastKf ->
        interpolateElementFromGlobal kfs elId el time = getState elId lastKf)) /\
  interpolateElementFromGlobal (scenarioC elId) elId el 0 = opacityHalf /\
  interpolateElementFromGlobal (scenarioC elId) elId el 10 = opacityHalf.
Proof.
  assert (Hgen : forall (kfs : list GlobalKeyframe) (time : R),
     kfs <> [] ->
     exists first rest,
       sortByTime kfs = first :: rest /\
       (StronglySorted timeLe kfs -> kfs = first :: rest) /\
       let lastKf := default first (last (first :: rest)) in
       (forall k, k ∈ kfs -> kf_time first <= kf_time k <= kf_time lastKf) /\
       (time <= kf_time first ->
        interpolateElementFromGlobal kfs elId el time = getState elId first) /\
       (kf_time first < time -> time >= kf_time lastKf ->
        interpolateElementFromGlobal kfs elId el time = getState elId lastKf)).
  { intros kfs time Hne.
    destruct (sortByTime kfs) as [|first rest] eqn:E.
    { apply (f_equal length) in E.
      rewrite (Permutation_length (sortByTime_Permutation kfs)) in E.
      by destruct kfs. }
    exists first, rest. split; [reflexivity|].
    split; [intros Hs; by rewrite <- E, sortByTime_id|].
    pose proof (sortByTime_sorted kfs) as Hsorted. rewrite E in Hsorted.
    simpl. split; [|split].
    - intros k Hk.
      assert (Hk' : k ∈ first :: rest).
      { rewrite <- E. by rewrite sortByTime_Permutation. }
      split; [by eapply sorted_head_le|by apply sorted_le_last].
    - intros Ht. by eapply interpolate_at_or_before_first.
    - intros Hlo Hhi. eapply interpolate_at_or_after_last; [exact E|lra|lra]. }
  split; [exact Hgen|].
  assert (Hs : sortByTime (scenarioC elId) = scenarioC elId) by reflexivity.
  split.
  - erewrite interpolate_at_or_before_first; [|exact Hs|simpl; lra].
    unfold getState; simpl. by rewrite lookup_singleton_eq.
  - erewrite interpolate_at_or_after_last; [|exact Hs|simpl; lra|simpl; lra].
    unfold getState; simpl. by rewrite lookup_singleton_eq.
Qed.

Lemma interpolate_clamps_at_ends_witness :
  scenarioC "el" <> [] /\
  exists first rest,
    sortByTime (scenarioC "el") = first :: rest /\
    (10 >= kf_time (default first (last (first :: rest))) ->
     kf_time first < 10 ->
     interpolateElementFromGlobal (scenarioC "el") "el" plainElement 10
     = getState "el" (default first (last (first :: rest)))).
Proof.
  assert (Hne : scenarioC "el" <> []) by discriminate.
  split; [exact Hne|].
  destruct (proj1 (interpolate_clamps_at_ends "el" plainElement)
              (scenarioC "el") 10 Hne)
    as (first & rest & Hs & _ & _ & _ & Hlast).
  exists first, rest. split; [exact Hs|].
  intros Hhi Hlo. by apply Hlast.
Defined.

(** ** Scenarios A and B *)

Lemma scenarioAB_at_1 elId el e0 e2 :
  interpolateElementFromGlobal (scenarioAB elId e0 e2) elId el 1 =
  xOnly (0 + (100 - 0) * easingFn (1 / 2) e0).
Proof.
  rewrite (interpolate_between elId el _ 1 []
             (mkKeyframe "k0" 0 e0 {[ elId := xOnly 0 ]})
             (mkKeyframe "k2" 2 e2 {[ elId := xOnly 100 ]}) []).
  - unfold getState; simpl. rewrite !lookup_singleton_eq. simpl.
    replace ((1 - 0) / (2 - 0)) with (1 / 2) by lra.
    apply state_eq; intros p.
    + rewrite nums_interpolateStates. unfold numericEntry, xOnly; simpl.
      destruct (decide (p = P_x)) as [->|Hne].
      * by rewrite !lookup_singleton_eq.
      * by rewrite !lookup_singleton_ne.
    + rewrite cols_interpolateStates. unfold colorEntry; simpl.
      by rewrite !lookup_empty.
  - apply sortByTime_id. unfold timeLe. repeat constructor; simpl; lra.
  - simpl; lra.
Qed.

(** C2. With a keyframe at [t = 0] holding [{x: 0}] and a keyframe at
    [t = 2] holding [{x: 100}], the query at [t = 1] yields [{x: 50}] when
    the easing of the [t = 0] keyframe is linear, and [{x: 25}] when it is
    ease-in. *)
Theorem interpolate_scenarios_A_B (elId : string) (el : ElementProps)
    (e2 : EasingType) :
  interpolateElementFromGlobal (scenarioAB elId linear e2) elId el 1 = xOnly 50 /\
  interpolateElementFromGlobal (scenarioAB elId ease_in e2) elId el 1 = xOnly 25.
Proof.
  rewrite !scenarioAB_at_1. simpl. split; f_equal; unfold xOnly; do 2 f_equal; lra.
Qed.

(** ** Properties held by one snapshot only *)

(** C3, as stated, fails for an element that has no base value for the
    property: [blur] is in the first snapshot only, the element has no
    [blur], and halfway the engine returns 5, the blend of 10 with zero. *)
Lemma missing_side_zero_counterexample :
  nums (getState "el" (mkKeyframe "k0" 0 linear {[ "el"%string := blurOnly ]}))
    !! P_blur = Some 10 /\
  nums (getState "el" (mkKeyframe "k2" 2 linear {[ "el"%string := emptyState ]}))
    !! P_blur = None /\
  el_num plainElement P_blur = None /\
  nums (interpolateElementFromGlobal blurKeyframes "el" plainElement 1) !! P_blur
    = Some (10 + (0 - 10) * (1 / 2)) /\
  nums (interpolateElementFromGlobal blurKeyframes "el" plainElement 1) !! P_blur
    = Some 5.
Proof.
  assert (H : nums (interpolateElementFromGlobal blurKeyframes "el" plainElement 1)
              !! P_blur = Some (10 + (0 - 10) * (1 / 2))).
  { unfold blurKeyframes.
    rewrite (interpolate_between "el" plainElement _ 1 []
               (mkKeyframe "k0" 0 linear {[ "el"%string := blurOnly ]})
               (mkKeyframe "k2" 2 linear {[ "el"%string := emptyState ]}) []).
    - rewrite nums_interpolateStates. unfold getState; simpl.
      rewrite !lookup_singleton_eq. unfold numericEntry; simpl.
      rewrite lookup_singleton_eq, lookup_empty. simpl. f_equal. lra.
    - apply sortByTime_id. unfold timeLe. repeat constructor; simpl; lra.
    - simpl; lra. }
  unfold getState; simpl. rewrite !lookup_singleton_eq. simpl.
  rewrite lookup_singleton_eq, lookup_empty.
  repeat split; try reflexivity; [exact H|].
  rewrite H. f_equal. lra.
Qed.

(** C3 (amended). For every query time strictly between two neighbouring
    keyframes of the sorted list, and every property held by exactly one of
    their two snapshots for the element, the engine puts on the missing side
    the element's base value for that property when the element has one, and
    otherwise 0 for a numeric property and ["#000000"] for a colour; it then
    blends linearly (numeric) or with [lerpColor] (colour) at the eased
    progress.  A property held by neither snapshot has no entry in the
    result. *)
Theorem interpolate_missing_side (kfs : list GlobalKeyframe) (elId : string)
    (el : ElementProps) (time : R) (l1 l2 : list GlobalKeyframe)
    (prev next : GlobalKeyframe) :
  sortByTime kfs = l1 ++ prev :: next :: l2 ->
  kf_time prev < time < kf_time next ->
  let t := easingFn ((time - kf_time prev) / (kf_time next - kf_time prev))
             (kf_easing prev) in
  let prevState := getState elId prev in
  let nextState := getState elId next in
  let result := interpolateElementFromGlobal kfs elId el time in
  (forall p v, nums prevState !! p = Some v -> nums nextState !! p = None ->
     let base := default 0 (el_num el p) in
     nums result !! p = Some (v + (base - v) * t)) /\
  (forall p v, nums prevState !! p = None -> nums nextState !! p = Some v ->
     let base := default 0 (el_num el p) in
     nums result !! p = Some (base + (v - base) * t)) /\
  (forall p, nums prevState !! p = None -> nums nextState !! p = None ->
     nums result !! p = None) /\
  (forall c v, cols prevState !! c = Some v -> cols nextState !! c = None ->
     let base := default "#000000"%string (el_col el c) in
     cols result !! c = Some (lerpColor v base t)) /\
  (forall c v, cols prevState !! c = None -> cols nextState !! c = Some v ->
     let base := default "#000000"%string (el_col el c) in
     cols result !! c = Some (lerpColor base v t)) /\
  (forall c, cols prevState !! c = None -> cols nextState !! c = None ->
     cols result !! c = None).
Proof.
  intros Hs Ht t prevState nextState result.
  assert (Hr : result = interpolateStates el prevState nextState t)
    by (by eapply interpolate_between).
  rewrite Hr. repeat split.
  - intros p v Hp Hn. rewrite nums_interpolateStates. unfold numericEntry.
    by rewrite Hp, Hn.
  - intros p v Hp Hn. rewrite nums_interpolateStates. unfold numericEntry.
    by rewrite Hp, Hn.
  - intros p Hp Hn. rewrite nums_interpolateStates. unfold numericEntry.
    by rewrite Hp, Hn.
  - intros c v Hp Hn. rewrite cols_interpolateStates. unfold colorEntry.
    by rewrite Hp, Hn.
  - intros c v Hp Hn. rewrite cols_interpolateStates. unfold colorEntry.
    by rewrite Hp, Hn.
  - intros c Hp Hn. rewrite cols_interpolateStates. unfold colorEntry.
    by rewrite Hp, Hn.
Qed.

(** The same keyframes on an element whose base blur is 4: the missing side
    is the base value. *)
Lemma interpolate_missing_side_witness :
  nums (interpolateElementFromGlobal blurKeyframes "el"
          {| el_id := "el"; el_locked := false;
             el_x := 0; el_y := 0; el_width := 100; el_height := 100;
             el_opacity := 1; el_rotation := 0;
             el_fill := None; el_borderRadius := None; el_strokeColor := None;
             el_strokeWidth := None; el_fontSize := None; el_color := None;
             el_lineHeight := None; el_letterSpacing := None; el_blur := Some 4;
             el_brightness := None; el_contrast := None; el_hueRotate := None;
             el_saturate := None; el_scaleX := None; el_scaleY := None |} 1)
    !! P_blur
  = Some (10 + (4 - 10) * easingFn ((1 - 0) / (2 - 0)) linear).
Proof.
  refine (proj1 (interpolate_missing_side blurKeyframes "el" _ 1 []
            [] (mkKeyframe "k0" 0 linear {[ "el"%string := blurOnly ]})
            (mkKeyframe "k2" 2 linear {[ "el"%string := emptyState ]}) _ _)
          P_blur 10 _ _).
  - apply sortByTime_id. unfold timeLe. repeat constructor; simpl; lra.
  - simpl; lra.
  - unfold getState; simpl. rewrite lookup_singleton_eq. simpl.
    apply lookup_singleton_eq.
  - unfold getState; simpl. rewrite lookup_singleton_eq. simpl.
    apply lookup_empty.
Defined.

(* ===================================================================== *)
(** * Scene snapshotting *)
(* ===================================================================== *)

(** ** The element tree *)

(** Induction over an element and, through [Forall], over its children. *)
Lemma OverlayElement_tree_ind (P : OverlayElement -> Prop) :
  (forall el, P (Element el None)) ->
  (forall el cs, Forall P cs -> P (Element el (Some cs))) ->
  forall e, P e.
Proof.
  intros Hleaf Hnode. fix IH 1. intros [el [cs|]].
  - apply Hnode. induction cs as [|c cs IHcs]; constructor.
    + apply IH.
    + exact IHcs.
  - apply Hleaf.
Qed.

Section SnapshotProperties.

Context (time : option R) (keyframes : option (list GlobalKeyframe)).

Lemma flattenElement_subelements e st :
  flattenElement time keyframes e st = foldl (record time keyframes) st (subelements e).
Proof.
  revert st. induction e as [el|el cs IH] using OverlayElement_tree_ind;
    intros st; [reflexivity|].
  cbn [flattenElement subelements foldl]. fold (record time keyframes st el).
  generalize (record time keyframes st el). clear st.
  induction IH as [|c cs Hc _ IHcs]; intros st; [reflexivity|].
  cbn [foldl flat_map]. rewrite foldl_app, <- Hc. apply IHcs.
Qed.

Lemma flatten_allElements els st :
  flatten time keyframes els st = foldl (record time keyframes) st (allElements els).
Proof.
  revert st. induction els as [|e els IH]; intros st; [reflexivity|].
  unfold flatten, allElements in *. cbn [foldl flat_map].
  rewrite foldl_app, <- flattenElement_subelements. apply IH.
Qed.

(** After the loop, an identifier that was visited holds the snapshot of
    the last element visited under it. *)
Lemma foldl_record_lookup l st el :
  el ∈ l ->
  exists el', el' ∈ l /\ el_id el' = el_id el /\
    (NoDup (el_id <$> l) -> el' = el) /\
    foldl (record time keyframes) st l !! el_id el =
    Some (snapshotState (effectiveState time keyframes el')).
Proof.
  induction l as [|x l IH] using rev_ind; intros Hin.
  { by apply elem_of_nil in Hin. }
  rewrite foldl_app. cbn [foldl]. unfold record at 1.
  destruct (decide (el_id x = el_id el)) as [Heq|Hne].
  - exists x. split; [apply elem_of_app; right; left|].
    split; [exact Heq|]. split; [|rewrite Heq; apply lookup_insert_eq].
    intros Hnd. apply elem_of_app in Hin as [Hin|Hin].
    + exfalso. rewrite fmap_app in Hnd. apply NoDup_app in Hnd as (_ & Hd & _).
      apply (Hd (el_id el)); [by apply list_elem_of_fmap_2|].
      simpl. rewrite Heq. left.
    + by apply list_elem_of_singleton in Hin.
  - apply elem_of_app in Hin as [Hin|Hin].
    2: { apply list_elem_of_singleton in Hin. congruence. }
    destruct (IH Hin) as (el' & Hin' & Hid & Huniq & Hl).
    exists el'. split; [apply elem_of_app; by left|].
    split; [exact Hid|]. split.
    + intros Hnd. apply Huniq. rewrite fmap_app in Hnd.
      by apply NoDup_app in Hnd as (? & _).
    + rewrite lookup_insert_ne by done. exact Hl.
Qed.

End SnapshotProperties.

Lemma lookup_spreadOpt `{Countable K} {V} (k k' : K) (v : option V) (m : gmap K V) :
  spreadOpt k v m !! k' = if decide (k = k') then nullish v (m !! k') else m !! k'.
Proof.
  unfold spreadOpt. destruct v as [x|]; simpl.
  - rewrite lookup_insert. by case_decide.
  - by case_decide.
Qed.

Lemma whenTruthyNum_zero : whenTruthyNum (Some 0) = None.
Proof. unfold whenTruthyNum, truthy_num. by destruct (Req_dec_T 0 0). Qed.

Lemma whenTruthyNum_Some v r :
  whenTruthyNum v = Some r <-> v = Some r /\ r <> 0.
Proof.
  unfold whenTruthyNum, truthy_num. destruct v as [x|].
  - destruct (Req_dec_T x 0) as [Hz|Hz]; split.
    + discriminate.
    + intros [[= ->] Hr]. contradiction.
    + intros [= ->]. by split.
    + by intros [Hv _].
  - split; [discriminate|]. by intros [? _].
Qed.

Lemma whenTruthyStr_Some v s :
  whenTruthyStr v = Some s <-> v = Some s /\ s <> ""%string.
Proof.
  unfold whenTruthyStr. destruct v as [[|c x]|]; simpl; split;
    try discriminate; try (by intros [? _]).
  - intros [[= <-] Hs]. contradiction.
  - intros [= <-]. by split.
Qed.

(** The keys of the object literal, one by one. *)
Lemma snapshotState_entries stateEl :
  let s := snapshotState stateEl in
  nums s !! P_x = Some (el_x stateEl) /\
  nums s !! P_y = Some (el_y stateEl) /\
  nums s !! P_width = Some (el_width stateEl) /\
  nums s !! P_height = Some (el_height stateEl) /\
  nums s !! P_rotation = Some (el_rotation stateEl) /\
  nums s !! P_opacity = Some (el_opacity stateEl) /\
  nums s !! P_scaleX = Some (default 1 (el_scaleX stateEl)) /\
  nums s !! P_scaleY = Some (default 1 (el_scaleY stateEl)) /\
  cols s !! P_fill = whenTruthyStr (el_fill stateEl) /\
  cols s !! P_strokeColor = whenTruthyStr (el_strokeColor stateEl) /\
  cols s !! P_color = whenTruthyStr (el_color stateEl) /\
  nums s !! P_blur = whenTruthyNum (el_blur stateEl) /\
  nums s !! P_brightness = whenTruthyNum (el_brightness stateEl) /\
  nums s !! P_fontSize = whenTruthyNum (el_fontSize stateEl).
Proof.
  unfold snapshotState; simpl.
  repeat split;
    rewrite ?lookup_spreadOpt, ?lookup_insert, ?lookup_empty;
    repeat (case_decide; try congruence);
    try reflexivity;
    match goal with |- nullish ?o _ = _ => by destruct o end.
Qed.

Lemma snapshotState_matches stateEl :
  snapshotMatches (snapshotState stateEl) stateEl.
Proof.
  destruct (snapshotState_entries stateEl)
    as (Hx & Hy & Hw & Hh & Hr & Ho & Hsx & Hsy & Hf & Hsc & Hc & Hb & Hbr & Hfs).
  unfold snapshotMatches.
  rewrite Hx, Hy, Hw, Hh, Hr, Ho, Hsx, Hsy, Hf, Hsc, Hc, Hb, Hbr, Hfs.
  repeat match goal with |- _ /\ _ => split end; try reflexivity;
    try (intros v; apply whenTruthyNum_Some);
    try (intros v; apply whenTruthyStr_Some);
    try (intros ->; apply whenTruthyNum_zero).
  by intros ->.
Qed.

(** C10. For every element of the tree, [snapshotAllElements] holds under
    the element's identifier a snapshot that always records x, y, width,
    height, rotation, opacity, scaleX and scaleY (the scales being 1 when
    unset), and records fill, strokeColor, color, blur, brightness and
    fontSize exactly when the effective value is truthy, so that a blur,
    brightness or fontSize of 0 and an empty colour string are left out.
    The effective values are those of the element itself when identifiers
    are unique in the tree (and of the last element visited under that
    identifier otherwise). *)
Theorem snapshotAllElements_records (time : option R)
    (keyframes : option (list GlobalKeyframe)) (elements : list OverlayElement)
    (el : ElementProps) :
  el ∈ allElements elements ->
  exists el' s,
    el' ∈ allElements elements /\ el_id el' = el_id el /\
    (NoDup (el_id <$> allElements elements) -> el' = el) /\
    snapshotAllElements time keyframes elements !! el_id el = Some s /\
    snapshotMatches s (effectiveState time keyframes el').
Proof.
  intros Hin. unfold snapshotAllElements. rewrite flatten_allElements.
  destruct (foldl_record_lookup time keyframes _ ∅ el Hin)
    as (el' & Hin' & Hid & Huniq & Hl).
  exists el', (snapshotState (effectiveState time keyframes el')).
  split; [exact Hin'|]. split; [exact Hid|]. split; [exact Huniq|].
  split; [exact Hl|]. apply snapshotState_matches.
Qed.

Lemma snapshotAllElements_records_witness :
  childElement ∈ allElements smallTree /\
  exists s,
    snapshotAllElements None None smallTree !! "child"%string = Some s /\
    nums s !! P_x = Some 5 /\ nums s !! P_scaleX = Some 1 /\
    nums s !! P_blur = None /\ cols s !! P_color = None.
Proof.
  assert (Hin : childElement ∈ allElements smallTree).
  { simpl. right. left. }
  split; [exact Hin|].
  destruct (snapshotAllElements_records None None smallTree childElement Hin)
    as (el' & s & _ & _ & Huniq & Hs & Hm).
  assert (He : el' = childElement).
  { apply Huniq. simpl. apply NoDup_cons_2; [|apply NoDup_singleton].
    rewrite list_elem_of_singleton. discriminate. }
  subst el'. exists s. split; [exact Hs|]. simpl in Hm.
  destruct Hm as (Hx & _ & _ & _ & _ & _ & Hsx & _ & _ & _ & _ & _ & _ & _
                    & Hb & _ & _ & Hc).
  repeat split; [exact Hx|exact Hsx|by apply Hb|by apply Hc].
Defined.

(** ** Keyframe insertion *)

Lemma Math_abs_le a e : Math_abs a <= e <-> - e <= a <= e.
Proof. unfold Math_abs. destruct (Rle_dec 0 a); lra. Qed.

Lemma Math_round_near x : - / 2 < Math_round x - x <= / 2.
Proof.
  unfold Math_round, round_Z.
  pose proof (Zfloor_bound (x + / 2)). lra.
Qed.

Lemma filter_near_far time (l : list GlobalKeyframe) :
  filter (near time) (filter (far time) l) = [].
Proof.
  induction l as [|k l IH]; [reflexivity|].
  rewrite filter_cons. destruct (decide (far time k)) as [Hf|Hf]; [|exact IH].
  rewrite filter_cons. destruct (decide (near time k)) as [Hn|Hn]; [|exact IH].
  unfold far, near in *. lra.
Qed.

Lemma newKeyframe_near uuid time st : near time (newKeyframe uuid time st).
Proof.
  unfold near. apply Math_abs_le. simpl.
  pose proof (Math_round_near (time * 100)). lra.
Qed.

(** C4. After [addGlobalKeyframe(time)] the keyframes of the timeline are
    the earlier keyframes farther than 0.01 from [time], followed by the new
    one: every earlier keyframe within 0.01 of [time] is gone, the new
    keyframe is within 0.01 of [time], and it is the only keyframe there, so
    at most one keyframe lies within 0.01 of the inserted time.  Inserting at
    [t = 1.005] into a timeline whose only keyframe is at [t = 1.0] leaves
    one keyframe, the new one. *)
Theorem addGlobalKeyframe_replaces (uuid : string) (time : R) (st : Designer) :
  let st' := addGlobalKeyframe uuid time st in
  let kf := newKeyframe uuid time st in
  let existing := tl_keyframes (timeline st) in
  let result := tl_keyframes (timeline st') in
  result = filter (far time) existing ++ [kf] /\
  (forall k, k ∈ existing -> near time k -> k ∉ filter (far time) existing) /\
  (forall k, k ∈ existing -> far time k -> k ∈ result) /\
  near time kf /\
  filter (near time) result = [kf] /\
  (length (filter (near time) result) <= 1)%nat /\
  selectedKeyframeId st' = Some uuid /\
  (forall id0 e0 states0 els sel,
     let k1 := mkKeyframe id0 1 e0 states0 in
     let st1 := mkDesigner els (setKeyframes defaultTimeline [k1]) sel in
     tl_keyframes (timeline (addGlobalKeyframe uuid 1.005 st1))
     = [newKeyframe uuid 1.005 st1]).
Proof.
  intros st' kf existing result.
  assert (Hres : result = filter (far time) existing ++ [kf]) by reflexivity.
  assert (Hnear : filter (near time) result = [kf]).
  { rewrite Hres, filter_app, filter_near_far. simpl.
    rewrite filter_cons, decide_True by apply newKeyframe_near. reflexivity. }
  split; [exact Hres|]. split; [|split; [|split; [|split; [|split; [|split]]]]].
  - intros k _ Hn Hin. apply list_elem_of_filter in Hin as [Hf _].
    unfold far, near in *. lra.
  - intros k Hin Hf. rewrite Hres. apply elem_of_app. left.
    by apply list_elem_of_filter.
  - apply newKeyframe_near.
  - exact Hnear.
  - rewrite Hnear. simpl. lia.
  - reflexivity.
  - intros id0 e0 states0 els sel k1 st1.
    unfold addGlobalKeyframe. simpl.
    rewrite filter_cons, decide_False; [reflexivity|].
    unfold far, k1, Math_abs. simpl. rcases.
Qed.

(* ===================================================================== *)
(** * TransformBox: move and resize gestures *)
(* ===================================================================== *)

(** ** Properties of the gestures *)

Lemma Math_round_eq (z : Z) (x : R) :
  IZR z - / 2 <= x < IZR z + / 2 -> Math_round x = IZR z.
Proof.
  intros H. unfold Math_round, round_Z. f_equal. apply Zfloor_eq. lra.
Qed.

(** The shape of the two clamping assignments: the centre ends up inside
    [0, bound]. *)
Lemma clamp_center (n size bound : R) :
  0 <= bound ->
  0 <= (if Rgt_dec (n + size / 2) bound then bound - size / 2
        else if Rlt_dec (n + size / 2) 0 then - size / 2 else n) + size / 2
    <= bound.
Proof. intros Hb. rcases. Qed.

(** When the centre is inside already, the position is left alone. *)
Lemma clamp_center_id (n size bound : R) :
  0 <= n + size / 2 <= bound ->
  (if Rgt_dec (n + size / 2) bound then bound - size / 2
   else if Rlt_dec (n + size / 2) 0 then - size / 2 else n) = n.
Proof. intros Hb. rcases. Qed.

Section Gestures.

Context (el : ElementProps) (isDrawing : bool)
        (scale containerW containerH : R).

Lemma dragOnMove_center sx sy ex ey ev :
  0 <= containerW -> 0 <= containerH ->
  let u := dragOnMove el scale containerW containerH sx sy ex ey ev in
  0 <= move_x u + el_width el / 2 <= containerW /\
  0 <= move_y u + el_height el / 2 <= containerH.
Proof.
  intros Hw Hh. unfold dragOnMove. cbv zeta. simpl.
  split; by apply clamp_center.
Qed.

Lemma resizeGeometry_center dir sx sy sw sh r icx icy ev :
  0 <= containerW -> 0 <= containerH ->
  let '(newW, newH, nx, ny) :=
    resizeGeometry scale containerW containerH dir sx sy sw sh r icx icy ev in
  0 <= nx + newW / 2 <= containerW /\ 0 <= ny + newH / 2 <= containerH.
Proof.
  intros Hw Hh. unfold resizeGeometry. cbv zeta.
  split; by apply clamp_center.
Qed.

(** Rounding moves the centre of the emitted box by at most 3/4. *)
Lemma rounded_center n size :
  - (3 / 4) <= (Math_round n + Math_round size / 2) - (n + size / 2) <= 3 / 4.
Proof.
  pose proof (Math_round_near n). pose proof (Math_round_near size). lra.
Qed.

End Gestures.

(** ** Centre clamping *)

(** C8, at a failing input.  The claim asks that after every update of a
    gesture the centre of the element lie inside the container, which is
    what the clamp of [handleResizeDown] is written for; but the resize
    gesture rounds x and width after clamping.  Dragging the east handle of
    [edgeElement] one unit to the right in a 100 by 100 container emits
    [x = 98] (97.5 rounded) and [width = 5]: the centre of the emitted box
    is at 100.5, outside the container. *)
Theorem resize_rounding_moves_center_out :
  exists onMove,
    handleResizeDown edgeElement false 1 100 100 (mkPointer 0 0) "e" = Some onMove /\
    onMove (mkPointer 1 0) = mkResize 5 4 98 48 /\
    resize_x (onMove (mkPointer 1 0)) + resize_width (onMove (mkPointer 1 0)) / 2
      > 100.
Proof.
  assert (H : resizeOnMove 1 100 100 "e" 0 0 (startW edgeElement)
                (startH edgeElement) (rad edgeElement) (initialCx edgeElement)
                (initialCy edgeElement) (mkPointer 1 0) = mkResize 5 4 98 48).
  { unfold resizeOnMove, resizeGeometry, initialCx, initialCy, startW, startH.
    trig_at_0. simpl. unfold Math_max. rcases.
    f_equal; apply Math_round_eq; lra. }
  exists (resizeOnMove 1 100 100 "e" 0 0 (startW edgeElement)
            (startH edgeElement) (rad edgeElement) (initialCx edgeElement)
            (initialCy edgeElement)).
  split; [reflexivity|]. rewrite H. simpl. split; [reflexivity|lra].
Qed.

(** What the two gestures do ensure.  In a container of non-negative width
    and height, every update of the move gesture puts the centre of the
    element inside the container.  Every update of the resize gesture clamps
    the centre of the new box inside the container before rounding; the
    emitted width, height, x and y are these values rounded to integers, so
    the centre of the emitted box is within 3/4 of a unit of the
    container. *)
Theorem gestures_clamp_center (el : ElementProps) (isDrawing : bool)
    (scale containerW containerH : R) (e ev : PointerEvent) :
  0 <= containerW -> 0 <= containerH ->
  (forall onMove,
     handleDragDown el isDrawing scale containerW containerH e = Some onMove ->
     let u := onMove ev in
     0 <= move_x u + el_width el / 2 <= containerW /\
     0 <= move_y u + el_height el / 2 <= containerH) /\
  (forall dir onMove,
     handleResizeDown el isDrawing scale containerW containerH e dir
       = Some onMove ->
     let '(newW, newH, nx, ny) :=
       resizeUnrounded el scale containerW containerH e dir ev in
     let u := onMove ev in
     u = mkResize (Math_round newW) (Math_round newH)
           (Math_round nx) (Math_round ny) /\
     0 <= nx + newW / 2 <= containerW /\
     0 <= ny + newH / 2 <= containerH /\
     - (3 / 4) <= resize_x u + resize_width u / 2 <= containerW + 3 / 4 /\
     - (3 / 4) <= resize_y u + resize_height u / 2 <= containerH + 3 / 4).
Proof.
  intros Hw Hh. split.
  - intros onMove Hd. unfold handleDragDown in Hd.
    destruct (el_locked el || isDrawing); [discriminate|].
    injection Hd as <-. by apply dragOnMove_center.
  - intros dir onMove Hd. unfold handleResizeDown in Hd.
    destruct (el_locked el || isDrawing); [discriminate|].
    injection Hd as <-. unfold resizeUnrounded, resizeOnMove.
    pose proof (resizeGeometry_center scale containerW containerH dir
                  (clientX e) (clientY e) (startW el) (startH el) (rad el)
                  (initialCx el) (initialCy el) ev Hw Hh) as Hc.
    destruct (resizeGeometry _ _ _ _ _ _ _ _ _ _ _ _) as [[[newW newH] nx] ny].
    destruct Hc as [Hx Hy]. simpl.
    pose proof (rounded_center nx newW). pose proof (rounded_center ny newH).
    repeat split; try lra.
Qed.

Lemma gestures_clamp_center_witness :
  0 <= 100 /\ 0 <= 100 /\
  exists onMove,
    handleDragDown edgeElement false 1 100 100 (mkPointer 0 0) = Some onMove /\
    0 <= move_x (onMove (mkPointer 500 0)) + el_width edgeElement / 2 <= 100.
Proof.
  assert (Hw : 0 <= 100) by lra.
  split; [exact Hw|]. split; [exact Hw|].
  eexists. split; [reflexivity|].
  exact (proj1 (proj1 (gestures_clamp_center edgeElement false 1 100 100
                         (mkPointer 0 0) (mkPointer 500 0) Hw Hw) _ eq_refl)).
Defined.

(** ** Resizing from the south-east handle, unrotated *)

(** C6, as stated, fails when the resized box would carry its centre out of
    the container: [plainElement] (at [x = 0], 100 wide, unrotated) in a
    150 by 150 container, dragged by its south-east handle 300 units to the
    right, becomes 400 wide and is moved to [x = -50]; its west edge has
    moved. *)
Lemma resize_se_counterexample :
  el_rotation plainElement = 0 /\ el_x plainElement = 0 /\
  exists onMove,
    handleResizeDown plainElement false 1 150 150 (mkPointer 100 100) "se"
      = Some onMove /\
    onMove (mkPointer 400 100) = mkResize 400 100 (-50) 0 /\
    resize_x (onMove (mkPointer 400 100)) <> el_x plainElement.
Proof.
  assert (H : resizeOnMove 1 150 150 "se" 100 100 (startW plainElement)
                (startH plainElement) (rad plainElement) (initialCx plainElement)
                (initialCy plainElement) (mkPointer 400 100)
              = mkResize 400 100 (-50) 0).
  { unfold resizeOnMove, resizeGeometry, initialCx, initialCy, startW, startH.
    trig_at_0. simpl. unfold Math_max. rcases.
    f_equal; apply Math_round_eq; lra. }
  split; [reflexivity|]. split; [reflexivity|].
  exists (resizeOnMove 1 150 150 "se" 100 100 (startW plainElement)
            (startH plainElement) (rad plainElement) (initialCx plainElement)
            (initialCy plainElement)).
  split; [reflexivity|]. rewrite H. simpl. split; [reflexivity|lra].
Qed.

(** C6 (amended). For a resize with handle [se] on an element whose
    rotation is 0, the emitted width and height are the start size plus the
    pointer delta, floored at 4 and rounded; and as long as the centre of the
    resized box stays inside the container, the emitted x and y are the
    element's x and y rounded to integers, hence unchanged when they are
    integers: the north and west edges stay where they were. *)
Theorem resize_se_keeps_north_west (el : ElementProps) (isDrawing : bool)
    (scale containerW containerH : R) (e ev : PointerEvent)
    (onMove : PointerEvent -> ResizeUpdate) :
  el_rotation el = 0 ->
  handleResizeDown el isDrawing scale containerW containerH e "se" = Some onMove ->
  let dx := (clientX ev - clientX e) / scale in
  let dy := (clientY ev - clientY e) / scale in
  let newW := Math_max 4 (startW el + dx) in
  let newH := Math_max 4 (startH el + dy) in
  let u := onMove ev in
  resize_width u = Math_round newW /\
  resize_height u = Math_round newH /\
  (0 <= el_x el + newW / 2 <= containerW ->
   resize_x u = Math_round (el_x el) /\
   forall z, el_x el = IZR z -> resize_x u = el_x el) /\
  (0 <= el_y el + newH / 2 <= containerH ->
   resize_y u = Math_round (el_y el) /\
   forall z, el_y el = IZR z -> resize_y u = el_y el).
Proof.
  intros Hrot Hd dx dy newW newH u. unfold handleResizeDown in Hd.
  destruct (el_locked el || isDrawing); [discriminate|].
  injection Hd as <-. subst u.
  unfold resizeOnMove, resizeGeometry, rad. rewrite Hrot.
  replace (0 * Math_PI / 180) with 0 by lra.
  unfold Math_cos, Math_sin. rewrite ?Ropp_0, ?cos_0, ?sin_0. simpl.
  fold dx dy.
  replace (dx * 1 - dy * 0) with dx by lra.
  replace (dx * 0 + dy * 1) with dy by lra.
  fold newW newH.
  assert (Hx : initialCx el + ((newW - startW el) / 2 * 1 - (newH - startH el) / 2 * 0)
               - newW / 2 = el_x el) by (unfold initialCx; lra).
  assert (Hy : initialCy el + ((newW - startW el) / 2 * 0 + (newH - startH el) / 2 * 1)
               - newH / 2 = el_y el) by (unfold initialCy; lra).
  rewrite Hx, Hy.
  split; [reflexivity|]. split; [reflexivity|]. split.
  - intros Hc. rewrite clamp_center_id by exact Hc.
    split; [reflexivity|]. intros z ->. apply Math_round_eq. lra.
  - intros Hc. rewrite clamp_center_id by exact Hc.
    split; [reflexivity|]. intros z ->. apply Math_round_eq. lra.
Qed.

Lemma resize_se_keeps_north_west_witness :
  el_rotation plainElement = 0 /\
  exists onMove,
    handleResizeDown plainElement false 1 150 150 (mkPointer 100 100) "se"
      = Some onMove /\
    resize_width (onMove (mkPointer 110 120))
      = Math_round (Math_max 4 (startW plainElement + (110 - 100) / 1)).
Proof.
  split; [reflexivity|]. eexists. split; [reflexivity|].
  exact (proj1 (resize_se_keeps_north_west plainElement false 1 150 150
                  (mkPointer 100 100) (mkPointer 110 120) _ eq_refl eq_refl)).
Defined.

(** ** Resizing from the north handle at 90 degrees *)

(** C7, as stated, fails: dragging the north handle of [rotatedElement]
    (at [(100, 100)], 50 by 50, rotated by 90 degrees) 20 units to the right
    emits height 70, [x = 110] and [y = 90]: x has changed by 10, half the
    drag, and y has changed as well. *)
Lemma resize_n_rotated_counterexample :
  exists onMove,
    handleResizeDown rotatedElement false 1 1000 1000 (mkPointer 0 0) "n"
      = Some onMove /\
    onMove (mkPointer 20 0) = mkResize 50 70 110 90 /\
    resize_x (onMove (mkPointer 20 0)) - el_x rotatedElement <> 20 /\
    resize_y (onMove (mkPointer 20 0)) <> el_y rotatedElement.
Proof.
  assert (H : resizeOnMove 1 1000 1000 "n" 0 0 (startW rotatedElement)
                (startH rotatedElement) (rad rotatedElement)
                (initialCx rotatedElement) (initialCy rotatedElement)
                (mkPointer 20 0)
              = mkResize 50 70 110 90).
  { unfold resizeOnMove, resizeGeometry, initialCx, initialCy, startW, startH.
    trig_at_90. simpl. unfold Math_max. rcases.
    f_equal; apply Math_round_eq; lra. }
  exists (resizeOnMove 1 1000 1000 "n" 0 0 (startW rotatedElement)
            (startH rotatedElement) (rad rotatedElement)
            (initialCx rotatedElement) (initialCy rotatedElement)).
  split; [reflexivity|]. rewrite H. simpl.
  split; [reflexivity|]. split; lra.
Qed.

(** C7 (amended). For a resize with handle [n] on an element rotated by 90
    degrees, the horizontal pointer delta (and not the vertical one) drives
    the gesture: the height becomes the start height plus that delta,
    floored at 4, and the width is kept.  The centre of the box moves along
    the world x axis only, by half the change of height; as long as it stays
    inside the container, the emitted x is the start x plus half the change
    of height and the emitted y is the start y minus half the change of
    height, both rounded (for an element at least 4 wide). *)
Theorem resize_n_rotated_90 (el : ElementProps) (isDrawing : bool)
    (scale containerW containerH : R) (e ev : PointerEvent)
    (onMove : PointerEvent -> ResizeUpdate) :
  el_rotation el = 90 ->
  handleResizeDown el isDrawing scale containerW containerH e "n" = Some onMove ->
  let dx := (clientX ev - clientX e) / scale in
  let newW := Math_max 4 (startW el) in
  let newH := Math_max 4 (startH el + dx) in
  let dh := newH - startH el in
  let u := onMove ev in
  resize_width u = Math_round newW /\
  resize_height u = Math_round newH /\
  (0 <= initialCx el + dh / 2 <= containerW ->
   resize_x u = Math_round (initialCx el + dh / 2 - newW / 2) /\
   (4 <= el_width el -> resize_x u = Math_round (el_x el + dh / 2))) /\
  (0 <= initialCy el <= containerH ->
   resize_y u = Math_round (initialCy el - newH / 2) /\
   resize_y u = Math_round (el_y el - dh / 2)).
Proof.
  intros Hrot Hd dx newW newH dh u. unfold handleResizeDown in Hd.
  destruct (el_locked el || isDrawing); [discriminate|].
  injection Hd as <-. subst u.
  unfold resizeOnMove, resizeGeometry, rad. rewrite Hrot.
  replace (90 * Math_PI / 180) with (PI / 2) by (unfold Math_PI; lra).
  unfold Math_cos, Math_sin.
  rewrite ?cos_neg, ?sin_neg, ?cos_PI2, ?sin_PI2. simpl.
  fold dx.
  set (dy := (clientY ev - clientY e) / scale).
  replace (- (dx * - (1) + dy * 0)) with dx by lra.
  replace (startW el + 0) with (startW el) by lra.
  fold newW newH. fold dh.
  assert (Hx : initialCx el + (0 * 0 - - dh / 2 * 1) - newW / 2
               = initialCx el + dh / 2 - newW / 2) by lra.
  assert (Hy : initialCy el + (0 * 1 + - dh / 2 * 0) - newH / 2
               = initialCy el - newH / 2) by lra.
  rewrite Hx, Hy.
  split; [reflexivity|]. split; [reflexivity|]. split.
  - intros Hc. rewrite clamp_center_id by lra.
    split; [reflexivity|]. intros Hw. f_equal.
    unfold initialCx, newW, startW, Math_max. rcases.
  - intros Hc. rewrite clamp_center_id by lra.
    split; [reflexivity|]. f_equal. unfold initialCy, dh. lra.
Qed.

Lemma resize_n_rotated_90_witness :
  el_rotation rotatedElement = 90 /\
  exists onMove,
    handleResizeDown rotatedElement false 1 1000 1000 (mkPointer 0 0) "n"
      = Some onMove /\
    resize_height (onMove (mkPointer 20 0))
      = Math_round (Math_max 4 (startH rotatedElement + (20 - 0) / 1)).
Proof.
  split; [reflexivity|]. eexists. split; [reflexivity|].
  exact (proj1 (proj2 (resize_n_rotated_90 rotatedElement false 1 1000 1000
                         (mkPointer 0 0) (mkPointer 20 0) _ eq_refl eq_refl))).
Defined.

(* ===================================================================== *)
(** * Colour picker: conversions                                           *)
(* ===================================================================== *)

Lemma round_Z_IZR (n : Z) : round_Z (IZR n) = n.
Proof. unfold round_Z. apply Zfloor_eq. lra. Qed.

Lemma round_Z_between (lo hi : Z) (x : R) :
  IZR lo <= x <= IZR hi -> (lo <= round_Z x <= hi)%Z.
Proof.
  intros [Hlo Hhi]. unfold round_Z. split.
  - apply Zfloor_lub. lra.
  - pose proof (Zfloor_bound (x + / 2)) as [Hb _].
    assert (IZR (Zfloor (x + / 2)) < IZR (hi + 1)).
    { rewrite plus_IZR. lra. }
    apply lt_IZR in H. lia.
Qed.

Lemma is_lower_hex_In c : is_lower_hex c = true -> In c lowerHexDigits.
Proof.
  destruct c as [[] [] [] [] [] [] [] []]; vm_compute; intros H;
    try discriminate H; tauto.
Qed.

Lemma is_lower_hex_digit c : is_lower_hex c = true -> is_hex_digit c = true.
Proof.
  intros H. apply is_lower_hex_In in H. simpl in H.
  repeat (destruct H as [<-|H]; [reflexivity|]). destruct H.
Qed.

Lemma channelHex_spelled (n : Z) :
  (0 <= n <= 255)%Z ->
  exists c1 c2,
    channelHex n = String c1 (String c2 "") /\
    is_lower_hex c1 = true /\ is_lower_hex c2 = true /\
    (16 * hexval c1 + hexval c2 = n)%Z.
Proof.
  intros Hn.
  assert (Hall : forallb channelSpelled (seq 0 256) = true) by (vm_compute; reflexivity).
  rewrite forallb_forall in Hall.
  specialize (Hall (Z.to_nat n)).
  assert (Hin : In (Z.to_nat n) (seq 0 256)) by (apply in_seq; lia).
  specialize (Hall Hin). unfold channelSpelled in Hall.
  rewrite Z2Nat.id in Hall by lia.
  destruct (channelHex n) as [|c1 [|c2 [|? ?]]]; try discriminate.
  apply andb_true_iff in Hall as [[H1 H2]%andb_true_iff H3].
  apply Z.eqb_eq in H3. by exists c1, c2.
Qed.

(** Two lower-case digits are what their value is written as. *)
Lemma channelHex_of_digits c1 c2 :
  is_lower_hex c1 = true -> is_lower_hex c2 = true ->
  channelHex (16 * hexval c1 + hexval c2) = String c1 (String c2 "").
Proof.
  intros H1 H2.
  assert (Hall : forallb (fun a => forallb (fun b =>
            String.eqb (channelHex (16 * hexval a + hexval b))
              (String a (String b ""))) lowerHexDigits) lowerHexDigits = true)
    by (vm_compute; reflexivity).
  rewrite forallb_forall in Hall.
  specialize (Hall c1 (is_lower_hex_In c1 H1)).
  rewrite forallb_forall in Hall.
  specialize (Hall c2 (is_lower_hex_In c2 H2)).
  by apply String.eqb_eq in Hall.
Qed.

(** Decoding [#] followed by six hexadecimal digits. *)
Lemma hexToRgb_hash_six c1 c2 c3 c4 c5 c6 :
  is_hex_digit c1 = true -> is_hex_digit c2 = true -> is_hex_digit c3 = true ->
  is_hex_digit c4 = true -> is_hex_digit c5 = true -> is_hex_digit c6 = true ->
  hexToRgb (String "#" (String c1 (String c2 (String c3 (String c4
              (String c5 (String c6 "")))))))
  = mkRGB (16 * hexval c1 + hexval c2) (16 * hexval c3 + hexval c4)
      (16 * hexval c5 + hexval c6).
Proof.
  intros H1 H2 H3 H4 H5 H6. unfold hexToRgb.
  set (s := String c1 (String c2 (String c3 (String c4 (String c5 (String c6 "")))))).
  change (replace_first "#" (String "#" s)) with s.
  change (String.length s =? 3)%nat with false. cbv iota.
  change (padEnd s 6 "0") with s. change (slice 0 6 s) with s.
  unfold s. rewrite parseInt16_six by assumption.
  cbn [default from_option]. unfold Datatypes.id.
  destruct (hex_digit_facts c1 H1) as (_ & _ & _ & _ & _ & _ & _ & B1).
  destruct (hex_digit_facts c2 H2) as (_ & _ & _ & _ & _ & _ & _ & B2).
  destruct (hex_digit_facts c3 H3) as (_ & _ & _ & _ & _ & _ & _ & B3).
  destruct (hex_digit_facts c4 H4) as (_ & _ & _ & _ & _ & _ & _ & B4).
  destruct (hex_digit_facts c5 H5) as (_ & _ & _ & _ & _ & _ & _ & B5).
  destruct (hex_digit_facts c6 H6) as (_ & _ & _ & _ & _ & _ & _ & B6).
  destruct (channels_of_packed (16 * hexval c1 + hexval c2)
              (16 * hexval c3 + hexval c4) (16 * hexval c5 + hexval c6))
    as (-> & -> & ->); [lia..|reflexivity].
Qed.

Lemma rgbToHex_canonical c : validRGB c -> canonicalHex (rgbToHex c).
Proof.
  intros (Hr & Hg & Hb).
  destruct (channelHex_spelled _ Hr) as (c1 & c2 & E1 & L1 & L2 & _).
  destruct (channelHex_spelled _ Hg) as (c3 & c4 & E2 & L3 & L4 & _).
  destruct (channelHex_spelled _ Hb) as (c5 & c6 & E3 & L5 & L6 & _).
  exists c1, c2, c3, c4, c5, c6. unfold rgbToHex. rewrite E1, E2, E3.
  split; [reflexivity|]. by repeat split.
Qed.

Lemma rgbToHex_decodes (c : RGB) :
  validRGB c ->
  String.length (rgbToHex c) = 7%nat /\ wellFormedHex (rgbToHex c) = true /\
  hexToRgb (rgbToHex c) = c.
Proof.
  intros (Hr & Hg & Hb).
  destruct (channelHex_spelled _ Hr) as (c1 & c2 & E1 & L1 & L2 & V1).
  destruct (channelHex_spelled _ Hg) as (c3 & c4 & E2 & L3 & L4 & V2).
  destruct (channelHex_spelled _ Hb) as (c5 & c6 & E3 & L5 & L6 & V3).
  unfold rgbToHex. rewrite E1, E2, E3.
  apply is_lower_hex_digit in L1, L2, L3, L4, L5, L6.
  split; [reflexivity|]. split.
  - unfold wellFormedHex. simpl. by rewrite L1, L2, L3, L4, L5, L6.
  - change (String "#" ((String c1 (String c2 "") ++ String c3 (String c4 "")
              ++ String c5 (String c6 ""))%string))
      with (String "#" (String c1 (String c2 (String c3 (String c4
              (String c5 (String c6 ""))))))).
    rewrite hexToRgb_hash_six by assumption. rewrite V1, V2, V3.
    by destruct c.
Qed.

(** X1. For channels between 0 and 255, [rgbToHex] writes [#] followed by
    six lower-case hexadecimal digits, a well-formed colour, and [hexToRgb]
    reads the three channels back from it. *)
Theorem hexToRgb_rgbToHex (c : RGB) :
  validRGB c ->
  canonicalHex (rgbToHex c) /\ String.length (rgbToHex c) = 7%nat /\
  wellFormedHex (rgbToHex c) = true /\
  hexToRgb (rgbToHex c) = c.
Proof.
  intros Hv. split; [by apply rgbToHex_canonical|by apply rgbToHex_decodes].
Qed.

Lemma hexToRgb_rgbToHex_witness :
  validRGB (mkRGB 26 43 60) /\ hexToRgb (rgbToHex (mkRGB 26 43 60)) = mkRGB 26 43 60.
Proof.
  assert (H : validRGB (mkRGB 26 43 60)) by (unfold validRGB; simpl; lia).
  split; [exact H|].
  exact (proj2 (proj2 (proj2 (hexToRgb_rgbToHex (mkRGB 26 43 60) H)))).
Defined.

(** X2. A colour written as [#] and six lower-case hexadecimal digits is
    given back unchanged by [rgbToHex] after [hexToRgb], and its decoded
    channels are between 0 and 255. *)
Theorem rgbToHex_hexToRgb (s : string) :
  canonicalHex s ->
  validRGB (hexToRgb s) /\ rgbToHex (hexToRgb s) = s.
Proof.
  intros (c1 & c2 & c3 & c4 & c5 & c6 & -> & L1 & L2 & L3 & L4 & L5 & L6).
  pose proof (is_lower_hex_digit _ L1) as H1.
  pose proof (is_lower_hex_digit _ L2) as H2.
  pose proof (is_lower_hex_digit _ L3) as H3.
  pose proof (is_lower_hex_digit _ L4) as H4.
  pose proof (is_lower_hex_digit _ L5) as H5.
  pose proof (is_lower_hex_digit _ L6) as H6.
  rewrite hexToRgb_hash_six by assumption.
  destruct (hex_digit_facts c1 H1) as (_ & _ & _ & _ & _ & _ & _ & B1).
  destruct (hex_digit_facts c2 H2) as (_ & _ & _ & _ & _ & _ & _ & B2).
  destruct (hex_digit_facts c3 H3) as (_ & _ & _ & _ & _ & _ & _ & B3).
  destruct (hex_digit_facts c4 H4) as (_ & _ & _ & _ & _ & _ & _ & B4).
  destruct (hex_digit_facts c5 H5) as (_ & _ & _ & _ & _ & _ & _ & B5).
  destruct (hex_digit_facts c6 H6) as (_ & _ & _ & _ & _ & _ & _ & B6).
  split; [unfold validRGB; simpl; lia|].
  unfold rgbToHex. simpl rgb_r. simpl rgb_g. simpl rgb_b.
  by rewrite !channelHex_of_digits.
Qed.

Lemma rgbToHex_hexToRgb_witness :
  canonicalHex "#1a2b3c" /\ rgbToHex (hexToRgb "#1a2b3c") = "#1a2b3c"%string.
Proof.
  assert (H : canonicalHex "#1a2b3c").
  { exists "1"%char, "a"%char, "2"%char, "b"%char, "3"%char, "c"%char.
    repeat split. }
  split; [exact H|]. exact (proj2 (rgbToHex_hexToRgb "#1a2b3c" H)).
Defined.

(* ===================================================================== *)
(** * Colour picker: HSV                                                   *)
(* ===================================================================== *)

Lemma Math_max_spec (a b : R) :
  a <= Math_max a b /\ b <= Math_max a b /\
  (Math_max a b = a \/ Math_max a b = b).
Proof. unfold Math_max. destruct (Rle_dec a b); lra. Qed.

Lemma Math_min_spec (a b : R) :
  Math_min a b <= a /\ Math_min a b <= b /\
  (Math_min a b = a \/ Math_min a b = b).
Proof. unfold Math_min. destruct (Rle_dec a b); lra. Qed.

Lemma hsvToRgb_f_bounds (c : HSV) (n : R) :
  validSV c -> hsv_v c * (1 - hsv_s c) <= hsvToRgb_f c n <= hsv_v c.
Proof.
  intros [Hs Hv]. unfold hsvToRgb_f.
  set (k := js_rem _ _).
  set (M := Math_max 0 (Math_min (Math_min k (4 - k)) 1)).
  assert (HM : 0 <= M <= 1).
  { unfold M. pose proof (Math_max_spec 0 (Math_min (Math_min k (4 - k)) 1)).
    pose proof (Math_min_spec (Math_min k (4 - k)) 1). lra. }
  assert (0 <= hsv_s c * M <= hsv_s c) by nra.
  nra.
Qed.

Lemma hsvToRgb_validRGB (c : HSV) : validSV c -> validRGB (hsvToRgb c).
Proof.
  intros Hc.
  pose proof (hsvToRgb_f_bounds c 5 Hc). pose proof (hsvToRgb_f_bounds c 3 Hc).
  pose proof (hsvToRgb_f_bounds c 1 Hc). destruct Hc as [Hs Hv].
  assert (0 <= hsv_v c * (1 - hsv_s c)) by nra.
  unfold validRGB, hsvToRgb; simpl.
  split; [|split]; apply round_Z_between; lra.
Qed.

(** X3. Whatever the hue, when saturation and value are between 0 and 1
    [hsvToRgb] gives three channels between 0 and 255, so that [rgbToHex]
    writes them as [#] and six lower-case digits that [hexToRgb] reads
    back. *)
Theorem hsvToRgb_valid (c : HSV) :
  validSV c ->
  validRGB (hsvToRgb c) /\
  canonicalHex (rgbToHex (hsvToRgb c)) /\
  hexToRgb (rgbToHex (hsvToRgb c)) = hsvToRgb c.
Proof.
  intros Hc. pose proof (hsvToRgb_validRGB c Hc) as Hv.
  split; [exact Hv|]. split; [by apply rgbToHex_canonical|].
  by apply rgbToHex_decodes.
Qed.

Lemma hsvToRgb_valid_witness :
  validSV (mkHSV 200 (1/2) 1) /\ validRGB (hsvToRgb (mkHSV 200 (1/2) 1)).
Proof.
  assert (H : validSV (mkHSV 200 (1/2) 1)) by (unfold validSV; simpl; lra).
  split; [exact H|]. exact (proj1 (hsvToRgb_valid _ H)).
Defined.

(** With saturation 0 the three channels are the value scaled to 255 and
    rounded; with value 0 the colour is black. *)
Lemma hsvToRgb_grey_or_black (h s v : R) :
  hsvToRgb (mkHSV h 0 v) = mkRGB (round_Z (v * 255)) (round_Z (v * 255))
                             (round_Z (v * 255)) /\
  hsvToRgb (mkHSV h s 0) = mkRGB 0 0 0.
Proof.
  unfold hsvToRgb, hsvToRgb_f; simpl. split.
  - assert (E : forall M, v - v * 0 * M = v) by (intros; ring).
    by rewrite !E.
  - assert (E : forall M, (0 - 0 * s * M) * 255 = 0) by (intros; ring).
    by rewrite !E, (round_Z_IZR 0).
Qed.

Lemma trunc_Z_small (x : R) : -1 < x < 1 -> trunc_Z x = 0%Z.
Proof.
  intros Hx. unfold trunc_Z. destruct (Rle_dec 0 x).
  - apply Zfloor_eq. simpl. lra.
  - unfold Zceil. assert (Zfloor (- x) = 0%Z) as ->; [|reflexivity].
    apply Zfloor_eq. simpl. lra.
Qed.

Lemma js_rem_small (x : R) : -6 < x < 6 -> js_rem x 6 = x.
Proof.
  intros Hx. unfold js_rem. rewrite trunc_Z_small by lra. simpl. ring.
Qed.

Lemma Math_round_between (lo hi : Z) (x : R) :
  IZR lo <= x <= IZR hi -> IZR lo <= Math_round x <= IZR hi.
Proof.
  intros H. apply round_Z_between in H. unfold Math_round.
  split; apply IZR_le; lia.
Qed.

(** X4. For channels between 0 and 255, [rgbToHsv] gives a whole number of
    degrees from 0 to 359 as hue, and saturation and value between 0 and 1:
    a colour that [hsvToRgb] accepts.  The value is the largest channel
    divided by 255. *)
Theorem rgbToHsv_ranges (c : RGB) :
  validRGB c ->
  (exists z : Z, hsv_h (rgbToHsv c) = IZR z /\ (0 <= z <= 359)%Z) /\
  validSV (rgbToHsv c) /\
  hsv_v (rgbToHsv c)
  = IZR (Z.max (Z.max (rgb_r c) (rgb_g c)) (rgb_b c)) / 255.
Proof.
  intros (Hr & Hg & Hb). destruct c as [r g b]; simpl in *.
  apply (fun H => conj (IZR_le _ _ (proj1 H)) (IZR_le _ _ (proj2 H))) in Hr, Hg, Hb.
  unfold rgbToHsv; simpl.
  set (r' := IZR r / 255) in *. set (g' := IZR g / 255) in *.
  set (b' := IZR b / 255) in *.
  assert (Hr' : 0 <= r' <= 1) by (unfold r'; lra).
  assert (Hg' : 0 <= g' <= 1) by (unfold g'; lra).
  assert (Hb' : 0 <= b' <= 1) by (unfold b'; lra).
  set (mx := Math_max (Math_max r' g') b').
  set (mn := Math_min (Math_min r' g') b').
  assert (Hmx : r' <= mx /\ g' <= mx /\ b' <= mx /\ mx <= 1).
  { unfold mx. pose proof (Math_max_spec r' g').
    pose proof (Math_max_spec (Math_max r' g') b'). lra. }
  assert (Hmn : mn <= r' /\ mn <= g' /\ mn <= b' /\ 0 <= mn).
  { unfold mn. pose proof (Math_min_spec r' g').
    pose proof (Math_min_spec (Math_min r' g') b'). lra. }
  repeat match goal with |- _ /\ _ => split end.
  - destruct (Req_dec_T (mx - mn) 0) as [Hd|Hd].
    { exists 0%Z. split; [reflexivity|lia]. }
    assert (Hdpos : 0 < mx - mn) by lra.
    set (d := mx - mn) in *.
    assert (Hdd : d = mx - mn) by reflexivity.
    assert (Hq : forall u w, mn <= u <= mx -> mn <= w <= mx ->
               -1 <= (u - w) / d <= 1).
    { intros u w Hu Hw.
      assert (Hm : (u - w) / d * d = u - w) by (field; lra).
      split.
      - apply Rmult_le_reg_r with d; [lra|]. rewrite Hm. lra.
      - apply Rmult_le_reg_r with d; [lra|]. rewrite Hm. lra. }
    assert (Hround : forall x, -60 <= x <= 359 ->
              exists z, (if Rlt_dec (Math_round x) 0 then Math_round x + 360
                         else Math_round x) = IZR z /\ (0 <= z <= 359)%Z).
    { intros x Hx. pose proof (round_Z_between (-60) 359 x Hx) as Hz.
      unfold Math_round. destruct (Rlt_dec (IZR (round_Z x)) 0) as [Hneg|Hpos].
      - apply lt_IZR in Hneg. exists (round_Z x + 360)%Z.
        rewrite plus_IZR. split; [reflexivity|lia].
      - exists (round_Z x). split; [reflexivity|].
        assert (0 <= round_Z x)%Z; [|lia].
        apply le_IZR. lra. }
    destruct (Req_dec_T mx r') as [Hmr|Hmr].
    + pose proof (Hq g' b' ltac:(lra) ltac:(lra)) as Hgb.
      rewrite js_rem_small by lra. apply Hround. lra.
    + destruct (Req_dec_T mx g') as [Hmg|Hmg].
      * pose proof (Hq b' r' ltac:(lra) ltac:(lra)) as Hbr.
        apply Hround. lra.
      * pose proof (Hq r' g' ltac:(lra) ltac:(lra)) as Hrg.
        apply Hround. lra.
  - unfold validSV; simpl. split; [|lra].
    destruct (Req_dec_T mx 0) as [|Hm0]; [lra|].
    assert (Hm : (mx - mn) / mx * mx = mx - mn) by (field; lra).
    split.
    + apply Rmult_le_reg_r with mx; [lra|]. rewrite Hm. lra.
    + apply Rmult_le_reg_r with mx; [lra|]. rewrite Hm. lra.
  - unfold mx, r', g', b', Math_max.
    destruct (Rle_dec (IZR r / 255) (IZR g / 255)) as [H1|H1].
    + assert (r <= g)%Z by (apply le_IZR; lra). rewrite (Z.max_r r g) by lia.
      destruct (Rle_dec (IZR g / 255) (IZR b / 255)) as [H2|H2].
      * assert (g <= b)%Z by (apply le_IZR; lra). by rewrite Z.max_r by lia.
      * assert (b < g)%Z by (apply lt_IZR; lra). by rewrite Z.max_l by lia.
    + assert (g < r)%Z by (apply lt_IZR; lra). rewrite (Z.max_l r g) by lia.
      destruct (Rle_dec (IZR r / 255) (IZR b / 255)) as [H2|H2].
      * assert (r <= b)%Z by (apply le_IZR; lra). by rewrite Z.max_r by lia.
      * assert (b < r)%Z by (apply lt_IZR; lra). by rewrite Z.max_l by lia.
Qed.

Lemma rgbToHsv_ranges_witness :
  validRGB (mkRGB 255 128 0) /\ validSV (rgbToHsv (mkRGB 255 128 0)).
Proof.
  assert (H : validRGB (mkRGB 255 128 0)) by (unfold validRGB; simpl; lia).
  split; [exact H|]. exact (proj1 (proj2 (rgbToHsv_ranges _ H))).
Defined.

(** X5. With saturation 0 [hsvToRgb] ignores the hue and gives a grey, the
    value scaled to 255 and rounded, and with value 0 it gives black.  A
    grey (three equal channels, black included, where the division by [max]
    is guarded) has hue 0 and saturation 0 in [rgbToHsv], and goes back
    through [hsvToRgb] unchanged, whatever its level. *)
Theorem hsvToRgb_rgbToHsv_grey (n : Z) (h s v : R) :
  hsvToRgb (mkHSV h 0 v) = mkRGB (round_Z (v * 255)) (round_Z (v * 255))
                             (round_Z (v * 255)) /\
  hsvToRgb (mkHSV h s 0) = mkRGB 0 0 0 /\
  rgbToHsv (mkRGB n n n) = mkHSV 0 0 (IZR n / 255) /\
  hsvToRgb (rgbToHsv (mkRGB n n n)) = mkRGB n n n.
Proof.
  assert (E : rgbToHsv (mkRGB n n n) = mkHSV 0 0 (IZR n / 255)).
  { unfold rgbToHsv; simpl. set (x := IZR n / 255).
    assert (Hmx : Math_max (Math_max x x) x = x) by (unfold Math_max; rcases).
    assert (Hmn : Math_min (Math_min x x) x = x) by (unfold Math_min; rcases).
    rewrite Hmx, Hmn.
    destruct (Req_dec_T (x - x) 0); [|lra].
    destruct (Req_dec_T x 0); f_equal. lra. }
  destruct (hsvToRgb_grey_or_black h s v) as [Hg Hb].
  split; [exact Hg|]. split; [exact Hb|]. split; [exact E|].
  rewrite E. destruct (hsvToRgb_grey_or_black 0 0 (IZR n / 255)) as [-> _].
  replace (IZR n / 255 * 255) with (IZR n) by lra.
  by rewrite round_Z_IZR.
Qed.



(* ===================================================================== *)
(** * [lerpColor]                                                          *)
(* ===================================================================== *)

Lemma parseInt16_two c1 c2 :
  is_hex_digit c1 = true -> is_hex_digit c2 = true ->
  parseInt16 (String c1 (String c2 "")) = Some (16 * hexval c1 + hexval c2)%Z.
Proof.
  intros H1 H2.
  destruct (hex_digit_facts c1 H1) as (Hw & _ & Hm & Hp & _ & _ & D1 & B1).
  destruct (hex_digit_facts c2 H2) as (_ & _ & _ & _ & Hx & HX & D2 & B2).
  unfold parseInt16. cbn [skip_white]. rewrite Hw.
  unfold split_sign. rewrite Hm, Hp.
  unfold strip_0x. rewrite Hx, HX, andb_false_r.
  cbn [hex_prefix]. rewrite D1, D2.
  cbn [default fmap option_fmap option_map]. f_equal.
  rewrite !Z2N.id by lia. unfold Datatypes.id. lia.
Qed.

Lemma lerpColor_parse_six c1 c2 c3 c4 c5 c6 :
  is_hex_digit c1 = true -> is_hex_digit c2 = true -> is_hex_digit c3 = true ->
  is_hex_digit c4 = true -> is_hex_digit c5 = true -> is_hex_digit c6 = true ->
  lerpColor_parse (String "#" (String c1 (String c2 (String c3 (String c4
                     (String c5 (String c6 "")))))))
  = [Some (16 * hexval c1 + hexval c2)%Z; Some (16 * hexval c3 + hexval c4)%Z;
     Some (16 * hexval c5 + hexval c6)%Z].
Proof.
  intros H1 H2 H3 H4 H5 H6.
  change (lerpColor_parse _)
    with [parseInt16 (String c1 (String c2 "")); parseInt16 (String c3 (String c4 ""));
          parseInt16 (String c5 (String c6 ""))].
  by rewrite !parseInt16_two.
Qed.

Lemma hexColour_parse (s : string) :
  hexColour s ->
  validRGB (hexToRgb s) /\
  lerpColor_parse s
  = [Some (rgb_r (hexToRgb s)); Some (rgb_g (hexToRgb s)); Some (rgb_b (hexToRgb s))].
Proof.
  intros (c1 & c2 & c3 & c4 & c5 & c6 & -> & H1 & H2 & H3 & H4 & H5 & H6).
  rewrite lerpColor_parse_six, hexToRgb_hash_six by assumption.
  destruct (hex_digit_facts c1 H1) as (_ & _ & _ & _ & _ & _ & _ & B1).
  destruct (hex_digit_facts c2 H2) as (_ & _ & _ & _ & _ & _ & _ & B2).
  destruct (hex_digit_facts c3 H3) as (_ & _ & _ & _ & _ & _ & _ & B3).
  destruct (hex_digit_facts c4 H4) as (_ & _ & _ & _ & _ & _ & _ & B4).
  destruct (hex_digit_facts c5 H5) as (_ & _ & _ & _ & _ & _ & _ & B5).
  destruct (hex_digit_facts c6 H6) as (_ & _ & _ & _ & _ & _ & _ & B6).
  split; [unfold validRGB; simpl; lia|reflexivity].
Qed.

Lemma canonicalHex_hexColour s : canonicalHex s -> hexColour s.
Proof.
  intros (c1 & c2 & c3 & c4 & c5 & c6 & -> & L1 & L2 & L3 & L4 & L5 & L6).
  exists c1, c2, c3, c4, c5, c6.
  split; [reflexivity|]. by repeat split; apply is_lower_hex_digit.
Qed.

Lemma lerpColor_of_channels (a b : string) (ca cb : RGB) (t : R) :
  lerpColor_parse a = [Some (rgb_r ca); Some (rgb_g ca); Some (rgb_b ca)] ->
  lerpColor_parse b = [Some (rgb_r cb); Some (rgb_g cb); Some (rgb_b cb)] ->
  lerpColor a b t = rgbToHex (blendRGB ca cb t).
Proof. intros Ha Hb. unfold lerpColor. rewrite Ha, Hb. reflexivity. Qed.

Lemma blendChannel_between (a b : Z) (t : R) :
  0 <= t <= 1 -> (Z.min a b <= blendChannel a b t <= Z.max a b)%Z.
Proof.
  intros Ht. unfold blendChannel. apply round_Z_between.
  destruct (Z.le_ge_cases a b) as [Hab|Hab].
  - rewrite Z.min_l, Z.max_r by lia. apply IZR_le in Hab.
    assert (0 <= (IZR b - IZR a) * t) by (apply Rmult_le_pos; lra).
    assert (0 <= (IZR b - IZR a) * (1 - t)) by (apply Rmult_le_pos; lra).
    lra.
  - rewrite Z.min_r, Z.max_l by lia. apply IZR_le in Hab.
    assert (0 <= (IZR a - IZR b) * t) by (apply Rmult_le_pos; lra).
    assert (0 <= (IZR a - IZR b) * (1 - t)) by (apply Rmult_le_pos; lra).
    lra.
Qed.

Lemma blendRGB_ends (ca cb : RGB) (t : R) :
  blendRGB ca cb 0 = ca /\ blendRGB ca cb 1 = cb /\ blendRGB ca ca t = ca.
Proof.
  assert (E0 : forall a b, blendChannel a b 0 = a).
  { intros. unfold blendChannel. rewrite Rmult_0_r, Rplus_0_r. apply round_Z_IZR. }
  assert (E1 : forall a b, blendChannel a b 1 = b).
  { intros a b. unfold blendChannel.
    replace (IZR a + (IZR b - IZR a) * 1) with (IZR b) by ring. apply round_Z_IZR. }
  assert (Ea : forall a, blendChannel a a t = a).
  { intros a. unfold blendChannel.
    replace (IZR a + (IZR a - IZR a) * t) with (IZR a) by ring. apply round_Z_IZR. }
  destruct ca, cb; unfold blendRGB; simpl. by rewrite !E0, !E1, !Ea.
Qed.

Lemma lerpColor_rgbToHex (a b : string) (t : R) :
  hexColour a -> hexColour b ->
  lerpColor a b t = rgbToHex (blendRGB (hexToRgb a) (hexToRgb b) t).
Proof.
  intros Ha Hb.
  destruct (hexColour_parse a Ha) as [Va Pa].
  destruct (hexColour_parse b Hb) as [Vb Pb].
  exact (lerpColor_of_channels a b _ _ t Pa Pb).
Qed.

(** X7. For two colours written as [#] and six hexadecimal digits and [t]
    between 0 and 1, [lerpColor] is [rgbToHex] of the channel-wise rounded
    blend of the channels that [hexToRgb] reads from them; the result is
    again [#] and six lower-case digits, [hexToRgb] reads the blend back
    from it, and each of its channels lies between the two endpoint
    channels. *)
Theorem lerpColor_within (a b : string) (t : R) :
  hexColour a -> hexColour b -> 0 <= t <= 1 ->
  let ca := hexToRgb a in
  let cb := hexToRgb b in
  let c := hexToRgb (lerpColor a b t) in
  lerpColor a b t = rgbToHex (blendRGB ca cb t) /\
  c = blendRGB ca cb t /\ canonicalHex (lerpColor a b t) /\
  (Z.min (rgb_r ca) (rgb_r cb) <= rgb_r c <= Z.max (rgb_r ca) (rgb_r cb))%Z /\
  (Z.min (rgb_g ca) (rgb_g cb) <= rgb_g c <= Z.max (rgb_g ca) (rgb_g cb))%Z /\
  (Z.min (rgb_b ca) (rgb_b cb) <= rgb_b c <= Z.max (rgb_b ca) (rgb_b cb))%Z.
Proof.
  intros Ha Hb Ht.
  destruct (hexColour_parse a Ha) as [Va Pa].
  destruct (hexColour_parse b Hb) as [Vb Pb].
  pose proof (lerpColor_rgbToHex a b t Ha Hb) as E.
  cbv zeta. split; [exact E|]. rewrite E.
  pose proof (blendChannel_between (rgb_r (hexToRgb a)) (rgb_r (hexToRgb b)) t Ht) as Br.
  pose proof (blendChannel_between (rgb_g (hexToRgb a)) (rgb_g (hexToRgb b)) t Ht) as Bg.
  pose proof (blendChannel_between (rgb_b (hexToRgb a)) (rgb_b (hexToRgb b)) t Ht) as Bb.
  assert (Vc : validRGB (blendRGB (hexToRgb a) (hexToRgb b) t)).
  { destruct Va as (? & ? & ?), Vb as (? & ? & ?).
    unfold validRGB, blendRGB; cbn [rgb_r rgb_g rgb_b]. lia. }
  destruct (rgbToHex_decodes _ Vc) as (_ & _ & ->).
  split; [reflexivity|]. split; [by apply rgbToHex_canonical|].
  unfold blendRGB; cbn [rgb_r rgb_g rgb_b]. by split; [|split].
Qed.

Lemma lerpColor_within_witness :
  hexColour "#FF0000" /\ hexColour "#0000ff" /\ 0 <= 1/2 <= 1 /\
  hexToRgb (lerpColor "#FF0000" "#0000ff" (1/2))
  = blendRGB (hexToRgb "#FF0000") (hexToRgb "#0000ff") (1/2).
Proof.
  assert (Ha : hexColour "#FF0000").
  { exists "F"%char, "F"%char, "0"%char, "0"%char, "0"%char, "0"%char.
    repeat split. }
  assert (Hb : hexColour "#0000ff").
  { exists "0"%char, "0"%char, "0"%char, "0"%char, "f"%char, "f"%char.
    repeat split. }
  assert (Ht : 0 <= 1/2 <= 1) by lra.
  split; [exact Ha|]. split; [exact Hb|]. split; [exact Ht|].
  exact (proj1 (proj2 (lerpColor_within "#FF0000" "#0000ff" (1/2) Ha Hb Ht))).
Defined.

(** X8. Between two colours written as [#] and six lower-case digits,
    [lerpColor] returns the first colour at [t = 0] and the second at
    [t = 1], and blending a colour with itself returns it at every [t]. *)
Theorem lerpColor_ends (a b : string) (t : R) :
  canonicalHex a -> canonicalHex b ->
  lerpColor a b 0 = a /\ lerpColor a b 1 = b /\ lerpColor a a t = a.
Proof.
  intros Ha Hb.
  destruct (hexColour_parse a (canonicalHex_hexColour a Ha)) as [Va Pa].
  destruct (hexColour_parse b (canonicalHex_hexColour b Hb)) as [Vb Pb].
  rewrite (lerpColor_of_channels a b _ _ 0 Pa Pb),
    (lerpColor_of_channels a b _ _ 1 Pa Pb),
    (lerpColor_of_channels a a _ _ t Pa Pa).
  destruct (blendRGB_ends (hexToRgb a) (hexToRgb b) t) as (-> & -> & ->).
  assert (Hback : forall s, canonicalHex s -> rgbToHex (hexToRgb s) = s).
  { intros s (c1 & c2 & c3 & c4 & c5 & c6 & -> & L1 & L2 & L3 & L4 & L5 & L6).
    rewrite hexToRgb_hash_six by (by apply is_lower_hex_digit).
    unfold rgbToHex. simpl rgb_r. simpl rgb_g. simpl rgb_b.
    by rewrite !channelHex_of_digits. }
  by rewrite !Hback.
Qed.

Lemma lerpColor_ends_witness :
  canonicalHex "#1a2b3c" /\ canonicalHex "#00ff7f" /\
  lerpColor "#1a2b3c" "#00ff7f" 0 = "#1a2b3c"%string.
Proof.
  assert (Ha : canonicalHex "#1a2b3c").
  { exists "1"%char, "a"%char, "2"%char, "b"%char, "3"%char, "c"%char.
    repeat split. }
  assert (Hb : canonicalHex "#00ff7f").
  { exists "0"%char, "0"%char, "f"%char, "f"%char, "7"%char, "f"%char.
    repeat split. }
  split; [exact Ha|]. split; [exact Hb|].
  exact (proj1 (lerpColor_ends "#1a2b3c" "#00ff7f" 0 Ha Hb)).
Defined.

Lemma digit_runs_no_digit (s : string) :
  no_dec_digit s = true -> digit_runs s None = [].
Proof.
  induction s as [|c s IH]; [reflexivity|]. simpl.
  intros [Hc Hs]%andb_true_iff. apply negb_true_iff in Hc. rewrite Hc.
  by apply IH.
Qed.

Lemma lerpColor_parse_no_hash (s : string) :
  startsWithHash s = false ->
  lerpColor_parse s
  = match digit_runs s None with
    | [] => [Some 0%Z; Some 0%Z; Some 0%Z]
    | m => Some <$> take 3 m
    end.
Proof.
  destruct s as [|c s]; [reflexivity|]. unfold startsWithHash.
  destruct c as [[] [] [] [] [] [] [] []]; intros H;
    try reflexivity; discriminate H.
Qed.

(** X9. A colour that does not start with [#] and holds no decimal digit,
    such as a colour name, is blended by [lerpColor] as black on either
    side; and a three-digit colour is blended as its six-digit form with
    each digit doubled. *)
Theorem lerpColor_names_and_shorthand (c other : string) (t : R) (c1 c2 c3 : ascii) :
  startsWithHash c = false -> no_dec_digit c = true ->
  lerpColor c other t = lerpColor "#000000" other t /\
  lerpColor other c t = lerpColor other "#000000" t /\
  lerpColor (String "#" (String c1 (String c2 (String c3 "")))) other t
  = lerpColor (String "#" (String c1 (String c1 (String c2 (String c2
                (String c3 (String c3 ""))))))) other t.
Proof.
  intros Hh Hd.
  assert (E : lerpColor_parse c = lerpColor_parse "#000000").
  { rewrite lerpColor_parse_no_hash, digit_runs_no_digit by assumption.
    reflexivity. }
  unfold lerpColor. rewrite E. repeat split.
Qed.

Lemma lerpColor_names_and_shorthand_witness :
  startsWithHash "transparent" = false /\ no_dec_digit "transparent" = true /\
  lerpColor "transparent" "#ffffff" (1/2) = lerpColor "#000000" "#ffffff" (1/2).
Proof.
  split; [reflexivity|]. split; [reflexivity|].
  exact (proj1 (lerpColor_names_and_shorthand "transparent" "#ffffff" (1/2)
                  "0" "0" "0" eq_refl eq_refl)).
Defined.

(* ===================================================================== *)
(** * Easing: end points and range                                         *)
(* ===================================================================== *)

Lemma easingFn_at_0 (type : EasingType) : easingFn 0 type = 0.
Proof.
  destruct type; simpl; try lra.
  - destruct (Rlt_dec 0 0.5); lra.
  - destruct (Rlt_dec 0 (1 / 2.75)); lra.
  - destruct (Req_dec_T 0 0); [reflexivity|lra].
Qed.

Lemma easingFn_at_1 (type : EasingType) : easingFn 1 type = 1.
Proof.
  destruct type; simpl; try lra.
  - destruct (Rlt_dec 1 0.5); lra.
  - destruct (Rlt_dec 1 (1 / 2.75)); [lra|].
    destruct (Rlt_dec 1 (2 / 2.75)); [lra|].
    destruct (Rlt_dec 1 (2.5 / 2.75)); lra.
  - destruct (Req_dec_T 1 0); [lra|].
    destruct (Req_dec_T 1 1); [reflexivity|lra].
Qed.

Lemma square_le (u c : R) : - c <= u <= c -> u * u <= c * c.
Proof. intros H. nra. Qed.

Lemma easingFn_unit (t : R) (type : EasingType) :
  0 <= t <= 1 -> type <> elastic -> 0 <= easingFn t type <= 1.
Proof.
  intros Ht Hne. destruct type; simpl; try lra; try congruence.
  - nra.
  - nra.
  - destruct (Rlt_dec t 0.5); nra.
  - destruct (Rlt_dec t (1 / 2.75)).
    { pose proof (square_le t (1 / 2.75) ltac:(lra)). nra. }
    destruct (Rlt_dec t (2 / 2.75)).
    { pose proof (square_le (t - 1.5 / 2.75) (0.5 / 2.75) ltac:(lra)). nra. }
    destruct (Rlt_dec t (2.5 / 2.75)).
    { pose proof (square_le (t - 2.25 / 2.75) (0.25 / 2.75) ltac:(lra)). nra. }
    pose proof (square_le (t - 2.625 / 2.75) (0.125 / 2.75) ltac:(lra)). nra.
Qed.

(** X10. Every easing kind sends 0 to 0 and 1 to 1; ease-in-out and bounce
    are continuous where their pieces meet: the formula of the piece on the
    left, taken at the breakpoint, is the value there. *)
Theorem easingFn_ends (type : EasingType) :
  easingFn 0 type = 0 /\ easingFn 1 type = 1 /\
  2 * 0.5 * 0.5 = easingFn 0.5 ease_in_out /\
  7.5625 * (1 / 2.75) * (1 / 2.75) = easingFn (1 / 2.75) bounce /\
  7.5625 * (2 / 2.75 - 1.5 / 2.75) * (2 / 2.75 - 1.5 / 2.75) + 0.75
  = easingFn (2 / 2.75) bounce /\
  7.5625 * (2.5 / 2.75 - 2.25 / 2.75) * (2.5 / 2.75 - 2.25 / 2.75) + 0.9375
  = easingFn (2.5 / 2.75) bounce.
Proof.
  split; [apply easingFn_at_0|]. split; [apply easingFn_at_1|].
  simpl. repeat match goal with |- _ /\ _ => split end; rcases.
Qed.

(** X11. Every easing kind except elastic keeps a progress between 0 and 1
    between 0 and 1. *)
Theorem easingFn_range (t : R) (type : EasingType) :
  0 <= t <= 1 -> type <> elastic -> 0 <= easingFn t type <= 1.
Proof. apply easingFn_unit. Qed.

Lemma easingFn_range_witness :
  0 <= 0.9 <= 1 /\ bounce <> elastic /\ 0 <= easingFn 0.9 bounce <= 1.
Proof.
  assert (H : 0 <= 0.9 <= 1) by lra.
  assert (Hne : bounce <> elastic) by discriminate.
  split; [exact H|]. split; [exact Hne|].
  exact (easingFn_range 0.9 bounce H Hne).
Defined.

(* ===================================================================== *)
(** * The engine: further properties                                       *)
(* ===================================================================== *)

Lemma findBracket_elem time l prev next :
  findBracket time l = Some (prev, next) -> prev ∈ l /\ next ∈ l.
Proof.
  induction l as [|a tl IH]; [done|].
  destruct tl as [|b tl']; [done|].
  cbn [findBracket].
  assert (Hrec : findBracket time (b :: tl') = Some (prev, next) ->
                 prev ∈ a :: b :: tl' /\ next ∈ a :: b :: tl').
  { intros H. destruct (IH H). split; by right. }
  destruct (Rge_dec time (kf_time a)); [|exact Hrec].
  destruct (Rle_dec time (kf_time b)); [|exact Hrec].
  intros [= <- <-]. split; [left|right; left].
Qed.

Lemma interpolateStates_empty el t :
  interpolateStates el emptyState emptyState t = emptyState.
Proof.
  apply state_eq; intros p.
  - rewrite nums_interpolateStates. unfold numericEntry. simpl.
    by rewrite !lookup_empty.
  - rewrite cols_interpolateStates. unfold colorEntry. simpl.
    by rewrite !lookup_empty.
Qed.

(** X12. An element that no keyframe mentions gets no override at any
    time, whatever the keyframes hold for other elements. *)
Theorem interpolate_unmentioned (kfs : list GlobalKeyframe) (elId : string)
    (el : ElementProps) (time : R) :
  (forall k, k ∈ kfs -> kf_elementStates k !! elId = None) ->
  interpolateElementFromGlobal kfs elId el time = emptyState /\
  hasKeys (interpolateElementFromGlobal kfs elId el time) = false.
Proof.
  intros Hnone.
  assert (Hget : forall k, k ∈ sortByTime kfs -> getState elId k = emptyState).
  { intros k Hk. rewrite sortByTime_Permutation in Hk. unfold getState.
    by rewrite (Hnone k Hk). }
  assert (E : interpolateElementFromGlobal kfs elId el time = emptyState).
  { unfold interpolateElementFromGlobal.
    destruct (sortByTime kfs) as [|first rest] eqn:Es; [reflexivity|].
    assert (Hfirst : first ∈ first :: rest) by left.
    assert (Hlast : default first (last (first :: rest)) ∈ first :: rest).
    { destruct (last (first :: rest)) as [k|] eqn:El; simpl; [|left].
      rewrite last_lookup in El. by eapply list_elem_of_lookup_2. }
    destruct (Rle_dec time (kf_time first)); [by apply Hget|].
    destruct (Rge_dec time _); [by apply Hget|].
    assert (Hpair : forall p, p = default (first, default first ((first :: rest) !! 1%nat))
                       (findBracket time (first :: rest)) ->
                    p.1 ∈ first :: rest /\ p.2 ∈ first :: rest).
    { intros [p q] ->. destruct (findBracket time (first :: rest)) as [[p' q']|] eqn:Eb.
      - simpl. by eapply findBracket_elem.
      - simpl. split; [left|].
        destruct rest as [|b rest']; simpl; [left|right; left]. }
    destruct (default _ (findBracket time (first :: rest))) as [prev next] eqn:Ed.
    destruct (Hpair (prev, next) eq_refl) as [Hp Hn]. simpl in Hp, Hn.
    rewrite (Hget prev Hp), (Hget next Hn). apply interpolateStates_empty. }
  split; [exact E|]. rewrite E. reflexivity.
Qed.

Lemma interpolate_unmentioned_witness :
  (forall k, k ∈ scenarioAB "a" linear linear ->
             kf_elementStates k !! "b"%string = None) /\
  interpolateElementFromGlobal (scenarioAB "a" linear linear) "b" plainElement 1
  = emptyState.
Proof.
  assert (H : forall k, k ∈ scenarioAB "a" linear linear ->
                        kf_elementStates k !! "b"%string = None).
  { intros k Hk. unfold scenarioAB in Hk.
    apply elem_of_cons in Hk as [->|Hk]; [reflexivity|].
    apply list_elem_of_singleton in Hk as ->. reflexivity. }
  split; [exact H|].
  exact (proj1 (interpolate_unmentioned _ "b" plainElement 1 H)).
Defined.





(** X14. Strictly between two neighbouring keyframes that both store a
    numeric property for the element, with any easing but elastic on the
    earlier one, the interpolated value lies between the two stored
    values: there is no overshoot. *)
Theorem interpolate_no_overshoot (kfs l1 l2 : list GlobalKeyframe)
    (prev next : GlobalKeyframe) (elId : string) (el : ElementProps)
    (time : R) (p : NumericProp) (a b : R) :
  sortByTime kfs = l1 ++ prev :: next :: l2 ->
  kf_time prev < time < kf_time next ->
  kf_easing prev <> elastic ->
  nums (getState elId prev) !! p = Some a ->
  nums (getState elId next) !! p = Some b ->
  exists v,
    nums (interpolateElementFromGlobal kfs elId el time) !! p = Some v /\
    Rmin a b <= v <= Rmax a b.
Proof.
  intros Hs Ht He Ha Hb.
  rewrite (interpolate_between elId el kfs time l1 prev next l2 Hs Ht).
  rewrite nums_interpolateStates. unfold numericEntry. rewrite Ha, Hb. simpl.
  set (e := easingFn _ _).
  assert (Hr : 0 <= (time - kf_time prev) / (kf_time next - kf_time prev) <= 1).
  { assert (Hm : (time - kf_time prev) / (kf_time next - kf_time prev)
                 * (kf_time next - kf_time prev) = time - kf_time prev)
      by (field; lra).
    split.
    - apply Rmult_le_reg_r with (kf_time next - kf_time prev); [lra|].
      rewrite Hm. lra.
    - apply Rmult_le_reg_r with (kf_time next - kf_time prev); [lra|].
      rewrite Hm. lra. }
  assert (Hunit : 0 <= e <= 1) by (by apply easingFn_unit).
  eexists. split; [reflexivity|].
  unfold Rmin, Rmax. destruct (Rle_dec a b).
  - assert (0 <= (b - a) * e) by (apply Rmult_le_pos; lra).
    assert (0 <= (b - a) * (1 - e)) by (apply Rmult_le_pos; lra). lra.
  - assert (0 <= (a - b) * e) by (apply Rmult_le_pos; lra).
    assert (0 <= (a - b) * (1 - e)) by (apply Rmult_le_pos; lra). lra.
Qed.

Lemma interpolate_no_overshoot_witness :
  sortByTime (scenarioAB "a" bounce linear)
  = [] ++ mkKeyframe "k0" 0 bounce {[ "a"%string := xOnly 0 ]}
       :: mkKeyframe "k2" 2 linear {[ "a"%string := xOnly 100 ]} :: [] /\
  0 < 1 < 2 /\ bounce <> elastic /\
  exists v,
    nums (interpolateElementFromGlobal (scenarioAB "a" bounce linear) "a"
            plainElement 1) !! P_x = Some v /\
    Rmin 0 100 <= v <= Rmax 0 100.
Proof.
  assert (Hs : sortByTime (scenarioAB "a" bounce linear)
               = [] ++ mkKeyframe "k0" 0 bounce {[ "a"%string := xOnly 0 ]}
                    :: mkKeyframe "k2" 2 linear {[ "a"%string := xOnly 100 ]}
                    :: []).
  { apply sortByTime_id. unfold timeLe. repeat constructor; simpl; lra. }
  assert (Ht : 0 < 1 < 2) by lra.
  assert (He : bounce <> elastic) by discriminate.
  split; [exact Hs|]. split; [exact Ht|]. split; [exact He|].
  apply (interpolate_no_overshoot (scenarioAB "a" bounce linear) [] []
           (mkKeyframe "k0" 0 bounce {[ "a"%string := xOnly 0 ]})
           (mkKeyframe "k2" 2 linear {[ "a"%string := xOnly 100 ]})
           "a" plainElement 1 P_x 0 100 Hs Ht He).
  - unfold getState; simpl. rewrite lookup_singleton_eq. simpl.
    apply lookup_singleton_eq.
  - unfold getState; simpl. rewrite lookup_singleton_eq. simpl.
    apply lookup_singleton_eq.
Defined.

(* ===================================================================== *)
(** * Adding a keyframe, then playing it                                   *)
(* ===================================================================== *)





(* ===================================================================== *)
(** * The element tree of the Designer                                     *)
(* ===================================================================== *)

Lemma find_app {A} (f : A -> bool) (l1 l2 : list A) :
  find f (l1 ++ l2)
  = match find f l1 with Some x => Some x | None => find f l2 end.
Proof.
  induction l1 as [|x l1 IH]; [reflexivity|]. simpl.
  destruct (f x); [reflexivity|exact IH].
Qed.

Lemma findElementIn_children id el cs :
  findElementIn id (Element el (Some cs))
  = if decide (el_id el = id) then Some (Element el (Some cs))
    else findElement cs id.
Proof.
  cbn [findElementIn]. destruct (decide (el_id el = id)); [reflexivity|].
  induction cs as [|c cs IH]; [reflexivity|].
  cbn [findElement]. destruct (findElementIn id c); [reflexivity|exact IH].
Qed.

Lemma removeFromElement_children id el cs :
  removeFromElement id (Element el (Some cs))
  = Element el (Some (removeFromElements cs id)).
Proof.
  cbn [removeFromElement]. do 2 f_equal. unfold removeFromElements.
  induction cs as [|c cs IH]; [reflexivity|].
  rewrite filter_cons. destruct (decide (el_id (props_of c) <> id)).
  - cbn [map]. by rewrite IH.
  - exact IH.
Qed.

Lemma findElementIn_find id e :
  findElementIn id e = find (hasId id) (flattenElement1 e).
Proof.
  induction e as [el|el cs IH] using OverlayElement_tree_ind.
  - cbn [findElementIn flattenElement1 find]. unfold hasId; simpl.
    destruct (decide (el_id el = id)).
    + by rewrite bool_decide_eq_true_2.
    + by rewrite bool_decide_eq_false_2.
  - rewrite findElementIn_children. cbn [flattenElement1 find].
    unfold hasId at 1; simpl.
    destruct (decide (el_id el = id)).
    + by rewrite bool_decide_eq_true_2.
    + rewrite bool_decide_eq_false_2 by done.
      induction IH as [|c cs Hc _ IHcs]; [reflexivity|].
      cbn [findElement flat_map]. rewrite find_app, <- Hc.
      destruct (findElementIn id c); [reflexivity|exact IHcs].
Qed.

Lemma findElement_find els id :
  findElement els id = find (hasId id) (flattenElements els).
Proof.
  induction els as [|e els IH]; [reflexivity|].
  unfold flattenElements in *. cbn [findElement flat_map].
  rewrite find_app, <- findElementIn_find.
  destruct (findElementIn id e); [reflexivity|exact IH].
Qed.

Lemma find_none_ids id (l : list OverlayElement) :
  find (hasId id) l = None <-> id ∉ (fun e => el_id (props_of e)) <$> l.
Proof.
  induction l as [|e l IH]; simpl.
  - split; [intros _ H; by apply elem_of_nil in H|done].
  - unfold hasId at 1. rewrite not_elem_of_cons.
    destruct (decide (el_id (props_of e) = id)) as [Heq|Hne].
    + rewrite bool_decide_eq_true_2 by done. split; [done|]. intros [H _]. by destruct H.
    + rewrite bool_decide_eq_false_2 by done. rewrite IH.
      split; [intros H; split; [congruence|exact H]|by intros [_ H]].
Qed.

Lemma flattenElement1_subelements e : props_of <$> flattenElement1 e = subelements e.
Proof.
  induction e as [el|el cs IH] using OverlayElement_tree_ind; [reflexivity|].
  cbn [flattenElement1 subelements fmap list_fmap props_of]. f_equal.
  induction IH as [|c cs Hc _ IHcs]; [reflexivity|].
  cbn [flat_map]. rewrite fmap_app, Hc. f_equal. exact IHcs.
Qed.

Lemma flattenElements_props els : props_of <$> flattenElements els = allElements els.
Proof.
  induction els as [|e els IH]; [reflexivity|].
  unfold flattenElements, allElements in *. cbn [flat_map].
  by rewrite fmap_app, flattenElement1_subelements, IH.
Qed.

(** X16. [findElement] returns the first element bearing the identifier in
    the order of [flattenElements] (parent before children, siblings in
    order), and [null] exactly when no element of the tree bears it. *)
Theorem findElement_first (els : list OverlayElement) (id : string) :
  findElement els id = find (hasId id) (flattenElements els) /\
  (findElement els id = None <-> id ∉ elementIds els).
Proof.
  split; [apply findElement_find|].
  rewrite findElement_find. apply find_none_ids.
Qed.

(** The loop of [snapshotAllElements] visits the elements in the order of
    [flattenElements]. *)
Lemma snapshot_visits_flattenElements (time : option R)
    (keyframes : option (list GlobalKeyframe)) (els : list OverlayElement) :
  snapshotAllElements time keyframes els
  = foldl (record time keyframes) ∅ (props_of <$> flattenElements els).
Proof.
  unfold snapshotAllElements. by rewrite flatten_allElements, flattenElements_props.
Qed.

(** Induction over a list of elements and their subtrees together. *)
Lemma forest_ind (P : OverlayElement -> Prop) (Q : list OverlayElement -> Prop) :
  Q [] ->
  (forall e l, P e -> Q l -> Q (e :: l)) ->
  (forall el, P (Element el None)) ->
  (forall el cs, Q cs -> P (Element el (Some cs))) ->
  (forall e, P e) /\ (forall l, Q l).
Proof.
  intros Hnil Hcons Hleaf Hnode.
  assert (HP : forall e, P e).
  { induction e as [el|el cs IH] using OverlayElement_tree_ind; [apply Hleaf|].
    apply Hnode. induction IH; [exact Hnil|by apply Hcons]. }
  split; [exact HP|].
  induction l as [|e l IH]; [exact Hnil|by apply Hcons].
Qed.

Lemma elementIds_cons e l : elementIds (e :: l) = elementIds [e] ++ elementIds l.
Proof.
  unfold elementIds, flattenElements. cbn [flat_map].
  by rewrite app_nil_r, fmap_app.
Qed.

Lemma elementIds_leaf el : elementIds [Element el None] = [el_id el].
Proof. reflexivity. Qed.

Lemma elementIds_node el cs :
  elementIds [Element el (Some cs)] = el_id el :: elementIds cs.
Proof.
  unfold elementIds, flattenElements. cbn [flat_map flattenElement1].
  by rewrite app_nil_r.
Qed.

Lemma allElements_cons e l : allElements (e :: l) = allElements [e] ++ allElements l.
Proof. unfold allElements. cbn [flat_map]. by rewrite app_nil_r. Qed.

Lemma allElements_node el cs :
  allElements [Element el (Some cs)] = el :: allElements cs.
Proof. unfold allElements. cbn [flat_map subelements]. by rewrite app_nil_r. Qed.

Lemma removeFromElements_cons id e l :
  removeFromElements (e :: l) id
  = if decide (el_id (props_of e) <> id)
    then removeFromElement id e :: removeFromElements l id
    else removeFromElements l id.
Proof.
  unfold removeFromElements. rewrite filter_cons.
  by destruct (decide (el_id (props_of e) <> id)).
Qed.

Lemma removeFromElements_gone id :
  (forall e, el_id (props_of e) <> id ->
             id ∉ elementIds [removeFromElement id e]) /\
  (forall l, id ∉ elementIds (removeFromElements l id)).
Proof.
  apply forest_ind.
  - intros H. by apply elem_of_nil in H.
  - intros e l He Hl. rewrite removeFromElements_cons.
    destruct (decide (el_id (props_of e) <> id)) as [Hne|_]; [|exact Hl].
    rewrite elementIds_cons, not_elem_of_app. split; [by apply He|exact Hl].
  - intros el Hne. cbn [removeFromElement]. rewrite elementIds_leaf.
    rewrite list_elem_of_singleton. simpl in Hne. congruence.
  - intros el cs Hcs Hne. rewrite removeFromElement_children, elementIds_node.
    rewrite not_elem_of_cons. split; [simpl in Hne; congruence|exact Hcs].
Qed.

Lemma removeFromElements_sublist id :
  (forall e, allElements [removeFromElement id e] `sublist_of` allElements [e]) /\
  (forall l, allElements (removeFromElements l id) `sublist_of` allElements l).
Proof.
  apply forest_ind.
  - constructor.
  - intros e l He Hl. rewrite removeFromElements_cons, (allElements_cons e l).
    destruct (decide (el_id (props_of e) <> id)) as [Hne|_].
    + rewrite allElements_cons. by apply sublist_app.
    + by apply sublist_inserts_l.
  - intros el. reflexivity.
  - intros el cs Hcs. rewrite removeFromElement_children, !allElements_node.
    by apply sublist_skip.
Qed.

Lemma removeFromElements_absent id :
  (forall e, id ∉ elementIds [e] -> removeFromElement id e = e) /\
  (forall l, id ∉ elementIds l -> removeFromElements l id = l).
Proof.
  apply forest_ind.
  - reflexivity.
  - intros e l He Hl. rewrite elementIds_cons, not_elem_of_app. intros [H1 H2].
    rewrite removeFromElements_cons.
    destruct (decide (el_id (props_of e) <> id)) as [_|Heq].
    + by rewrite He, Hl.
    + exfalso. apply H1.
      assert (Hid : el_id (props_of e) = id).
      { destruct (decide (el_id (props_of e) = id)); [done|by destruct Heq]. }
      destruct e as [el [cs|]]; simpl in Hid; rewrite <- Hid.
      * rewrite elementIds_node. left.
      * rewrite elementIds_leaf. by apply list_elem_of_singleton.
  - reflexivity.
  - intros el cs Hcs. rewrite elementIds_node, not_elem_of_cons. intros [_ H].
    by rewrite removeFromElement_children, Hcs.
Qed.

(** X17. After [removeFromElements] no element of the tree bears the
    identifier, so [findElement] finds nothing under it; the elements that
    remain are elements of the old tree, unchanged and in their old order. *)
Theorem removeFromElements_removes (els : list OverlayElement) (id : string) :
  (id ∉ elementIds (removeFromElements els id)) /\
  findElement (removeFromElements els id) id = None /\
  sublist (props_of <$> flattenElements (removeFromElements els id))
    (props_of <$> flattenElements els).
Proof.
  pose proof (proj2 (removeFromElements_gone id) els) as Hgone.
  split; [exact Hgone|]. split.
  - rewrite findElement_find. by apply find_none_ids.
  - rewrite !flattenElements_props. apply removeFromElements_sublist.
Qed.

Lemma spreadPatch_id e up : el_id (props_of (spreadPatch e up)) = el_id (props_of e).
Proof. by destruct e. Qed.

Lemma findElementIn_spreadPatch id up e :
  el_id (props_of e) = id ->
  findElementIn id (patchElement id up e) = Some (spreadPatch e up) /\
  findElementIn id e = Some e.
Proof.
  destruct e as [el ch]. cbn [props_of]. intros Heq.
  assert (Hpatch : patchElement id up (Element el ch) = spreadPatch (Element el ch) up).
  { destruct ch; cbn [patchElement]; by destruct (decide (el_id el = id)). }
  rewrite Hpatch. cbn [spreadPatch]. split.
  - generalize (match patch_children up with Some cs => Some cs | None => ch end).
    intros [cs|].
    + rewrite findElementIn_children. simpl.
      by destruct (decide (el_id el = id)).
    + cbn [findElementIn]. simpl. by destruct (decide (el_id el = id)).
  - destruct ch as [cs|].
    + rewrite findElementIn_children. by destruct (decide (el_id el = id)).
    + cbn [findElementIn]. by destruct (decide (el_id el = id)).
Qed.

Lemma patchElements_find id up :
  (forall e, findElementIn id (patchElement id up e)
             = (fun f => spreadPatch f up) <$> findElementIn id e) /\
  (forall l, findElement (patchElements l id up) id
             = (fun f => spreadPatch f up) <$> findElement l id).
Proof.
  apply forest_ind.
  - reflexivity.
  - intros e l He Hl. unfold patchElements in *. cbn [map findElement].
    rewrite He. destruct (findElementIn id e); [reflexivity|exact Hl].
  - intros el. destruct (decide (el_id el = id)) as [Heq|Hne].
    + destruct (findElementIn_spreadPatch id up (Element el None) Heq) as [-> ->].
      reflexivity.
    + cbn [patchElement]. destruct (decide (el_id el = id)); [done|].
      cbn [findElementIn]. by destruct (decide (el_id el = id)).
  - intros el cs Hcs. destruct (decide (el_id el = id)) as [Heq|Hne].
    + destruct (findElementIn_spreadPatch id up (Element el (Some cs)) Heq)
        as [-> ->].
      reflexivity.
    + rewrite (findElementIn_children id el cs). cbn [patchElement].
      destruct (decide (el_id el = id)); [done|].
      rewrite findElementIn_children.
      destruct (decide (el_id el = id)); [done|]. exact Hcs.
Qed.

Lemma patchElements_absent id up :
  (forall e, id ∉ elementIds [e] -> patchElement id up e = e) /\
  (forall l, id ∉ elementIds l -> patchElements l id up = l).
Proof.
  apply forest_ind.
  - reflexivity.
  - intros e l He Hl. rewrite elementIds_cons, not_elem_of_app. intros [H1 H2].
    unfold patchElements in *. cbn [map]. by rewrite He, Hl.
  - intros el. rewrite elementIds_leaf, list_elem_of_singleton. intros Hne.
    cbn [patchElement]. destruct (decide (el_id el = id)); [congruence|done].
  - intros el cs Hcs. rewrite elementIds_node, not_elem_of_cons. intros [Hne H].
    cbn [patchElement]. destruct (decide (el_id el = id)); [congruence|].
    unfold patchElements in Hcs. by rewrite Hcs.
Qed.

Lemma patchElements_ids id up :
  patch_children up = None ->
  (forall e, elementIds [patchElement id up e] = elementIds [e]) /\
  (forall l, elementIds (patchElements l id up) = elementIds l).
Proof.
  intros Hup. apply forest_ind.
  - reflexivity.
  - intros e l He Hl. unfold patchElements in *. cbn [map].
    by rewrite elementIds_cons, He, Hl, <- elementIds_cons.
  - intros el. cbn [patchElement]. destruct (decide (el_id el = id)); [|done].
    cbn [spreadPatch]. by rewrite Hup.
  - intros el cs Hcs. cbn [patchElement].
    destruct (decide (el_id el = id)).
    + cbn [spreadPatch]. rewrite Hup. by rewrite !elementIds_node.
    + unfold patchElements in Hcs. by rewrite !elementIds_node, Hcs.
Qed.

(** X18. After [patchElements], the element that [findElement] returns for
    the patched identifier is the one it returned before with the patch
    spread over it; it keeps its identifier. *)
Theorem patchElements_patches (els : list OverlayElement) (id : string) (up : Patch) :
  findElement (patchElements els id up) id
  = (fun f => spreadPatch f up) <$> findElement els id /\
  length (patchElements els id up) = length els /\
  (fun e => el_id (props_of e)) <$> patchElements els id up
  = (fun e => el_id (props_of e)) <$> els.
Proof.
  split; [apply patchElements_find|]. unfold patchElements.
  split; [apply length_map|].
  rewrite <- list_fmap_compose. apply list_fmap_ext. intros _ e _. simpl.
  destruct e as [el cs]. cbn [patchElement].
  destruct (decide (el_id el = id)); [apply spreadPatch_id|].
  by destruct cs.
Qed.

(** X19. An identifier that no element of the tree bears: [findElement]
    returns [null], and [patchElements] and [removeFromElements] give the
    tree back unchanged. *)
Theorem absent_id_is_ignored (els : list OverlayElement) (id : string) (up : Patch) :
  id ∉ elementIds els ->
  findElement els id = None /\
  patchElements els id up = els /\
  removeFromElements els id = els.
Proof.
  intros Hid. split; [|split].
  - rewrite findElement_find. by apply find_none_ids.
  - by apply patchElements_absent.
  - by apply removeFromElements_absent.
Qed.

Lemma absent_id_is_ignored_witness :
  ("ghost"%string ∉ elementIds smallTree) /\
  removeFromElements smallTree "ghost" = smallTree.
Proof.
  assert (H : "ghost"%string ∉ elementIds smallTree).
  { unfold elementIds; simpl. rewrite !not_elem_of_cons.
    split; [discriminate|]. split; [discriminate|]. apply not_elem_of_nil. }
  split; [exact H|].
  exact (proj2 (proj2 (absent_id_is_ignored smallTree "ghost"
                         (mkPatch emptyState None) H))).
Defined.

Lemma applyOverrides_empty el : applyOverrides el emptyState = el.
Proof. destruct el. reflexivity. Qed.

(** X20. [addEl] with a group: when [findElement] finds the group, the
    group is found afterwards with the same properties and with the new
    element appended to its children (an absent list of children counting
    as empty). *)
Theorem addEl_into_group (el : OverlayElement) (g : string)
    (els : list OverlayElement) (gp : ElementProps)
    (gc : option (list OverlayElement)) :
  g <> ""%string ->
  findElement els g = Some (Element gp gc) ->
  findElement (addEl el (Some g) els) g
  = Some (Element gp (Some (default [] gc ++ [el]))).
Proof.
  intros Hg Hfind. destruct g as [|c g]; [done|].
  unfold addEl. rewrite (proj2 (patchElements_find _ _)), Hfind.
  cbn [fmap option_fmap option_map mbind option_bind childrenOf spreadPatch
         patch_state patch_children].
  by rewrite applyOverrides_empty.
Qed.

Lemma addEl_into_group_witness :
  "el"%string <> ""%string /\
  findElement smallTree "el"
  = Some (Element plainElement (Some [Element childElement None])) /\
  findElement (addEl (Element edgeElement None) (Some "el"%string) smallTree)
    "el"
  = Some (Element plainElement
            (Some ([Element childElement None] ++ [Element edgeElement None]))).
Proof.
  assert (Hg : "el"%string <> ""%string) by discriminate.
  assert (Hf : findElement smallTree "el"
               = Some (Element plainElement (Some [Element childElement None])))
    by reflexivity.
  split; [exact Hg|]. split; [exact Hf|].
  exact (addEl_into_group (Element edgeElement None) "el" smallTree
           plainElement (Some [Element childElement None]) Hg Hf).
Defined.

(* ===================================================================== *)
(** * Editing with a keyframe selected                                     *)
(* ===================================================================== *)

Lemma patchKeyframe_edited sel id up k :
  editedKeyframe sel id up k (patchKeyframe sel id up k).
Proof.
  unfold editedKeyframe, patchKeyframe.
  destruct (decide (kf_id k = sel)) as [Heq|Hne].
  - refine (conj eq_refl (conj eq_refl (conj eq_refl (conj _ (conj _ _))))).
    + intros other Ho. cbn. by rewrite lookup_insert_ne.
    + intros H. by destruct H.
    + intros _.
      assert (E : forall t e s,
                getState id (mkKeyframe (kf_id k) t e
                               (<[id := s]> (kf_elementStates k))) = s).
      { intros t e s. unfold getState. cbn [kf_elementStates].
        by rewrite lookup_insert_eq. }
      rewrite E. unfold mergeState. cbn [nums cols].
      split; intros p; rewrite lookup_union.
      * destruct (nums up !! p); destruct (nums _ !! p); reflexivity.
      * destruct (cols up !! p); destruct (cols _ !! p); reflexivity.
  - refine (conj eq_refl (conj eq_refl (conj eq_refl (conj _ (conj _ _))))).
    + reflexivity.
    + reflexivity.
    + intros H. by destruct Hne.
Qed.

Lemma updateEl_selected id up st sel :
  selectedKeyframeId st = Some sel -> sel <> ""%string ->
  updateEl id up st
  = {| activeElements := activeElements st;
       timeline := setKeyframes (timeline st)
                     (map (patchKeyframe sel id up) (tl_keyframes (timeline st)));
       selectedKeyframeId := Some sel |}.
Proof.
  intros Hsel Hne. unfold updateEl. rewrite Hsel.
  destruct sel; [done|reflexivity].
Qed.

(** X21. [updateEl] with a keyframe selected leaves the elements and the
    selection alone and edits the timeline keyframe by keyframe: each keeps
    its identifier, time, easing and its snapshots of the other elements;
    only the keyframe bearing the selected identifier changes, where the
    keys of the patch replace those of the element's snapshot and the other
    keys of that snapshot stay. *)
Theorem updateEl_edits_keyframe (id : string) (up : ElementState)
    (st : Designer) (sel : string) :
  selectedKeyframeId st = Some sel -> sel <> ""%string ->
  activeElements (updateEl id up st) = activeElements st /\
  selectedKeyframeId (updateEl id up st) = Some sel /\
  tl_duration (timeline (updateEl id up st)) = tl_duration (timeline st) /\
  Forall2 (editedKeyframe sel id up) (tl_keyframes (timeline st))
    (tl_keyframes (timeline (updateEl id up st))).
Proof.
  intros Hsel Hne. rewrite (updateEl_selected id up st sel Hsel Hne). cbn.
  repeat match goal with |- _ /\ _ => split end; try reflexivity.
  induction (tl_keyframes (timeline st)) as [|k l IH]; constructor;
    [apply patchKeyframe_edited|exact IH].
Qed.

Lemma updateEl_edits_keyframe_witness :
  selectedKeyframeId
    (mkDesigner smallTree (setKeyframes defaultTimeline
                             (scenarioAB "child" linear linear)) (Some "k2"%string))
  = Some "k2"%string /\
  "k2"%string <> ""%string /\
  activeElements
    (updateEl "child" (xOnly 7)
       (mkDesigner smallTree (setKeyframes defaultTimeline
                                (scenarioAB "child" linear linear))
          (Some "k2"%string)))
  = smallTree.
Proof.
  assert (Hg : "k2"%string <> ""%string) by discriminate.
  split; [reflexivity|]. split; [exact Hg|].
  exact (proj1 (updateEl_edits_keyframe "child" (xOnly 7)
                  (mkDesigner smallTree (setKeyframes defaultTimeline
                                           (scenarioAB "child" linear linear))
                     (Some "k2"%string)) "k2" eq_refl Hg)).
Defined.

Lemma setKeyframes_same tl : setKeyframes tl (tl_keyframes tl) = tl.
Proof. by destruct tl. Qed.

(** X22. [updateEl] with a selection that names no keyframe of the
    timeline changes nothing at all: neither the keyframes nor the
    elements receive the patch. *)
Theorem updateEl_stale_selection (id : string) (up : ElementState)
    (st : Designer) (sel : string) :
  selectedKeyframeId st = Some sel -> sel <> ""%string ->
  sel ∉ kf_id <$> tl_keyframes (timeline st) ->
  updateEl id up st = st.
Proof.
  intros Hsel Hne Hstale. rewrite (updateEl_selected id up st sel Hsel Hne).
  assert (Hmap : map (patchKeyframe sel id up) (tl_keyframes (timeline st))
                 = tl_keyframes (timeline st)).
  { induction (tl_keyframes (timeline st)) as [|k l IH]; [reflexivity|].
    rewrite fmap_cons, not_elem_of_cons in Hstale. destruct Hstale as [Hk Hl].
    cbn [map]. rewrite (IH Hl). unfold patchKeyframe.
    destruct (decide (kf_id k = sel)); [congruence|reflexivity]. }
  rewrite Hmap, setKeyframes_same, <- Hsel. by destruct st.
Qed.

Lemma updateEl_stale_selection_witness :
  "gone"%string <> ""%string /\
  ("gone"%string ∉ kf_id <$> scenarioAB "child" linear linear) /\
  updateEl "child" (xOnly 7)
    (mkDesigner smallTree (setKeyframes defaultTimeline
                             (scenarioAB "child" linear linear))
       (Some "gone"%string))
  = mkDesigner smallTree (setKeyframes defaultTimeline
                            (scenarioAB "child" linear linear))
      (Some "gone"%string).
Proof.
  assert (Hg : "gone"%string <> ""%string) by discriminate.
  assert (Hs : "gone"%string ∉ kf_id <$> scenarioAB "child" linear linear).
  { cbn. rewrite !not_elem_of_cons.
    split; [discriminate|]. split; [discriminate|]. apply not_elem_of_nil. }
  split; [exact Hg|]. split; [exact Hs|].
  exact (updateEl_stale_selection "child" (xOnly 7)
           (mkDesigner smallTree (setKeyframes defaultTimeline
                                    (scenarioAB "child" linear linear))
              (Some "gone"%string)) "gone" eq_refl Hg Hs).
Defined.



(* ===================================================================== *)
(** * Keyframe management                                                  *)
(* ===================================================================== *)

Lemma fmap_kf_id_ext (f : GlobalKeyframe -> GlobalKeyframe) l :
  (forall k, kf_id (f k) = kf_id k) -> kf_id <$> map f l = kf_id <$> l.
Proof.
  intros Hf. induction l as [|k l IH]; [reflexivity|].
  cbn [map fmap list_fmap]. rewrite Hf. f_equal. exact IH.
Qed.

Lemma patchKeyframe_id sel id up k : kf_id (patchKeyframe sel id up k) = kf_id k.
Proof. unfold patchKeyframe. by destruct (decide (kf_id k = sel)). Qed.

Lemma updateEl_keyframe_ids id up st :
  kf_id <$> tl_keyframes (timeline (updateEl id up st))
  = kf_id <$> tl_keyframes (timeline st).
Proof.
  unfold updateEl. destruct (selectedKeyframeId st) as [[|c sel]|]; try reflexivity.
  cbn [timeline tl_keyframes setKeyframes].
  apply fmap_kf_id_ext. intros k. apply patchKeyframe_id.
Qed.

Lemma updateEl_selection id up st :
  selectedKeyframeId (updateEl id up st) = selectedKeyframeId st.
Proof.
  unfold updateEl. by destruct (selectedKeyframeId st) as [[|c sel]|].
Qed.

(** X24. When the selection names a keyframe of the timeline (or there is
    none), this is still so after [addGlobalKeyframe], [deleteGlobalKeyframe],
    [updateGlobalKeyframeEasing], [updateGlobalKeyframeTime] and [updateEl];
    the last three keep the list of keyframe identifiers as it is. *)
Theorem selection_stays_valid (st : Designer) (uuid kfId id : string)
    (time newTime : R) (easing : EasingType) (up : ElementState) :
  selectionValid st ->
  selectionValid (addGlobalKeyframe uuid time st) /\
  selectionValid (deleteGlobalKeyframe kfId st) /\
  selectionValid (updateGlobalKeyframeEasing kfId easing st) /\
  selectionValid (updateGlobalKeyframeTime kfId newTime st) /\
  selectionValid (updateEl id up st) /\
  kf_id <$> tl_keyframes (timeline (updateGlobalKeyframeEasing kfId easing st))
  = kf_id <$> tl_keyframes (timeline st) /\
  kf_id <$> tl_keyframes (timeline (updateGlobalKeyframeTime kfId newTime st))
  = kf_id <$> tl_keyframes (timeline st) /\
  kf_id <$> tl_keyframes (timeline (updateEl id up st))
  = kf_id <$> tl_keyframes (timeline st).
Proof.
  intros Hvalid.
  assert (He : kf_id <$> tl_keyframes (timeline (updateGlobalKeyframeEasing kfId easing st))
               = kf_id <$> tl_keyframes (timeline st)).
  { unfold updateGlobalKeyframeEasing. cbn [timeline tl_keyframes setKeyframes].
    apply fmap_kf_id_ext. intros k. by destruct (decide (kf_id k = kfId)). }
  assert (Ht : kf_id <$> tl_keyframes (timeline (updateGlobalKeyframeTime kfId newTime st))
               = kf_id <$> tl_keyframes (timeline st)).
  { unfold updateGlobalKeyframeTime. cbn [timeline tl_keyframes setKeyframes].
    apply fmap_kf_id_ext. intros k. by destruct (decide (kf_id k = kfId)). }
  pose proof (updateEl_keyframe_ids id up st) as Hu.
  split; [|split; [|split; [|split; [|split; [|split; [|split]]]]]];
    try assumption.
  - intros sel [= <-]. unfold addGlobalKeyframe.
    cbn [timeline tl_keyframes setKeyframes newKeyframe kf_id].
    rewrite fmap_app. apply elem_of_app. right. left.
  - intros sel Hsel. unfold deleteGlobalKeyframe in *.
    cbn [timeline tl_keyframes setKeyframes selectedKeyframeId] in *.
    destruct (decide (selectedKeyframeId st = Some kfId)) as [|Hne]; [done|].
    pose proof (Hvalid sel Hsel) as Hin.
    apply list_elem_of_fmap in Hin as (k & -> & Hk).
    apply list_elem_of_fmap. exists k. split; [reflexivity|].
    apply list_elem_of_filter. split; [|exact Hk]. congruence.
  - intros sel Hsel. rewrite He. by apply Hvalid.
  - intros sel Hsel. rewrite Ht. by apply Hvalid.
  - intros sel Hsel. rewrite Hu. apply Hvalid.
    by rewrite updateEl_selection in Hsel.
Qed.

Lemma selection_stays_valid_witness :
  selectionValid (mkDesigner smallTree
                    (setKeyframes defaultTimeline (scenarioAB "child" linear linear))
                    (Some "k2"%string)) /\
  selectionValid
    (deleteGlobalKeyframe "k2"
       (mkDesigner smallTree
          (setKeyframes defaultTimeline (scenarioAB "child" linear linear))
          (Some "k2"%string))).
Proof.
  assert (H : selectionValid
                (mkDesigner smallTree
                   (setKeyframes defaultTimeline (scenarioAB "child" linear linear))
                   (Some "k2"%string))).
  { intros sel [= <-]. cbn. right. left. }
  split; [exact H|].
  exact (proj1 (proj2 (selection_stays_valid _ "u" "k2" "child" 0 0 linear
                         emptyState H))).
Defined.

(** X25. [updateGlobalKeyframeTime], for a timeline whose duration is not
    negative, moves the keyframes bearing the identifier to the requested
    time brought back into [[0, duration]] (to the requested time itself
    when it lies there), keeps their identifier, easing and snapshots, and
    leaves the other keyframes, the elements and the selection untouched. *)
Theorem updateGlobalKeyframeTime_clamps (kfId : string) (newTime : R)
    (st : Designer) :
  0 <= tl_duration (timeline st) ->
  activeElements (updateGlobalKeyframeTime kfId newTime st) = activeElements st /\
  selectedKeyframeId (updateGlobalKeyframeTime kfId newTime st)
  = selectedKeyframeId st /\
  tl_duration (timeline (updateGlobalKeyframeTime kfId newTime st))
  = tl_duration (timeline st) /\
  Forall2 (movedKeyframe kfId (tl_duration (timeline st)) newTime)
    (tl_keyframes (timeline st))
    (tl_keyframes (timeline (updateGlobalKeyframeTime kfId newTime st))).
Proof.
  intros Hd. unfold updateGlobalKeyframeTime.
  cbn [activeElements selectedKeyframeId timeline tl_duration tl_keyframes
         setKeyframes].
  split; [reflexivity|]. split; [reflexivity|]. split; [reflexivity|].
  set (d := tl_duration (timeline st)) in *.
  induction (tl_keyframes (timeline st)) as [|k l IH]; constructor; [|exact IH].
  unfold movedKeyframe. destruct (decide (kf_id k = kfId)) as [Heq|Hne].
  - cbn [kf_id kf_time kf_easing kf_elementStates].
    refine (conj eq_refl (conj eq_refl (conj eq_refl (conj _ _)))).
    + intros H. by destruct H.
    + intros _.
      pose proof (Math_max_spec 0 (Math_min d newTime)) as Hmax.
      pose proof (Math_min_spec d newTime) as Hmin.
      repeat match goal with |- _ /\ _ => split end; lra.
  - refine (conj eq_refl (conj eq_refl (conj eq_refl (conj _ _)))).
    + reflexivity.
    + intros H. by destruct Hne.
Qed.

Lemma updateGlobalKeyframeTime_clamps_witness :
  0 <= tl_duration (timeline
         (mkDesigner smallTree
            (setKeyframes defaultTimeline (scenarioAB "child" linear linear))
            None)) /\
  Forall2 (movedKeyframe "k2" 5 9)
    (scenarioAB "child" linear linear)
    (tl_keyframes (timeline
       (updateGlobalKeyframeTime "k2" 9
          (mkDesigner smallTree
             (setKeyframes defaultTimeline (scenarioAB "child" linear linear))
             None)))).
Proof.
  assert (H : 0 <= tl_duration (timeline
                (mkDesigner smallTree
                   (setKeyframes defaultTimeline (scenarioAB "child" linear linear))
                   None))) by (simpl; lra).
  split; [exact H|].
  exact (proj2 (proj2 (proj2 (updateGlobalKeyframeTime_clamps "k2" 9 _ H)))).
Defined.

Lemma insertByTime_map (f : GlobalKeyframe -> GlobalKeyframe) k l :
  (forall x, kf_time (f x) = kf_time x) ->
  insertByTime (f k) (map f l) = map f (insertByTime k l).
Proof.
  intros Hf. induction l as [|h tl IH]; [reflexivity|].
  cbn [map insertByTime]. rewrite !Hf.
  destruct (Rle_dec (kf_time k) (kf_time h)); [reflexivity|].
  cbn [map]. by rewrite IH.
Qed.

Lemma sortByTime_map (f : GlobalKeyframe -> GlobalKeyframe) l :
  (forall x, kf_time (f x) = kf_time x) ->
  sortByTime (map f l) = map f (sortByTime l).
Proof.
  intros Hf. induction l as [|k l IH]; [reflexivity|].
  cbn [map sortByTime foldr]. fold (sortByTime (map f l)). fold (sortByTime l).
  by rewrite IH, insertByTime_map.
Qed.

Lemma findBracket_cons2 time a b tl :
  findBracket time (a :: b :: tl)
  = if Rge_dec time (kf_time a) then
      if Rle_dec time (kf_time b) then Some (a, b)
      else findBracket time (b :: tl)
    else findBracket time (b :: tl).
Proof. reflexivity. Qed.

Lemma findBracket_map (f : GlobalKeyframe -> GlobalKeyframe) time l :
  (forall x, kf_time (f x) = kf_time x) ->
  findBracket time (map f l)
  = (fun p => (f p.1, f p.2)) <$> findBracket time l.
Proof.
  intros Hf. induction l as [|a tl IH]; [reflexivity|].
  destruct tl as [|b tl']; [reflexivity|].
  change (map f (a :: b :: tl')) with (f a :: f b :: map f tl').
  rewrite !findBracket_cons2, !Hf.
  change (f b :: map f tl') with (map f (b :: tl')).
  destruct (Rge_dec time (kf_time a)); [|exact IH].
  destruct (Rle_dec time (kf_time b)); [reflexivity|exact IH].
Qed.

(** Rewriting keyframes without touching their times or the snapshots of
    the element leaves the interpolation as it is, provided the easing is
    only changed on keyframes that no keyframe follows. *)
Lemma interpolate_map (f : GlobalKeyframe -> GlobalKeyframe) kfs elId el time :
  (forall x, kf_time (f x) = kf_time x) ->
  (forall x, getState elId (f x) = getState elId x) ->
  (forall k, k ∈ kfs -> kf_easing (f k) <> kf_easing k ->
             forall k', k' ∈ kfs -> kf_time k' <= kf_time k) ->
  interpolateElementFromGlobal (map f kfs) elId el time
  = interpolateElementFromGlobal kfs elId el time.
Proof.
  intros Hft Hfs Hfe. unfold interpolateElementFromGlobal.
  rewrite (sortByTime_map f kfs Hft).
  assert (Hperm : forall k, k ∈ sortByTime kfs -> k ∈ kfs).
  { intros k Hk. by rewrite sortByTime_Permutation in Hk. }
  destruct (sortByTime kfs) as [|first rest] eqn:Es; [reflexivity|].
  change (map f (first :: rest)) with (f first :: map f rest).
  cbv beta iota zeta.
  assert (Hlast : default (f first) (last (f first :: map f rest))
                  = f (default first (last (first :: rest)))).
  { change (f first :: map f rest) with (f <$> first :: rest).
    rewrite fmap_last. by destruct (last (first :: rest)). }
  rewrite Hlast, !Hft.
  assert (Hlin : default first (last (first :: rest)) ∈ first :: rest).
  { destruct (last (first :: rest)) as [k0|] eqn:El; simpl; [|left].
    rewrite last_lookup in El. by eapply list_elem_of_lookup_2. }
  destruct (Rle_dec time (kf_time first)) as [|Hlo]; [apply Hfs|].
  destruct (Rge_dec time (kf_time (default first (last (first :: rest)))))
    as [|Hhi]; [apply Hfs|].
  change (f first :: map f rest) with (map f (first :: rest)).
  rewrite (findBracket_map f time (first :: rest) Hft).
  assert (Hpair : exists prev next,
            default (first, default first ((first :: rest) !! 1%nat))
              (findBracket time (first :: rest)) = (prev, next) /\
            default (f first, default (f first) (map f (first :: rest) !! 1%nat))
              ((fun p => (f p.1, f p.2)) <$> findBracket time (first :: rest))
            = (f prev, f next) /\
            prev ∈ first :: rest /\ kf_time prev <= time).
  { destruct (findBracket time (first :: rest)) as [[p q]|] eqn:Eb.
    - exists p, q. split; [reflexivity|]. split; [reflexivity|].
      split; [exact (proj1 (findBracket_elem _ _ _ _ Eb))|].
      by apply (findBracket_encloses _ _ _ _ Eb).
    - exists first, (default first ((first :: rest) !! 1%nat)).
      split; [reflexivity|]. split.
      + cbn [fmap option_fmap option_map default from_option]. f_equal.
        destruct rest; reflexivity.
      + split; [left|lra]. }
  destruct Hpair as (prev & next & -> & -> & Hprev & Hpt).
  rewrite !Hft, !Hfs.
  destruct (decide (kf_easing (f prev) = kf_easing prev)) as [->|Hne];
    [reflexivity|].
  exfalso.
  pose proof (Hfe prev (Hperm prev Hprev) Hne
                (default first (last (first :: rest))) (Hperm _ Hlin)).
  lra.
Qed.

(** X26. The easing of a keyframe that no keyframe follows is never read:
    [updateGlobalKeyframeEasing] on a keyframe whose time is the largest of
    the timeline changes the interpolation of no element at any time. *)
Theorem last_easing_unused (kfId : string) (easing : EasingType) (st : Designer)
    (elId : string) (el : ElementProps) (time : R) :
  (forall k k', k ∈ tl_keyframes (timeline st) -> kf_id k = kfId ->
                k' ∈ tl_keyframes (timeline st) -> kf_time k' <= kf_time k) ->
  interpolateElementFromGlobal
    (tl_keyframes (timeline (updateGlobalKeyframeEasing kfId easing st)))
    elId el time
  = interpolateElementFromGlobal (tl_keyframes (timeline st)) elId el time.
Proof.
  intros Hlast. unfold updateGlobalKeyframeEasing.
  cbn [timeline tl_keyframes setKeyframes].
  apply interpolate_map.
  - intros x. by destruct (decide (kf_id x = kfId)).
  - intros x. by destruct (decide (kf_id x = kfId)).
  - intros k Hk Hne k' Hk'.
    destruct (decide (kf_id k = kfId)) as [Heq|]; [|done].
    by apply (Hlast k k').
Qed.

Lemma last_easing_unused_witness :
  (forall k k', k ∈ scenarioAB "child" linear linear -> kf_id k = "k2"%string ->
                k' ∈ scenarioAB "child" linear linear ->
                kf_time k' <= kf_time k) /\
  interpolateElementFromGlobal
    (tl_keyframes (timeline
       (updateGlobalKeyframeEasing "k2" bounce
          (mkDesigner smallTree
             (setKeyframes defaultTimeline (scenarioAB "child" linear linear))
             None))))
    "child" childElement 1
  = interpolateElementFromGlobal (scenarioAB "child" linear linear)
      "child" childElement 1.
Proof.
  assert (H : forall k k', k ∈ scenarioAB "child" linear linear ->
                kf_id k = "k2"%string ->
                k' ∈ scenarioAB "child" linear linear ->
                kf_time k' <= kf_time k).
  { intros k k' Hk Hid Hk'. cbn in Hk, Hk'.
    apply elem_of_cons in Hk as [->|Hk]; [discriminate Hid|].
    apply list_elem_of_singleton in Hk as ->.
    apply elem_of_cons in Hk' as [->|Hk']; [simpl; lra|].
    apply list_elem_of_singleton in Hk' as ->. simpl; lra. }
  split; [exact H|].
  exact (last_easing_unused "k2" bounce
           (mkDesigner smallTree
              (setKeyframes defaultTimeline (scenarioAB "child" linear linear))
              None) "child" childElement 1 H).
Defined.

Lemma NoDup_fmap_inj {A B} (f : A -> B) (l : list A) x y :
  NoDup (f <$> l) -> x ∈ l -> y ∈ l -> f x = f y -> x = y.
Proof.
  induction l as [|a l IH]; intros Hnd Hx Hy Hf.
  { by apply elem_of_nil in Hx. }
  rewrite fmap_cons in Hnd. apply NoDup_cons in Hnd as [Ha Hnd].
  apply elem_of_cons in Hx as [->|Hx]; apply elem_of_cons in Hy as [->|Hy].
  - reflexivity.
  - exfalso. apply Ha. rewrite Hf. by apply list_elem_of_fmap_2.
  - exfalso. apply Ha. rewrite <- Hf. by apply list_elem_of_fmap_2.
  - by apply IH.
Qed.

Lemma sorted_unique l1 l2 :
  StronglySorted timeLe l1 -> StronglySorted timeLe l2 ->
  l1 ≡ₚ l2 -> NoDup (kf_time <$> l1) -> l1 = l2.
Proof.
  revert l2. induction l1 as [|a l1 IH]; intros l2 Hs1 Hs2 Hp Hnd.
  { by apply Permutation_nil in Hp. }
  destruct l2 as [|b l2].
  { symmetry in Hp. by apply Permutation_nil in Hp. }
  assert (Ha : a ∈ b :: l2) by (rewrite <- Hp; left).
  assert (Hb : b ∈ a :: l1) by (rewrite Hp; left).
  pose proof (sorted_head_le b l2 a Hs2 Ha).
  pose proof (sorted_head_le a l1 b Hs1 Hb).
  assert (a = b) as <-.
  { apply (NoDup_fmap_inj kf_time (a :: l1)); [exact Hnd|left|exact Hb|lra]. }
  f_equal. apply Permutation_cons_inv in Hp.
  inversion Hs1; inversion Hs2; subst.
  rewrite fmap_cons in Hnd. apply NoDup_cons in Hnd as [_ Hnd].
  by apply IH.
Qed.

(** X27. The order in which the keyframes are stored does not matter when
    no two of them share a time: two lists holding the same keyframes give
    the same interpolation for every element at every time. *)
Theorem interpolate_order_independent (kfs1 kfs2 : list GlobalKeyframe)
    (elId : string) (el : ElementProps) (time : R) :
  kfs1 ≡ₚ kfs2 -> NoDup (kf_time <$> kfs1) ->
  interpolateElementFromGlobal kfs1 elId el time
  = interpolateElementFromGlobal kfs2 elId el time.
Proof.
  intros Hp Hnd. unfold interpolateElementFromGlobal.
  assert (E : sortByTime kfs1 = sortByTime kfs2).
  { apply sorted_unique; try apply sortByTime_sorted.
    - by rewrite !sortByTime_Permutation.
    - by rewrite sortByTime_Permutation. }
  by rewrite E.
Qed.

Lemma interpolate_order_independent_witness :
  scenarioAB "a" ease_in linear ≡ₚ reverse (scenarioAB "a" ease_in linear) /\
  NoDup (kf_time <$> scenarioAB "a" ease_in linear) /\
  interpolateElementFromGlobal (scenarioAB "a" ease_in linear) "a" plainElement 1
  = interpolateElementFromGlobal (reverse (scenarioAB "a" ease_in linear)) "a"
      plainElement 1.
Proof.
  assert (Hp : scenarioAB "a" ease_in linear
               ≡ₚ reverse (scenarioAB "a" ease_in linear))
    by apply Permutation_swap.
  assert (Hnd : NoDup (kf_time <$> scenarioAB "a" ease_in linear)).
  { cbn. apply NoDup_cons_2; [|apply NoDup_singleton].
    rewrite list_elem_of_singleton. lra. }
  split; [exact Hp|]. split; [exact Hnd|].
  exact (interpolate_order_independent _ _ "a" plainElement 1 Hp Hnd).
Defined.

Lemma findWithPrevious_found sel before l k :
  findWithPrevious sel before l = Some (Some k) ->
  (before = Some k /\ exists ksel l2, l = ksel :: l2 /\ kf_id ksel = sel) \/
  (exists l1 ksel l2, l = l1 ++ k :: ksel :: l2 /\ kf_id ksel = sel).
Proof.
  revert before. induction l as [|x rest IH]; intros before; [done|].
  cbn [findWithPrevious]. destruct (decide (kf_id x = sel)) as [Heq|Hne].
  - intros [= ->]. left. split; [reflexivity|]. by exists x, rest.
  - intros H. right.
    destruct (IH _ H) as [([= ->] & ksel & l2 & -> & Hid)
                         |(l1 & ksel & l2 & -> & Hid)].
    + by exists [], ksel, l2.
    + by exists (x :: l1), ksel, l2.
Qed.

(** X28. When [getPreviousKeyframeTime] returns a time, it is the time of
    a keyframe of the timeline, the selection names a keyframe too, and the
    returned time is not later than the time of that keyframe. *)
Theorem getPreviousKeyframeTime_earlier (st : Designer) (t : R) :
  getPreviousKeyframeTime st = Some t ->
  exists kprev ksel,
    kprev ∈ tl_keyframes (timeline st) /\ ksel ∈ tl_keyframes (timeline st) /\
    selectedKeyframeId st = Some (kf_id ksel) /\
    kf_time kprev = t /\ t <= kf_time ksel.
Proof.
  unfold getPreviousKeyframeTime.
  destruct (selectedKeyframeId st) as [[|c sel]|]; try done.
  destruct (findWithPrevious _ None _) as [[k|]|] eqn:Ef; try done.
  intros [= <-].
  pose proof (sortByTime_sorted (tl_keyframes (timeline st))) as Hs.
  destruct (findWithPrevious_found _ _ _ _ Ef)
    as [[? _]|(l1 & ksel & l2 & El & Hid)]; [done|].
  rewrite El in Hs. apply StronglySorted_app_1_r in Hs.
  inversion Hs as [|? ? _ Hall]; subst.
  inversion Hall as [|? ? Hle _]; subst.
  assert (Hk : k ∈ sortByTime (tl_keyframes (timeline st))).
  { rewrite El. apply elem_of_app. right. left. }
  assert (Hksel : ksel ∈ sortByTime (tl_keyframes (timeline st))).
  { rewrite El. apply elem_of_app. right. right. left. }
  rewrite sortByTime_Permutation in Hk, Hksel.
  exists k, ksel. rewrite Hid.
  split; [exact Hk|]. split; [exact Hksel|]. split; [reflexivity|].
  split; [reflexivity|exact Hle].
Qed.

Lemma getPreviousKeyframeTime_earlier_witness :
  getPreviousKeyframeTime
    (mkDesigner smallTree
       (setKeyframes defaultTimeline (reverse (scenarioAB "child" linear linear)))
       (Some "k2"%string))
  = Some 0 /\
  exists kprev ksel,
    kprev ∈ reverse (scenarioAB "child" linear linear) /\
    ksel ∈ reverse (scenarioAB "child" linear linear) /\
    Some "k2"%string = Some (kf_id ksel) /\
    kf_time kprev = 0 /\ 0 <= kf_time ksel.
Proof.
  assert (H : getPreviousKeyframeTime
                (mkDesigner smallTree
                   (setKeyframes defaultTimeline
                      (reverse (scenarioAB "child" linear linear)))
                   (Some "k2"%string))
              = Some 0).
  { unfold getPreviousKeyframeTime. cbn.
    destruct (Rle_dec 2 0); [lra|reflexivity]. }
  split; [exact H|].
  exact (getPreviousKeyframeTime_earlier _ 0 H).
Defined.

(* ===================================================================== *)
(** * The playback clock                                                   *)
(* ===================================================================== *)

Lemma js_rem_range (t d : R) : 0 < d -> 0 <= t -> 0 <= js_rem t d < d.
Proof.
  intros Hd Ht. unfold js_rem, trunc_Z.
  assert (Hq : 0 <= t / d).
  { unfold Rdiv. apply Rmult_le_pos; [lra|]. left. by apply Rinv_0_lt_compat. }
  destruct (Rle_dec 0 (t / d)); [|lra].
  pose proof (Zfloor_bound (t / d)) as [Hlo Hhi].
  assert (Ht' : t = t / d * d) by (field; lra).
  split.
  - assert (d * IZR (Zfloor (t / d)) <= t / d * d) by nra. lra.
  - assert (t / d * d < d * (IZR (Zfloor (t / d)) + 1)) by nra. lra.
Qed.

(** X29. One [tick] of the playback, for a positive duration, a speed that
    is not negative and a playback started at a time that is not negative:
    the time it sets lies between 0 and the duration; it stops the
    playback only without looping, and then sets the time to the duration
    and asks for no further frame; otherwise the time is before the
    duration and another frame is requested. *)
Theorem tick_stays_on_timeline (tl : AnimationTimeline)
    (playStart playTimeOffset now : R) :
  0 < tl_duration tl -> 0 <= tl_speed tl -> 0 <= playTimeOffset ->
  playStart <= now ->
  let r := tick tl playStart playTimeOffset now in
  0 <= tick_time r <= tl_duration tl /\
  tick_again r = negb (tick_stops r) /\
  (tick_stops r && tl_loop tl = false) /\
  (if tick_stops r then tick_time r = tl_duration tl
   else tick_time r < tl_duration tl).
Proof.
  intros Hd Hs Ho Hn. unfold tick. cbv zeta.
  set (t := playTimeOffset + (now - playStart) / 1000 * tl_speed tl).
  assert (Ht : 0 <= t).
  { unfold t. assert (0 <= (now - playStart) / 1000 * tl_speed tl); [|lra].
    apply Rmult_le_pos; lra. }
  destruct (Rge_dec t (tl_duration tl)) as [Hge|Hlt].
  - destruct (tl_loop tl) eqn:Hloop.
    + pose proof (js_rem_range t (tl_duration tl) Hd Ht) as Hrem.
      cbn [tick_time tick_stops tick_again].
      destruct (Rlt_dec _ _); [|lra].
      repeat match goal with |- _ /\ _ => split end; try reflexivity; lra.
    + cbn [tick_time tick_stops tick_again].
      destruct (Rlt_dec _ _); [lra|].
      repeat match goal with |- _ /\ _ => split end; try reflexivity; lra.
  - cbn [tick_time tick_stops tick_again].
    destruct (Rlt_dec _ _); [|lra].
    repeat match goal with |- _ /\ _ => split end; try reflexivity; lra.
Qed.

Lemma tick_stays_on_timeline_witness :
  0 < tl_duration defaultTimeline /\ 0 <= tl_speed defaultTimeline /\
  0 <= 4 /\ 1000 <= 3000 /\
  tick_time (tick defaultTimeline 1000 4 3000) = 5.
Proof.
  assert (Hd : 0 < tl_duration defaultTimeline) by (simpl; lra).
  assert (Hs : 0 <= tl_speed defaultTimeline) by (simpl; lra).
  assert (Ho : 0 <= 4) by lra.
  assert (Hn : 1000 <= 3000) by lra.
  split; [exact Hd|]. split; [exact Hs|]. split; [exact Ho|]. split; [exact Hn|].
  pose proof (tick_stays_on_timeline defaultTimeline 1000 4 3000 Hd Hs Ho Hn) as H.
  cbv zeta in H. destruct H as (_ & _ & _ & H).
  assert (Hstop : tick_stops (tick defaultTimeline 1000 4 3000) = true).
  { unfold tick; simpl. destruct (Rge_dec _ _); [reflexivity|lra]. }
  rewrite Hstop in H. exact H.
Defined.

(* ===================================================================== *)
(** * TransformBox: what a resize leaves in place                          *)
(* ===================================================================== *)

(** X30. Whatever the rotation, the handle and the pointer position, as
    long as the centre of the resized box is strictly inside the container
    the resize leaves the point opposite the handle where it was: the
    opposite corner for a corner handle, the middle of the opposite side
    for a side handle. *)
Theorem resize_keeps_opposite_anchor (el : ElementProps)
    (scale containerW containerH : R) (e ev : PointerEvent) (dir : string) :
  centreInside containerW containerH
    (resizeUnrounded el scale containerW containerH e dir ev) ->
  anchor dir (rad el) (resizeUnrounded el scale containerW containerH e dir ev)
  = anchor dir (rad el) (startW el, startH el, el_x el, el_y el).
Proof.
  unfold centreInside, anchor, anchorSign, resizeUnrounded, resizeGeometry,
    initialCx, initialCy.
  cbv zeta.
  set (c := Math_cos (rad el)). set (s := Math_sin (rad el)).
  set (dxl := _ * Math_cos (- rad el) - _ * Math_sin (- rad el)).
  set (dyl := _ * Math_sin (- rad el) + _ * Math_cos (- rad el)).
  destruct (includes dir "e"), (includes dir "w"), (includes dir "s"),
    (includes dir "n");
    match goal with
    | |- context [Math_max 4 (startW el + ?a)] =>
        set (W := Math_max 4 (startW el + a))
    end;
    match goal with
    | |- context [Math_max 4 (startH el + ?a)] =>
        set (H := Math_max 4 (startH el + a))
    end;
    rcases; intros [Hx Hy]; try lra; f_equal; nra.
Qed.

Lemma resize_keeps_opposite_anchor_witness :
  centreInside 200 200
    (resizeUnrounded plainElement 1 200 200 (mkPointer 100 100) "se"
       (mkPointer 110 120)) /\
  anchor "se" (rad plainElement)
    (resizeUnrounded plainElement 1 200 200 (mkPointer 100 100) "se"
       (mkPointer 110 120))
  = anchor "se" (rad plainElement)
      (startW plainElement, startH plainElement, el_x plainElement,
       el_y plainElement).
Proof.
  assert (H : centreInside 200 200
                (resizeUnrounded plainElement 1 200 200 (mkPointer 100 100) "se"
                   (mkPointer 110 120))).
  { unfold centreInside, resizeUnrounded, resizeGeometry, initialCx, initialCy,
      startW, startH.
    trig_at_0. simpl.
    unfold Math_max. rcases. }
  split; [exact H|].
  exact (resize_keeps_opposite_anchor plainElement 1 200 200 (mkPointer 100 100)
           (mkPointer 110 120) "se" H).
Defined.
